(** * libisofuzz: epoch scheduler, transaction registry and log sink

    A shallow embedding of the C++ sources of libisofuzz
    ([src/scheduler.cpp] in its two epoch-based revisions, [src/isofuzz.cpp],
    [src/isofuzz_ctx.h], [src/logger.cpp]) and the properties the
    specification states about them.

    Layout:
    - [PQ]        the [std::priority_queue<TrxPriority, vector, CompareTrxPriority>]
                  the scheduler drains, as the binary heap of libstdc++;
    - [Conv]      [std::stoi] / [std::stol] as used on environment variables;
    - [Sched]     the scheduler as an interleaving transition system: a move
                  is one critical section of [trx_scheduler_run],
                  [scheduler_request], [scheduler_init] or [scheduler_shutdown],
                  or one access to a waiter (its flag, its condition variable,
                  its destruction);
    - [Logger]    the log sink;
    - [Lib]       the registry ([IsoFuzzContext]) and the public entry points. *)

From Stdlib Require Import ZArith NArith Lia ZifyNat String Ascii DecimalString.
From stdpp Require Import base option list gmap strings sorting.

Ltac Zify.zify_post_hook ::= Z.div_mod_to_equations.

(** The scheduler queue holds pairs of <priority, library_trx_id>:
    [using TrxPriority = std::pair<int, uint64_t>]. *)
Abbreviation TrxPriority := (Z * N)%type.

(** [CompareTrxPriority::operator()]: [return a.first > b.first;] *)
Definition CompareTrxPriority (a b : TrxPriority) : bool := bool_decide (a.1 > b.1)%Z.

(* ===================================================================== *)
(** * The priority queue *)
(* ===================================================================== *)

(** [std::priority_queue] keeps its elements in a [std::vector] arranged as a
    binary heap and maintains it with [std::push_heap] and [std::pop_heap].
    The definitions follow libstdc++'s [bits/stl_heap.h].  Indices are
    [nat]: the only subtraction that can go below zero there,
    [(__holeIndex - 1) / 2] at [__holeIndex = 0], is [0] in C++ (division
    truncates) and in [nat] alike. *)
Module PQ.

(** [std::__push_heap(first, holeIndex, topIndex, value, comp)]: the hole
    climbs while its parent compares greater than [value].  The loop runs
    at most [holeIndex] times, which is the fuel [push_heap_aux] gives. *)
Fixpoint push_heap_loop (fuel : nat) (v : list TrxPriority)
    (holeIndex topIndex : nat) (value : TrxPriority) : list TrxPriority :=
  let parent := (holeIndex - 1) / 2 in
  match fuel, v !! parent with
  | S fuel', Some pv =>
      if bool_decide (topIndex < holeIndex) && CompareTrxPriority pv value
      then push_heap_loop fuel' (<[holeIndex := pv]> v) parent topIndex value
      else <[holeIndex := value]> v
  | _, _ => <[holeIndex := value]> v
  end.

Definition push_heap_aux (v : list TrxPriority) (holeIndex topIndex : nat)
    (value : TrxPriority) : list TrxPriority :=
  push_heap_loop holeIndex v holeIndex topIndex value.

(** [std::push_heap(first, last, comp)]: the element at [last - 1] is
    pushed onto the heap [first, last - 1). *)
Definition push_heap (v : list TrxPriority) : list TrxPriority :=
  match last v with
  | Some value => push_heap_aux v (length v - 1) 0 value
  | None => v
  end.

(** The [while (secondChild < (len - 1) / 2)] loop of [std::__adjust_heap]:
    the hole sinks to the bottom, each time taking the place of the child
    that does not compare greater than its sibling.  At the head of the
    loop [secondChild = holeIndex], so one index is threaded. *)
Fixpoint adjust_heap_loop (fuel : nat) (v : list TrxPriority)
    (holeIndex len : nat) : list TrxPriority * nat :=
  match fuel with
  | S fuel' =>
      if bool_decide (holeIndex < (len - 1) / 2) then
        let secondChild := 2 * (holeIndex + 1) in
        match v !! secondChild, v !! (secondChild - 1) with
        | Some r, Some l =>
            if CompareTrxPriority r l
            then adjust_heap_loop fuel' (<[holeIndex := l]> v) (secondChild - 1) len
            else adjust_heap_loop fuel' (<[holeIndex := r]> v) secondChild len
        | _, _ => (v, holeIndex)
        end
      else (v, holeIndex)
  | O => (v, holeIndex)
  end.

(** [std::__adjust_heap(first, holeIndex, len, value, comp)].  It is only
    called with [len >= 1] ([std::pop_heap] tests [last - first > 1]
    before it decrements [last]), where [(len - 2) / 2] is the same in
    [nat] and in C++. *)
Definition adjust_heap (v : list TrxPriority) (holeIndex len : nat)
    (value : TrxPriority) : list TrxPriority :=
  let topIndex := holeIndex in
  let '(v1, hole1) := adjust_heap_loop len v holeIndex len in
  let '(v2, hole2) :=
    if Nat.even len && bool_decide (hole1 = (len - 2) / 2) then
      let secondChild := 2 * (hole1 + 1) in
      match v1 !! (secondChild - 1) with
      | Some l => (<[hole1 := l]> v1, secondChild - 1)
      | None => (v1, hole1)
      end
    else (v1, hole1) in
  push_heap_aux v2 hole2 topIndex value.

(** [std::pop_heap(first, last, comp)]: for more than one element,
    [--last; value = *last; *last = *first; __adjust_heap(first, 0, last - first, value)]. *)
Definition pop_heap (v : list TrxPriority) : list TrxPriority :=
  if bool_decide (1 < length v) then
    let last := length v - 1 in
    match v !! last, v !! 0 with
    | Some value, Some top => adjust_heap (<[last := top]> v) 0 last value
    | _, _ => v
    end
  else v.

(** [priority_queue::push]: [c.push_back(x); std::push_heap(c.begin(), c.end(), comp);] *)
Definition push (x : TrxPriority) (c : list TrxPriority) : list TrxPriority :=
  push_heap (c ++ [x]).

(** [priority_queue::top]: [c.front()]. *)
Definition top (c : list TrxPriority) : option TrxPriority := c !! 0.

(** [priority_queue::pop]: [std::pop_heap(c.begin(), c.end(), comp); c.pop_back();] *)
Definition pop (c : list TrxPriority) : list TrxPriority :=
  let c' := pop_heap c in take (length c' - 1) c'.

(** The scheduler's [while (!local_pending.empty())] loop: the entries of
    the FIFO are pushed front first. *)
Definition push_all (batch : list TrxPriority) (c : list TrxPriority) : list TrxPriority :=
  foldl (fun q x => push x q) c batch.

(** Popping until the queue is empty, as successive DRAINING iterations
    do; the queue shrinks by one each time, so its length is enough fuel. *)
Fixpoint drain_loop (fuel : nat) (c : list TrxPriority) : list TrxPriority :=
  match fuel, top c with
  | S fuel', Some t => t :: drain_loop fuel' (pop c)
  | _, _ => []
  end.

Definition drain (c : list TrxPriority) : list TrxPriority := drain_loop (length c) c.

(** ** The heap invariant *)

Definition ordered_at (v : list TrxPriority) (i : nat) : Prop :=
  forall x p, v !! i = Some x -> v !! ((i - 1) / 2) = Some p -> (p.1 <= x.1)%Z.

Definition is_heap (n : nat) (v : list TrxPriority) : Prop :=
  forall i, 0 < i < n -> ordered_at v i.

(** A heap whose slot [h] is a hole: every edge that does not touch [h]
    is ordered, and the children of [h] are above its parent. *)
Definition heap_with_hole (n : nat) (v : list TrxPriority) (h : nat) : Prop :=
  (forall i, 0 < i < n -> i <> h -> (i - 1) / 2 <> h -> ordered_at v i) /\
  (forall c x g, 0 < h -> 0 < c < n -> (c - 1) / 2 = h ->
     v !! c = Some x -> v !! ((h - 1) / 2) = Some g -> (g.1 <= x.1)%Z).

Definition below_children (n : nat) (v : list TrxPriority) (h : nat)
    (value : TrxPriority) : Prop :=
  forall c x, 0 < c < n -> (c - 1) / 2 = h -> v !! c = Some x -> (value.1 <= x.1)%Z.

(** The invariant of the queue's vector. *)
Definition heap (c : list TrxPriority) : Prop := is_heap (length c) c.

(** Ascending priority, as a relation on queue entries. *)
Definition prio_le (a b : TrxPriority) : Prop := (a.1 <= b.1)%Z.

(** The order in which a batch leaves the queue: the scheduler pushes the
    entries of the FIFO onto the empty queue and pops until it is empty. *)
Definition release_order (batch : list TrxPriority) : list TrxPriority :=
  drain (push_all batch []).


End PQ.

(* ===================================================================== *)
(** * Text to integer conversion *)
(* ===================================================================== *)

(** [std::stoi(str)] and [std::stol(str)] as the C++ standard defines them:
    [strtol(str, &end, 10)] skips leading white space, takes an optional
    sign and the longest run of decimal digits; when no digit was read the
    call throws [std::invalid_argument], when the value does not fit the
    result type it throws [std::out_of_range].  Characters after the digits
    are left unread and are not an error.  A thrown exception is [None];
    both callers catch [std::exception] and do nothing. *)
Module Conv.

Definition isspace (c : ascii) : bool :=
  let n := nat_of_ascii c in bool_decide (n = 32 \/ 9 <= n <= 13).

Definition digit_of (c : ascii) : option Z :=
  let n := nat_of_ascii c in
  if bool_decide (48 <= n <= 57) then Some (Z.of_nat (n - 48)) else None.

Fixpoint skip_space (s : string) : string :=
  match s with
  | String c s' => if isspace c then skip_space s' else s
  | EmptyString => s
  end.

(** The value of the longest run of digits at the head of [s], after the
    digits whose value is [acc]; [seen] tells whether a digit was read. *)
Fixpoint digits (s : string) (acc : Z) (seen : bool) : option Z :=
  match s with
  | String c s' =>
      match digit_of c with
      | Some d => digits s' (10 * acc + d)%Z true
      | None => if seen then Some acc else None
      end
  | EmptyString => if seen then Some acc else None
  end.

Definition strtol (s : string) : option Z :=
  match skip_space s with
  | String "-" s' => Z.opp <$> digits s' 0 false
  | String "+" s' => digits s' 0 false
  | s' => digits s' 0 false
  end.

Definition in_range (bits : Z) (v : Z) : bool :=
  bool_decide (- 2 ^ (bits - 1) <= v < 2 ^ (bits - 1))%Z.

(** [int] is 32 bits wide, [long] 64 (LP64). *)
Definition stoi (s : string) : option Z :=
  v ← strtol s; if in_range 32 v then Some v else None.

Definition stol (s : string) : option Z :=
  v ← strtol s; if in_range 64 v then Some v else None.

(** A value that is an integer, in the sense of the specification's
    ``non-integer values are ignored'': an optional sign and then digits,
    nothing else. *)
Fixpoint all_digits (s : string) : bool :=
  match s with
  | String c s' => bool_decide (is_Some (digit_of c)) && all_digits s'
  | EmptyString => true
  end.

Definition integer_text (s : string) : bool :=
  match s with
  | String "-" s' | String "+" s' => negb (String.eqb s' "") && all_digits s'
  | _ => negb (String.eqb s "") && all_digits s
  end.

End Conv.

(** [std::getenv]: the value of a variable, if it is set. *)
Definition environment : Type := string -> option string.

(* ===================================================================== *)
(** * The epoch scheduler *)
(* ===================================================================== *)

(** The scheduler's globals are shared by the scheduler thread, the worker
    threads inside [scheduler_request] and the thread that calls
    [scheduler_shutdown].  An execution is an interleaving of the threads'
    moves.  A move is one critical section of [pending_queue_mutex] or of
    [scheduler_global_mutex], or one access to a [TrxWaitInfo]: the test
    of [is_ready], the write of [is_ready], a notify, blocking on the
    condition variable, the destruction.  The accesses to a waiter are kept
    apart because the source does not make them one critical section: the
    scheduler thread calls [cv.notify_one()] after it has released the
    waiter's [mtx], and the shutdown sweep writes [is_ready] and notifies
    without taking [mtx] at all.

    [cv.wait(lock, pred)] is [while (!pred()) wait(lock);]: the thread
    tests [is_ready] under [mtx]; when the flag is down it gives up [mtx]
    and blocks in one atomic move, and it runs again when it is notified
    or when the wait ends spuriously, as the C++ standard allows.

    A move that touches a waiter which has been destroyed is undefined
    behaviour and has no next state.

    The source tree holds two revisions of the epoch scheduler that differ
    in who owns a [TrxWaitInfo]: in [src/scheduler.cpp] the map holds
    [std::unique_ptr<TrxWaitInfo>], in the revised file the map holds raw
    pointers and the requesting thread calls [new] and [delete].  The
    revised file also asserts that a popped id has a waiter; the build
    defines no [NDEBUG], so a failed [assert] aborts the process. *)
Module Sched.

Inductive Revision :=
  | MapOwnsWaiter      (* unordered_map<uint64_t, std::unique_ptr<TrxWaitInfo>> *)
  | WorkerOwnsWaiter.  (* unordered_map<uint64_t, TrxWaitInfo*>, new/delete in scheduler_request *)

Inductive EpochState := COLLECTING | DRAINING.

(** [struct TrxWaitInfo]: [mtx] and [cv] are what the moves synchronise
    on; the data is the flag. *)
Record TrxWaitInfo := { is_ready : bool }.

Inductive thread :=
  | SchedulerThread
  | HostThread (t : nat).

(** Where the scheduler thread stands in [trx_scheduler_run]. *)
Inductive sched_pc :=
  | SNoThread                                 (* no thread: never started, or joined *)
  | SLoop                                     (* at [while (scheduler_running.load())] *)
  | SSleep                                    (* COLLECTING: in [sleep_for], pending mutex not yet taken *)
  | SDrain                                    (* DRAINING: global mutex not yet taken *)
  | SCollected (local_pending : list TrxPriority)  (* FIFO swapped out, global mutex not yet taken *)
  | SSignal (id : N) (w : N)                  (* map entry erased, global mutex released *)
  | SNotify (id : N) (w : N)                  (* [is_ready] written, [mtx] released *)
  | SDestroy (w : N)                          (* notified; the owning pointer goes out of scope *)
  | SExited                                   (* [trx_scheduler_run] returned, not yet joined *)
  | SAborted.                                 (* [assert(false && ...)] failed: [abort()] *)

(** Where a host thread stands in [scheduler_request]. *)
Inductive worker_pc :=
  | WPush (id : N) (w : N) (p : Z)   (* waiter allocated, priority drawn *)
  | WRegister (id : N) (w : N)       (* entry pushed to [pending_requests] *)
  | WWait (id : N) (w : N)           (* waiter in [trx_wait_map]; in [cv.wait], about to take
                                        [mtx] and test [is_ready] *)
  | WChecked (id : N) (w : N)        (* [is_ready] found false; holds [mtx], about to block *)
  | WBlocked (id : N) (w : N)        (* blocked on [cv]; [mtx] given up *)
  | WWoken (id : N) (w : N).         (* [cv.wait] returned *)

(** Where the thread stands that sweeps the map in [scheduler_shutdown];
    it holds [scheduler_global_mutex]. *)
Inductive sweep_pc :=
  | HWrite (todo : list (N * N))            (* at the head of the loop body, or at [clear()] *)
  | HNotify (w : N) (todo : list (N * N)).  (* [is_ready] written; about to [notify_all] *)

Inductive event :=
  | EvNew (t : nat) (id : N) (w : N)          (* scheduler_request(id) entered, waiter [w] allocated *)
  | EvPush (t : nat) (e : TrxPriority)        (* pending_requests.push(e) *)
  | EvRegister (t : nat) (id : N) (w : N)     (* trx_wait_map[id] = w *)
  | EvSwap (batch : list TrxPriority)         (* local_pending.swap(pending_requests) *)
  | EvCollect (batch : list TrxPriority)      (* batch moved to scheduler_queue, state := DRAINING *)
  | EvDrained                                 (* queue found empty, state := COLLECTING *)
  | EvPop (e : TrxPriority)                   (* scheduler_queue.top(); pop() *)
  | EvNoWaiter (id : N)                       (* the else branch: no entry in trx_wait_map *)
  | EvRelease (by_ : thread) (id : N) (w : N) (* is_ready = true *)
  | EvNotify (by_ : thread) (w : N)           (* cv.notify_one() or cv.notify_all() *)
  | EvObserve (t : nat) (w : N)               (* is_ready found true: cv.wait returns in thread t *)
  | EvDestroy (by_ : thread) (w : N)          (* the TrxWaitInfo is destroyed *)
  | EvReturn (t : nat) (id : N).              (* scheduler_request returned *)

Record state := {
  g_epoch_state : EpochState;
  EPOCH_DURATION_MS : Z;
  scheduler_running : bool;
  scheduler_thread : sched_pc;
  joining : option nat;            (* the thread blocked in [scheduler_thread.join()] *)
  sweeping : option (nat * sweep_pc);    (* the thread past [join], holding the global mutex *)
  pending_requests : list TrxPriority;   (* std::queue: front at the head *)
  trx_wait_map : gmap N N;         (* lib_id -> address of the TrxWaitInfo *)
  scheduler_queue : list TrxPriority;    (* the priority queue's vector *)
  rng : Z * nat;                   (* the seed last given to [rng.seed], draws since *)
  waiters : gmap N TrxWaitInfo;    (* the live TrxWaitInfo objects, by address *)
  workers : gmap nat worker_pc;    (* the threads inside scheduler_request *)
  trace : list event               (* what happened, oldest first *)
}.

(** The globals as their initialisers leave them.  A default-constructed
    [std::mt19937] is seeded with 5489. *)
Definition initial : state := {|
  g_epoch_state := COLLECTING;
  EPOCH_DURATION_MS := 5;
  scheduler_running := false;
  scheduler_thread := SNoThread;
  joining := None;
  sweeping := None;
  pending_requests := [];
  trx_wait_map := ∅;
  scheduler_queue := [];
  rng := (5489%Z, 0);
  waiters := ∅;
  workers := ∅;
  trace := []
|}.

Definition set_epoch (x : EpochState) (s : state) : state :=
  {| g_epoch_state := x; EPOCH_DURATION_MS := EPOCH_DURATION_MS s;
     scheduler_running := scheduler_running s; scheduler_thread := scheduler_thread s;
     joining := joining s; sweeping := sweeping s; pending_requests := pending_requests s;
     trx_wait_map := trx_wait_map s; scheduler_queue := scheduler_queue s;
     rng := rng s; waiters := waiters s; workers := workers s; trace := trace s |}.

Definition set_epoch_ms (x : Z) (s : state) : state :=
  {| g_epoch_state := g_epoch_state s; EPOCH_DURATION_MS := x;
     scheduler_running := scheduler_running s; scheduler_thread := scheduler_thread s;
     joining := joining s; sweeping := sweeping s; pending_requests := pending_requests s;
     trx_wait_map := trx_wait_map s; scheduler_queue := scheduler_queue s;
     rng := rng s; waiters := waiters s; workers := workers s; trace := trace s |}.

Definition set_running (x : bool) (s : state) : state :=
  {| g_epoch_state := g_epoch_state s; EPOCH_DURATION_MS := EPOCH_DURATION_MS s;
     scheduler_running := x; scheduler_thread := scheduler_thread s;
     joining := joining s; sweeping := sweeping s; pending_requests := pending_requests s;
     trx_wait_map := trx_wait_map s; scheduler_queue := scheduler_queue s;
     rng := rng s; waiters := waiters s; workers := workers s; trace := trace s |}.

Definition set_thread (x : sched_pc) (s : state) : state :=
  {| g_epoch_state := g_epoch_state s; EPOCH_DURATION_MS := EPOCH_DURATION_MS s;
     scheduler_running := scheduler_running s; scheduler_thread := x;
     joining := joining s; sweeping := sweeping s; pending_requests := pending_requests s;
     trx_wait_map := trx_wait_map s; scheduler_queue := scheduler_queue s;
     rng := rng s; waiters := waiters s; workers := workers s; trace := trace s |}.

Definition set_joining (x : option nat) (s : state) : state :=
  {| g_epoch_state := g_epoch_state s; EPOCH_DURATION_MS := EPOCH_DURATION_MS s;
     scheduler_running := scheduler_running s; scheduler_thread := scheduler_thread s;
     joining := x; sweeping := sweeping s; pending_requests := pending_requests s;
     trx_wait_map := trx_wait_map s; scheduler_queue := scheduler_queue s;
     rng := rng s; waiters := waiters s; workers := workers s; trace := trace s |}.

Definition set_sweeping (x : option (nat * sweep_pc)) (s : state) : state :=
  {| g_epoch_state := g_epoch_state s; EPOCH_DURATION_MS := EPOCH_DURATION_MS s;
     scheduler_running := scheduler_running s; scheduler_thread := scheduler_thread s;
     joining := joining s; sweeping := x; pending_requests := pending_requests s;
     trx_wait_map := trx_wait_map s; scheduler_queue := scheduler_queue s;
     rng := rng s; waiters := waiters s; workers := workers s; trace := trace s |}.

Definition set_pending (x : list TrxPriority) (s : state) : state :=
  {| g_epoch_state := g_epoch_state s; EPOCH_DURATION_MS := EPOCH_DURATION_MS s;
     scheduler_running := scheduler_running s; scheduler_thread := scheduler_thread s;
     joining := joining s; sweeping := sweeping s; pending_requests := x;
     trx_wait_map := trx_wait_map s; scheduler_queue := scheduler_queue s;
     rng := rng s; waiters := waiters s; workers := workers s; trace := trace s |}.

Definition set_wait_map (x : gmap N N) (s : state) : state :=
  {| g_epoch_state := g_epoch_state s; EPOCH_DURATION_MS := EPOCH_DURATION_MS s;
     scheduler_running := scheduler_running s; scheduler_thread := scheduler_thread s;
     joining := joining s; sweeping := sweeping s; pending_requests := pending_requests s;
     trx_wait_map := x; scheduler_queue := scheduler_queue s;
     rng := rng s; waiters := waiters s; workers := workers s; trace := trace s |}.

Definition set_queue (x : list TrxPriority) (s : state) : state :=
  {| g_epoch_state := g_epoch_state s; EPOCH_DURATION_MS := EPOCH_DURATION_MS s;
     scheduler_running := scheduler_running s; scheduler_thread := scheduler_thread s;
     joining := joining s; sweeping := sweeping s; pending_requests := pending_requests s;
     trx_wait_map := trx_wait_map s; scheduler_queue := x;
     rng := rng s; waiters := waiters s; workers := workers s; trace := trace s |}.

Definition set_rng (x : Z * nat) (s : state) : state :=
  {| g_epoch_state := g_epoch_state s; EPOCH_DURATION_MS := EPOCH_DURATION_MS s;
     scheduler_running := scheduler_running s; scheduler_thread := scheduler_thread s;
     joining := joining s; sweeping := sweeping s; pending_requests := pending_requests s;
     trx_wait_map := trx_wait_map s; scheduler_queue := scheduler_queue s;
     rng := x; waiters := waiters s; workers := workers s; trace := trace s |}.

Definition set_waiters (x : gmap N TrxWaitInfo) (s : state) : state :=
  {| g_epoch_state := g_epoch_state s; EPOCH_DURATION_MS := EPOCH_DURATION_MS s;
     scheduler_running := scheduler_running s; scheduler_thread := scheduler_thread s;
     joining := joining s; sweeping := sweeping s; pending_requests := pending_requests s;
     trx_wait_map := trx_wait_map s; scheduler_queue := scheduler_queue s;
     rng := rng s; waiters := x; workers := workers s; trace := trace s |}.

Definition set_workers (x : gmap nat worker_pc) (s : state) : state :=
  {| g_epoch_state := g_epoch_state s; EPOCH_DURATION_MS := EPOCH_DURATION_MS s;
     scheduler_running := scheduler_running s; scheduler_thread := scheduler_thread s;
     joining := joining s; sweeping := sweeping s; pending_requests := pending_requests s;
     trx_wait_map := trx_wait_map s; scheduler_queue := scheduler_queue s;
     rng := rng s; waiters := waiters s; workers := x; trace := trace s |}.

(** Appends to the trace. *)
Definition emit (evs : list event) (s : state) : state :=
  {| g_epoch_state := g_epoch_state s; EPOCH_DURATION_MS := EPOCH_DURATION_MS s;
     scheduler_running := scheduler_running s; scheduler_thread := scheduler_thread s;
     joining := joining s; sweeping := sweeping s; pending_requests := pending_requests s;
     trx_wait_map := trx_wait_map s; scheduler_queue := scheduler_queue s;
     rng := rng s; waiters := waiters s; workers := workers s; trace := trace s ++ evs |}.

(** [is_ready = true] on the waiter at address [w]. *)
Definition signal (w : N) (s : state) : state :=
  set_waiters (alter (fun _ => {| is_ready := true |}) w (waiters s)) s.

(** [delete] of the waiter at [w], by thread [by_]. *)
Definition destroy (by_ : thread) (w : N) (s : state) : state :=
  emit [EvDestroy by_ w] (set_waiters (delete w (waiters s)) s).

(** The waiter whose [mtx] a thread holds from one move to the next: a
    thread that has found the flag down keeps [mtx] until it blocks. *)
Definition holds_mtx (pc : worker_pc) : option N :=
  match pc with WChecked _ w => Some w | _ => None end.

(** Nobody holds the [mtx] of the waiter at [w]. *)
Definition mtx_free (w : N) (s : state) : bool :=
  bool_decide (map_Forall (fun _ pc => holds_mtx pc <> Some w) (workers s)).

(** Nobody holds [scheduler_global_mutex]: every critical section of it
    but the sweep of [scheduler_shutdown] is a single move. *)
Definition global_mutex_free (s : state) : bool :=
  match sweeping s with None => true | Some _ => false end.

(** A thread blocked on the condition variable of [w] runs again. *)
Definition wake (w : N) (pc : worker_pc) : worker_pc :=
  match pc with
  | WBlocked id w' => if bool_decide (w' = w) then WWait id w' else pc
  | _ => pc
  end.

(** [cv.notify_all()] on the waiter at [w]. *)
Definition wake_all (w : N) (W : gmap nat worker_pc) : gmap nat worker_pc := wake w <$> W.

(** The threads blocked on the condition variable of [w]. *)
Definition blocked_on (w : N) (W : gmap nat worker_pc) : list nat :=
  omap (fun x : nat * worker_pc =>
          match x.2 with
          | WBlocked _ w' => if bool_decide (w' = w) then Some x.1 else None
          | _ => None
          end) (map_to_list W).

(** [cv.notify_one()] on the waiter at [w]: one of the blocked threads
    runs again; which one is up to the implementation, the model takes the
    first in the order of [map_to_list]. *)
Definition wake_one (w : N) (W : gmap nat worker_pc) : gmap nat worker_pc :=
  match blocked_on w W with
  | t :: _ => alter (wake w) t W
  | [] => W
  end.

(** What a notify on the waiter at [w] does to the threads: each keeps
    its place, or it was blocked on [w] and runs again. *)
Definition wakes (w : N) (W W' : gmap nat worker_pc) : Prop :=
  forall t, W' !! t = W !! t \/
            exists id, W !! t = Some (WBlocked id w) /\ W' !! t = Some (WWait id w).

(** [init_rng]: [int seed = 42;] overwritten when [RANDOM_SEED] is set and
    [std::stoi] does not throw; then [rng.seed(seed)]. *)
Definition init_rng (env : environment) (s : state) : state :=
  let seed :=
    match env "RANDOM_SEED"%string with
    | Some seed_str => match Conv.stoi seed_str with Some v => v | None => 42%Z end
    | None => 42%Z
    end in
  set_rng (seed, 0) s.

(** The [ISOFUZZ_EPOCH_MS] block of [scheduler_init]: the global is
    assigned only when [std::stol] does not throw and [ms > 0]. *)
Definition read_epoch_ms (env : environment) (s : state) : state :=
  match env "ISOFUZZ_EPOCH_MS"%string with
  | Some epoch_ms_str =>
      match Conv.stol epoch_ms_str with
      | Some ms => if bool_decide (0 < ms)%Z then set_epoch_ms ms s else s
      | None => s
      end
  | None => s
  end.

(** [scheduler_init].  [scheduler_running.exchange(true)] guards the body.
    Assigning a new [std::thread] to [scheduler_thread] while the previous
    one is still joinable calls [std::terminate]: there is no next state. *)
Definition scheduler_init (env : environment) (s : state) : option state :=
  if scheduler_running s then Some s
  else
    match scheduler_thread s with
    | SNoThread =>
        Some (set_thread SLoop (init_rng env (read_epoch_ms env (set_running true s))))
    | _ => None
    end.

(** [scheduler_shutdown] up to the call of [join]:
    [if (scheduler_running.exchange(false))] and the notify. *)
Definition shutdown_enter (t : nat) (s : state) : option state :=
  if scheduler_running s then Some (set_joining (Some t) (set_running false s))
  else Some s.

(** [scheduler_shutdown]: [join] returns and the thread takes
    [scheduler_global_mutex].  Nobody else can change the map while it
    holds the mutex, so the entries the loop will visit are those of the
    map now; the iteration order of the unordered map is the order of
    [map_to_list]. *)
Definition shutdown_join (s : state) : option state :=
  match joining s, scheduler_thread s, sweeping s with
  | Some t, SExited, None =>
      Some (set_sweeping (Some (t, HWrite (map_to_list (trx_wait_map s))))
              (set_joining None (set_thread SNoThread s)))
  | _, _, _ => None
  end.

(** One move of the thread that sweeps the map:
    [pair.second->is_ready = true], without the waiter's [mtx];
    [pair.second->cv.notify_all()]; and after the loop
    [trx_wait_map.clear()], which destroys the waiters in the revision
    where the map owns them, and the end of the critical section. *)
Definition sweep_step (rev : Revision) (s : state) : option state :=
  match sweeping s with
  | Some (t, HWrite ((id, w) :: todo)) =>
      match waiters s !! w with
      | Some _ =>
          Some (set_sweeping (Some (t, HNotify w todo))
                  (emit [EvRelease (HostThread t) id w] (signal w s)))
      | None => None
      end
  | Some (t, HNotify w todo) =>
      match waiters s !! w with
      | Some _ =>
          Some (set_sweeping (Some (t, HWrite todo))
                  (emit [EvNotify (HostThread t) w]
                     (set_workers (wake_all w (workers s)) s)))
      | None => None
      end
  | Some (t, HWrite []) =>
      let s1 :=
        match rev with
        | MapOwnsWaiter =>
            foldl (fun s (e : N * N) => destroy (HostThread t) e.2 s) s
                  (map_to_list (trx_wait_map s))
        | WorkerOwnsWaiter => s
        end in
      Some (set_sweeping None (set_wait_map ∅ s1))
  | None => None
  end.

(** The sweep from one of its moves to its end, when no other thread
    moves meanwhile. *)
Fixpoint sweep_run (rev : Revision) (fuel : nat) (s : state) : option state :=
  match sweeping s, fuel with
  | None, _ => Some s
  | Some _, S fuel' => s' ← sweep_step rev s; sweep_run rev fuel' s'
  | Some _, O => None
  end.

(** [scheduler_shutdown] from the return of [join] to its end, when no
    other thread moves meanwhile: two moves for every entry of the map and
    one for [clear()]. *)
Definition shutdown_finish (rev : Revision) (s : state) : option state :=
  s1 ← shutdown_join s; sweep_run rev (2 * size (trx_wait_map s) + 1) s1.

(** One move of [trx_scheduler_run]. *)
Definition scheduler_step (rev : Revision) (s : state) : option state :=
  match scheduler_thread s with
  | SLoop =>
      if negb (scheduler_running s) then Some (set_thread SExited s)
      else
        match g_epoch_state s with
        | COLLECTING => Some (set_thread SSleep s)
        | DRAINING => Some (set_thread SDrain s)
        end
  | SSleep =>
      (* sleep_for(EPOCH_DURATION_MS) is over; under pending_queue_mutex *)
      match pending_requests s with
      | [] => Some (set_thread SLoop s)
      | batch => Some (emit [EvSwap batch] (set_thread (SCollected batch) (set_pending [] s)))
      end
  | SCollected local_pending =>
      (* under scheduler_global_mutex *)
      if global_mutex_free s then
        Some (emit [EvCollect local_pending]
                (set_thread SLoop
                   (set_epoch DRAINING
                      (set_queue (PQ.push_all local_pending (scheduler_queue s)) s))))
      else None
  | SDrain =>
      (* under scheduler_global_mutex; [scheduler_queue.empty()] is [top = None] *)
      if global_mutex_free s then
        match PQ.top (scheduler_queue s) with
        | None => Some (emit [EvDrained] (set_thread SLoop (set_epoch COLLECTING s)))
        | Some e =>
            let next_trx_id := e.2 in
            let s1 := emit [EvPop e] (set_queue (PQ.pop (scheduler_queue s)) s) in
            match trx_wait_map s !! next_trx_id with
            | Some w =>
                Some (set_thread (SSignal next_trx_id w)
                        (set_wait_map (delete next_trx_id (trx_wait_map s)) s1))
            | None =>
                (* [src/scheduler.cpp] unlocks and goes on; the revised file asserts *)
                Some (emit [EvNoWaiter next_trx_id]
                        (set_thread
                           match rev with MapOwnsWaiter => SLoop | WorkerOwnsWaiter => SAborted end
                           s1))
            end
        end
      else None
  | SSignal id w =>
      (* unique_lock trx_lock(wait_info_ptr->mtx); is_ready = true; trx_lock.unlock() *)
      match waiters s !! w with
      | Some _ =>
          if mtx_free w s then
            Some (set_thread (SNotify id w) (emit [EvRelease SchedulerThread id w] (signal w s)))
          else None
      | None => None
      end
  | SNotify id w =>
      (* wait_info_ptr->cv.notify_one() *)
      match waiters s !! w with
      | Some _ =>
          Some (set_thread
                  match rev with MapOwnsWaiter => SDestroy w | WorkerOwnsWaiter => SLoop end
                  (emit [EvNotify SchedulerThread w]
                     (set_workers (wake_one w (workers s)) s)))
      | None => None
      end
  | SDestroy w =>
      (* [wait_info_ptr], a unique_ptr, leaves its scope *)
      Some (set_thread SLoop (destroy SchedulerThread w s))
  | SNoThread | SExited | SAborted => None
  end.

(** Entry into [scheduler_request(id)] by thread [t]: the waiter is
    allocated at the address [w] the allocator picks, and
    [get_random_priority()] yields [p], which
    [uniform_int_distribution<int>(0, 1000000)] keeps in range. *)
Definition request_enter (t : nat) (id : N) (p : Z) (w : N) (s : state) : option state :=
  if bool_decide (workers s !! t = None /\ waiters s !! w = None /\ w <> 0%N
                  /\ (0 <= p <= 1000000)%Z)
  then
    Some (emit [EvNew t id w]
            (set_workers (<[t := WPush id w p]> (workers s))
               (set_waiters (<[w := {| is_ready := false |}]> (waiters s))
                  (set_rng ((rng s).1, S (rng s).2) s))))
  else None.

(** One move of thread [t] inside [scheduler_request]. *)
Definition worker_step (rev : Revision) (t : nat) (s : state) : option state :=
  match workers s !! t with
  | Some (WPush id w p) =>
      (* under pending_queue_mutex *)
      Some (emit [EvPush t (p, id)]
              (set_workers (<[t := WRegister id w]> (workers s))
                 (set_pending (pending_requests s ++ [(p, id)]) s)))
  | Some (WRegister id w) =>
      (* under scheduler_global_mutex; assigning over an owning pointer
         destroys what it held *)
      if global_mutex_free s then
        let s1 :=
          match rev, trx_wait_map s !! id with
          | MapOwnsWaiter, Some old => destroy (HostThread t) old s
          | _, _ => s
          end in
        Some (emit [EvRegister t id w]
                (set_workers (<[t := WWait id w]> (workers s))
                   (set_wait_map (<[id := w]> (trx_wait_map s1)) s1)))
      else None
  | Some (WWait id w) =>
      (* under the waiter's mtx: the test of the predicate of cv.wait *)
      match waiters s !! w with
      | Some x =>
          if mtx_free w s then
            if is_ready x
            then Some (emit [EvObserve t w] (set_workers (<[t := WWoken id w]> (workers s)) s))
            else Some (set_workers (<[t := WChecked id w]> (workers s)) s)
          else None
      | None => None
      end
  | Some (WChecked id w) =>
      (* wait(lock): mtx is given up and the thread blocks, in one move *)
      match waiters s !! w with
      | Some _ => Some (set_workers (<[t := WBlocked id w]> (workers s)) s)
      | None => None
      end
  | Some (WBlocked id w) => None
  | Some (WWoken id w) =>
      let s1 :=
        match rev with
        | WorkerOwnsWaiter => destroy (HostThread t) w s   (* delete wait_info_ptr *)
        | MapOwnsWaiter => s
        end in
      Some (emit [EvReturn t id] (set_workers (delete t (workers s1)) s1))
  | None => None
  end.

(** The wait of thread [t] ends without a notify. *)
Definition spurious_wakeup (t : nat) (s : state) : option state :=
  match workers s !! t with
  | Some (WBlocked id w) => Some (set_workers (<[t := WWait id w]> (workers s)) s)
  | _ => None
  end.

Inductive action :=
  | AInit (env : environment)                  (* a call of scheduler_init *)
  | AShutdown (t : nat)                        (* thread t calls scheduler_shutdown *)
  | AJoin                                      (* join returns in that thread *)
  | ASweep                                     (* the thread that sweeps the map moves *)
  | ASched                                     (* the scheduler thread moves *)
  | ARequest (t : nat) (id : N) (p : Z) (w : N)  (* thread t calls scheduler_request(id) *)
  | AWorker (t : nat)                          (* thread t moves inside scheduler_request *)
  | ASpurious (t : nat).                       (* the wait of thread t ends spuriously *)

(** What a move of a thread does. *)
Definition move (rev : Revision) (a : action) (s : state) : option state :=
  match a with
  | AInit env => scheduler_init env s
  | AShutdown t => shutdown_enter t s
  | AJoin => shutdown_join s
  | ASweep => sweep_step rev s
  | ASched => scheduler_step rev s
  | ARequest t id p w => request_enter t id p w s
  | AWorker t => worker_step rev t s
  | ASpurious t => spurious_wakeup t s
  end.

(** The process has been aborted by a failed [assert]. *)
Definition aborted (s : state) : bool :=
  match scheduler_thread s with SAborted => true | _ => false end.

(** In an aborted process no thread moves. *)
Definition step (rev : Revision) (a : action) (s : state) : option state :=
  if aborted s then None else move rev a s.

Fixpoint run (rev : Revision) (acts : list action) (s : state) : option state :=
  match acts with
  | [] => Some s
  | a :: acts' => s' ← step rev a s; run rev acts' s'
  end.

Inductive reachable (rev : Revision) : state -> Prop :=
  | reachable_initial : reachable rev initial
  | reachable_step s a s' : reachable rev s -> step rev a s = Some s' -> reachable rev s'.

(** The waiter and the id of a thread that is inside [cv.wait]. *)
Definition waits_on (pc : worker_pc) : option (N * N) :=
  match pc with
  | WWait id w | WChecked id w | WBlocked id w => Some (id, w)
  | _ => None
  end.

(** Thread [t] is parked in [cv.wait] on a waiter whose flag is down. *)
Definition parked (t : nat) (s : state) : Prop :=
  exists pc id w, workers s !! t = Some pc /\ waits_on pc = Some (id, w) /\
                  waiters s !! w = Some {| is_ready := false |}.

(** ** Reading a trace *)

(** The entries popped from the priority queue, in order. *)
Definition pops (t : list event) : list TrxPriority :=
  omap (fun e => match e with EvPop x => Some x | _ => None end) t.

(** The batches moved into the priority queue, in order. *)
Definition batches (t : list event) : list (list TrxPriority) :=
  omap (fun e => match e with EvCollect b => Some b | _ => None end) t.

(** The entries pushed to the pending FIFO, in order. *)
Definition pushes (t : list event) : list TrxPriority :=
  omap (fun e => match e with EvPush _ x => Some x | _ => None end) t.

(** The batches swapped out of the pending FIFO, in order. *)
Definition swaps (t : list event) : list (list TrxPriority) :=
  omap (fun e => match e with EvSwap b => Some b | _ => None end) t.



(** [b] was swapped out at the end of [t1] or shortly before, with no other
    swap and no batch moved in since, and it is exactly what had been
    pushed before that swap and not swapped out earlier. *)
Definition swapped_last (b : list TrxPriority) (t1 : list event) : Prop :=
  exists t0 t0', t1 = t0 ++ EvSwap b :: t0' /\
                 pushes t0 = concat (swaps t0) ++ b /\
                 swaps t0' = [] /\ batches t0' = [].


(** What a step does to the pending FIFO and to the scheduler thread's
    local copy of it. *)
Inductive fifo_move (s s' : state) : Prop :=
  | fifo_other evs :
      pending_requests s' = pending_requests s ->
      trace s' = trace s ++ evs ->
      pushes evs = [] -> swaps evs = [] -> batches evs = [] ->
      (forall b, scheduler_thread s' = SCollected b -> scheduler_thread s = SCollected b) ->
      fifo_move s s'
  | fifo_push t e :
      pending_requests s' = pending_requests s ++ [e] ->
      trace s' = trace s ++ [EvPush t e] ->
      scheduler_thread s' = scheduler_thread s ->
      fifo_move s s'
  | fifo_swap b :
      pending_requests s = b -> pending_requests s' = [] ->
      trace s' = trace s ++ [EvSwap b] ->
      scheduler_thread s' = SCollected b ->
      fifo_move s s'
  | fifo_collect b :
      scheduler_thread s = SCollected b ->
      pending_requests s' = pending_requests s ->
      trace s' = trace s ++ [EvCollect b] ->
      scheduler_thread s' = SLoop ->
      fifo_move s s'.

(** The invariant of the pending FIFO: what was pushed is what was swapped
    out, in order, followed by what is still pending; and a batch the
    scheduler thread holds is the one it swapped out last. *)
Definition fifo_inv (s : state) : Prop :=
  pushes (trace s) = concat (swaps (trace s)) ++ pending_requests s /\
  (forall b, scheduler_thread s = SCollected b -> swapped_last b (trace s)).

(** The last batch moved into the queue and the entries popped since. *)
Definition scan (acc : option (list TrxPriority * list TrxPriority)) (e : event)
    : option (list TrxPriority * list TrxPriority) :=
  match e with
  | EvCollect b => Some (b, [])
  | EvPop x => match acc with Some (b, ps) => Some (b, ps ++ [x]) | None => None end
  | _ => acc
  end.

Definition last_batch (t : list event) : option (list TrxPriority * list TrxPriority) :=
  foldl scan None t.

(** The waiters destroyed, with the thread that destroyed each. *)
Definition destroys (t : list event) : list (thread * N) :=
  omap (fun e => match e with EvDestroy by_ w => Some (by_, w) | _ => None end) t.

(** A thread that has left [cv.wait] has observed its waiter's flag; and
    the scheduler thread holds no owning pointer to drop. *)
Definition woken_inv (s : state) : Prop :=
  (forall t id w, workers s !! t = Some (WWoken id w) -> EvObserve t w ∈ trace s) /\
  (forall w, scheduler_thread s <> SDestroy w).

(** Nothing is left that could raise a flag: the scheduler is stopped and
    joined, [scheduler_shutdown] has returned, no flag is up, no thread is
    on its way out of [scheduler_request]. *)
Definition abandoned (s : state) : Prop :=
  scheduler_running s = false /\ scheduler_thread s = SNoThread /\ joining s = None /\
  sweeping s = None /\
  (forall w x, waiters s !! w = Some x -> is_ready x = false) /\
  (forall t id w, workers s !! t <> Some (WWoken id w)).

Definition is_init (a : action) : Prop :=
  match a with AInit _ => True | _ => False end.


(** What a step does to the priority queue, the epoch state and the
    trace: nothing that concerns the queue, or one of the three moves of
    the scheduler thread. *)
Inductive queue_move (s s' : state) : Prop :=
  | move_other evs :
      scheduler_queue s' = scheduler_queue s -> g_epoch_state s' = g_epoch_state s ->
      trace s' = trace s ++ evs -> pops evs = [] -> batches evs = [] ->
      queue_move s s'
  | move_collect b :
      scheduler_thread s = SCollected b ->
      scheduler_queue s' = PQ.push_all b (scheduler_queue s) ->
      g_epoch_state s' = DRAINING ->
      trace s' = trace s ++ [EvCollect b] ->
      queue_move s s'
  | move_pop e evs :
      PQ.top (scheduler_queue s) = Some e ->
      scheduler_queue s' = PQ.pop (scheduler_queue s) ->
      g_epoch_state s' = g_epoch_state s ->
      trace s' = trace s ++ EvPop e :: evs -> pops evs = [] -> batches evs = [] ->
      queue_move s s'
  | move_drained :
      PQ.top (scheduler_queue s) = None ->
      scheduler_queue s' = scheduler_queue s ->
      g_epoch_state s' = COLLECTING ->
      trace s' = trace s ++ [EvDrained] ->
      queue_move s s'.

(** While the scheduler thread is between the test of the epoch state and
    the end of the COLLECTING branch, the state is COLLECTING. *)
Definition pc_inv (s : state) : Prop :=
  match scheduler_thread s with
  | SSleep | SCollected _ => g_epoch_state s = COLLECTING
  | _ => True
  end.

(** The invariant of the priority queue: it is a heap, it is empty while
    the state is COLLECTING, it holds what was moved in and not yet
    popped, and the entries popped since the last batch was moved in are
    the head of that batch's release order. *)
Definition queue_inv (s : state) : Prop :=
  PQ.heap (scheduler_queue s) /\
  (g_epoch_state s = COLLECTING -> scheduler_queue s = []) /\
  concat (batches (trace s)) ≡ₚ pops (trace s) ++ scheduler_queue s /\
  match last_batch (trace s) with
  | Some (b, ps) => PQ.release_order b = ps ++ PQ.drain (scheduler_queue s)
  | None => scheduler_queue s = []
  end.



End Sched.

(* ===================================================================== *)
(** * The log sink *)
(* ===================================================================== *)

(** [src/logger.cpp].  Every function holds [g_file_lock] for its whole
    body, so each is one atomic state change. *)
Module Logger.

(** What [g_out_ptr] points to. *)
Inductive ostream := Cout | Cerr | GFile.

(** The file system as [std::ofstream::open] sees it: a path text leads
    to a file, named here by its canonical path, or to none when the open
    fails.  Two texts can lead to one file. *)
Definition file_system : Type := string -> option string.

Record state := {
  g_file : option string;               (* the file [g_file] has open, if it is open *)
  g_out_ptr : ostream;
  cout : list string;                   (* lines written to standard output *)
  cerr : list string;                   (* lines written to standard error *)
  files : gmap string (list string)     (* lines of the files on disk, by canonical path *)
}.

(** [g_file] closed, [g_out_ptr = &std::cout]. *)
Definition initial : state :=
  {| g_file := None; g_out_ptr := Cout; cout := []; cerr := []; files := ∅ |}.

Definition warning (path : string) : string :=
  ("IsoFuzz WARNING: Could not open OUT_FILE=" ++ path ++ ". Logging to stderr.")%string.

(** [logger_init].  [fs path] is the file that
    [g_file.open(path, std::ios::out | std::ios::app)] opens, or [None]
    when the open fails; opening for append creates a missing file and
    keeps the lines of an existing one.  When [OUT_FILE] is unset the
    stream [g_file] is not touched. *)
Definition logger_init (env : environment) (fs : file_system) (s : state) : state :=
  match env "OUT_FILE"%string with
  | Some path =>
      match fs path with
      | Some f =>
          {| g_file := Some f; g_out_ptr := GFile; cout := cout s; cerr := cerr s;
             files := <[f := default [] (files s !! f)]> (files s) |}
      | None =>
          {| g_file := None; g_out_ptr := Cerr; cout := cout s;
             cerr := cerr s ++ [warning path]; files := files s |}
      end
  | None =>
      {| g_file := g_file s; g_out_ptr := Cout; cout := cout s; cerr := cerr s;
         files := files s |}
  end.

(** [logger_shutdown]: flush and close an open file, [g_out_ptr = &std::cout]. *)
Definition logger_shutdown (s : state) : state :=
  {| g_file := None; g_out_ptr := Cout; cout := cout s; cerr := cerr s; files := files s |}.

(** [logger_log_line]: [*g_out_ptr << line << std::endl].  A write to a
    stream that is not open fails without notice. *)
Definition logger_log_line (line : string) (s : state) : state :=
  match g_out_ptr s with
  | Cout => {| g_file := g_file s; g_out_ptr := g_out_ptr s; cout := cout s ++ [line];
               cerr := cerr s; files := files s |}
  | Cerr => {| g_file := g_file s; g_out_ptr := g_out_ptr s; cout := cout s;
               cerr := cerr s ++ [line]; files := files s |}
  | GFile =>
      match g_file s with
      | Some f =>
          {| g_file := g_file s; g_out_ptr := g_out_ptr s; cout := cout s; cerr := cerr s;
             files := <[f := default [] (files s !! f) ++ [line]]> (files s) |}
      | None => s
      end
  end.

(** The part of the sink that is library state: where the lines go. *)
Definition destination (s : state) : option string * ostream := (g_file s, g_out_ptr s).

(** All the lines written so far to the current destination. *)
Definition written (s : state) : list string :=
  match g_out_ptr s with
  | Cout => cout s
  | Cerr => cerr s
  | GFile => match g_file s with Some f => default [] (files s !! f) | None => [] end
  end.

End Logger.

(* ===================================================================== *)
(** * The registry and the public entry points *)
(* ===================================================================== *)

(** [src/isofuzz_ctx.h] and [src/isofuzz.cpp] (the revision with
    [log_generic_op] and [isofuzz_trx_commit]). *)
Module Lib.

(** [enum class IsoFuzzOpType].  Modelled from the spec: the enumerators
    [TXN_BEGIN] and [TXN_COMMIT], which [isofuzz.cpp] uses and the header
    at hand does not declare.  [OP_OTHER] stands for any value outside the
    enumerators, the [default:] of [op_type_to_string]. *)
Inductive IsoFuzzOpType :=
  | READ | WRITE_UPDATE | WRITE_INSERT | WRITE_DELETE
  | TXN_PROMOTE | TXN_BEGIN | TXN_COMMIT | OP_OTHER.

(** [enum class IsoFuzzSchedulerIntent]. *)
Inductive IsoFuzzSchedulerIntent :=
  | INTENT_TXN_BEGIN | INTENT_TXN_COMMIT | INTENT_TXN_ABORT
  | INTENT_OP_READ | INTENT_OP_WRITE.

(** [struct IsoFuzzObject]; [column_name] can be null. *)
Record IsoFuzzObject := {
  table_name : string;
  column_name : option string;
  row_identifier : N
}.

(** [struct IsoFuzzTrxImpl].  [lib_id] and [thread_id] are [const]
    members; [thread_id] is a [std::thread::id], here the number of the
    thread. *)
Record IsoFuzzTrxImpl := {
  lib_id : N;
  dbms_id : N;
  thread_id : nat
}.

(** [class IsoFuzzContext], with the records its [unique_ptr]s own:
    [records] maps the address of a live [IsoFuzzTrxImpl] to its content.
    A handle [isofuzz_trx_t] is such an address; [0] is [nullptr]. *)
Record IsoFuzzContext := {
  m_transactions : gmap N N;
  next_lib_id : N;
  records : gmap N IsoFuzzTrxImpl
}.

Definition initial_ctx : IsoFuzzContext :=
  {| m_transactions := ∅; next_lib_id := 1; records := ∅ |}.

(** What a call does: it returns, it dereferences a pointer to no live
    record (undefined behaviour), or it does not return at all. *)
Inductive outcome (A : Type) :=
  | Done (a : A)
  | Undefined
  | Stuck.
Arguments Done {A} a.
Arguments Undefined {A}.
Arguments Stuck {A}.

Definition bind {A B} (m : outcome A) (k : A -> outcome B) : outcome B :=
  match m with
  | Done a => k a
  | Undefined => Undefined
  | Stuck => Stuck
  end.

Definition of_option {A} (o : option A) : outcome A :=
  match o with Some a => Done a | None => Stuck end.

(** [operator new] is taken to return the least address that is neither
    null nor live. *)
Definition new_address (live : gmap N IsoFuzzTrxImpl) : N := fresh ({[0%N]} ∪ dom live).

(** [IsoFuzzContext::begin_trx], called by thread [t].  The counter is a
    [uint64_t].  [m_transactions[id] = std::move(trx)] destroys a record
    the map held under the same id. *)
Definition begin_trx (t : nat) (c : IsoFuzzContext) : N * IsoFuzzContext :=
  let id := next_lib_id c in
  let trx_ptr := new_address (records c) in
  let trx := {| lib_id := id; dbms_id := 0; thread_id := t |} in
  let recs := <[trx_ptr := trx]> (records c) in
  let recs' := match m_transactions c !! id with
               | Some old => delete old recs
               | None => recs
               end in
  (trx_ptr, {| m_transactions := <[id := trx_ptr]> (m_transactions c);
               next_lib_id := ((id + 1) mod 2 ^ 64)%N;
               records := recs' |}).

(** [IsoFuzzContext::get_trx]: a null test and a cast. *)
Definition get_trx (handle : N) : option N :=
  if bool_decide (handle = 0%N) then None else Some handle.

(** [IsoFuzzContext::end_trx]: [m_transactions.erase(trx->lib_id)] reads
    the record behind the handle. *)
Definition end_trx (handle : N) (c : IsoFuzzContext) : outcome IsoFuzzContext :=
  if bool_decide (handle = 0%N) then Done c
  else
    match records c !! handle with
    | None => Undefined
    | Some trx =>
        Done {| m_transactions := delete (lib_id trx) (m_transactions c);
                next_lib_id := next_lib_id c;
                records := match m_transactions c !! lib_id trx with
                           | Some owned => delete owned (records c)
                           | None => records c
                           end |}
    end.

Definition op_type_to_string (op_type : IsoFuzzOpType) : string :=
  match op_type with
  | READ => "READ"
  | WRITE_UPDATE => "UPDATE"
  | WRITE_INSERT => "INSERT"
  | WRITE_DELETE => "DELETE"
  | TXN_PROMOTE => "PROMOTE"
  | TXN_BEGIN => "BEGIN"
  | TXN_COMMIT => "COMMIT"
  | OP_OTHER => "UNKNOWN"
  end.

(** [operator<<] on a [uint64_t]. *)
Definition dec (n : N) : string := NilEmpty.string_of_uint (N.to_uint n).

(** [operator<<] on a [std::thread::id]: the text is up to the
    implementation; the model prints the thread's number. *)
Definition show_thread_id (t : nat) : string := dec (N.of_nat t).

Definition tab : string := String (ascii_of_nat 9) EmptyString.

Definition effective_trx_id (trx : IsoFuzzTrxImpl) : N :=
  if bool_decide (dbms_id trx = 0%N) then lib_id trx else dbms_id trx.

(** The seven fields [log_generic_op] streams, each but the last followed
    by a tab. *)
Definition log_fields (trx : IsoFuzzTrxImpl) (op_type : IsoFuzzOpType)
    (object : option IsoFuzzObject) (last_writer_trx_id : N) : list string :=
  [ show_thread_id (thread_id trx); dec (effective_trx_id trx); op_type_to_string op_type ]
  ++ match object with
     | Some o => [ table_name o; default "N/A"%string (column_name o); dec (row_identifier o) ]
     | None => [ "N/A"; "N/A"; "N/A" ]%string
     end
  ++ [ match op_type with
       | TXN_PROMOTE => dec last_writer_trx_id
       | READ | WRITE_UPDATE | WRITE_DELETE => dec last_writer_trx_id
       | _ => "0"%string
       end ].

Definition log_line (trx : IsoFuzzTrxImpl) (op_type : IsoFuzzOpType)
    (object : option IsoFuzzObject) (last_writer_trx_id : N) : string :=
  String.concat tab (log_fields trx op_type object last_writer_trx_id).

Record state := {
  ctx : IsoFuzzContext;
  logger : Logger.state;
  sched : Sched.state
}.

Definition initial : state :=
  {| ctx := initial_ctx; logger := Logger.initial; sched := Sched.initial |}.

Definition set_ctx (c : IsoFuzzContext) (s : state) : state :=
  {| ctx := c; logger := logger s; sched := sched s |}.
Definition set_logger (l : Logger.state) (s : state) : state :=
  {| ctx := ctx s; logger := l; sched := sched s |}.
Definition set_sched (x : Sched.state) (s : state) : state :=
  {| ctx := ctx s; logger := logger s; sched := x |}.

(** [log_generic_op], running in thread [t].  The function never asks
    which thread it runs in. *)
Definition log_generic_op (t : nat) (trx_handle : N) (op_type : IsoFuzzOpType)
    (object : option IsoFuzzObject) (last_writer_trx_id : N) (s : state) : outcome state :=
  match get_trx trx_handle with
  | None => Done s
  | Some p =>
      match records (ctx s) !! p with
      | None => Undefined
      | Some trx =>
          Done (set_logger
                  (Logger.logger_log_line (log_line trx op_type object last_writer_trx_id)
                     (logger s)) s)
      end
  end.

(** [isofuzz_init]: [logger_init(); scheduler_init();] *)
Definition isofuzz_init (env : environment) (fs : Logger.file_system) (s : state)
    : outcome state :=
  let s1 := set_logger (Logger.logger_init env fs (logger s)) s in
  bind (of_option (Sched.scheduler_init env (sched s1))) (fun x => Done (set_sched x s1)).

(** [isofuzz_shutdown], first half: [scheduler_shutdown()] up to [join].
    When the scheduler was not running, [scheduler_shutdown] is over and
    [logger_shutdown()] follows at once. *)
Definition isofuzz_shutdown_enter (t : nat) (s : state) : outcome state :=
  if Sched.scheduler_running (sched s) then
    bind (of_option (Sched.shutdown_enter t (sched s))) (fun x => Done (set_sched x s))
  else Done (set_logger (Logger.logger_shutdown (logger s)) s).

(** [isofuzz_shutdown], second half, when no other thread moves
    meanwhile: [join] returns, the waiters are swept, then
    [logger_shutdown()]. *)
Definition isofuzz_shutdown_finish (rev : Sched.Revision) (s : state) : outcome state :=
  bind (of_option (Sched.shutdown_finish rev (sched s)))
       (fun x => Done (set_logger (Logger.logger_shutdown (logger s)) (set_sched x s))).

(** One move of the thread that sweeps the map; the move that ends the
    sweep ends [scheduler_shutdown], and [logger_shutdown()] follows. *)
Definition isofuzz_shutdown_sweep (rev : Sched.Revision) (s : state) : outcome state :=
  bind (of_option (Sched.sweep_step rev (sched s)))
       (fun x =>
          match Sched.sweeping x with
          | Some _ => Done (set_sched x s)
          | None => Done (set_logger (Logger.logger_shutdown (logger s)) (set_sched x s))
          end).

(** The scheduler thread runs until [trx_scheduler_run] returns. *)
Fixpoint run_to_exit (rev : Sched.Revision) (fuel : nat) (x : Sched.state) : option Sched.state :=
  match Sched.scheduler_thread x, fuel with
  | Sched.SExited, _ => Some x
  | _, S fuel' => x' ← Sched.scheduler_step rev x; run_to_exit rev fuel' x'
  | _, O => None
  end.

(** [isofuzz_shutdown] when no other thread moves meanwhile: the scheduler
    thread needs at most five moves to see the flag and return.  The call
    does not return when the scheduler thread cannot move, or when a
    failed assertion aborts the process. *)
Definition isofuzz_shutdown (rev : Sched.Revision) (t : nat) (s : state) : outcome state :=
  if Sched.scheduler_running (sched s) then
    bind (isofuzz_shutdown_enter t s) (fun s1 =>
    bind (of_option (run_to_exit rev 6 (sched s1))) (fun x =>
    isofuzz_shutdown_finish rev (set_sched x s1)))
  else isofuzz_shutdown_enter t s.

(** [isofuzz_trx_begin], called by thread [t]: the handle it returns and
    the state it leaves. *)
Definition isofuzz_trx_begin (t : nat) (s : state) : outcome (N * state) :=
  let '(handle, c) := begin_trx t (ctx s) in
  let s1 := set_ctx c s in
  if bool_decide (handle = 0%N) then Done (0%N, s1)
  else bind (log_generic_op t handle TXN_BEGIN None 0 s1) (fun s2 => Done (handle, s2)).

(** [isofuzz_trx_commit], called by thread [t]. *)
Definition isofuzz_trx_commit (t : nat) (trx_handle : N) (s : state) : outcome state :=
  if bool_decide (trx_handle = 0%N) then Done s
  else log_generic_op t trx_handle TXN_COMMIT None 0 s.

(** [isofuzz_trx_promote], called by thread [t]:
    [trx->dbms_id.store(new_dbms_id)], then
    [log_generic_op(trx_handle, TXN_PROMOTE, nullptr, trx->lib_id)]. *)
Definition isofuzz_trx_promote (t : nat) (trx_handle : N) (new_dbms_id : N) (s : state)
    : outcome state :=
  match get_trx trx_handle with
  | None => Done s
  | Some p =>
      match records (ctx s) !! p with
      | None => Undefined
      | Some trx =>
          let trx' := {| lib_id := lib_id trx; dbms_id := new_dbms_id;
                         thread_id := thread_id trx |} in
          let c := {| m_transactions := m_transactions (ctx s);
                      next_lib_id := next_lib_id (ctx s);
                      records := <[p := trx']> (records (ctx s)) |} in
          log_generic_op t trx_handle TXN_PROMOTE None (lib_id trx') (set_ctx c s)
      end
  end.

(** [isofuzz_trx_end], called by thread [t]. *)
Definition isofuzz_trx_end (t : nat) (trx_handle : N) (s : state) : outcome state :=
  bind (end_trx trx_handle (ctx s)) (fun c => Done (set_ctx c s)).

(** [isofuzz_schedule_op], called by thread [t]: the thread enters
    [scheduler_request(trx->lib_id, intent)], where the allocator gives
    the waiter the address [w] and the generator draws [p]; it returns
    through the steps of [Sched.worker_step]. *)
Definition isofuzz_schedule_op (t : nat) (trx_handle : N) (intent : IsoFuzzSchedulerIntent)
    (p : Z) (w : N) (s : state) : outcome state :=
  match get_trx trx_handle with
  | None => Done s
  | Some ptr =>
      match records (ctx s) !! ptr with
      | None => Undefined
      | Some trx =>
          bind (of_option (Sched.request_enter t (lib_id trx) p w (sched s)))
               (fun x => Done (set_sched x s))
      end
  end.

(** [isofuzz_log_op], called by thread [t]. *)
Definition isofuzz_log_op (t : nat) (trx_handle : N) (op_type : IsoFuzzOpType)
    (object : IsoFuzzObject) (last_writer_trx_id : N) (s : state) : outcome state :=
  log_generic_op t trx_handle op_type (Some object) last_writer_trx_id s.

(** The calls host threads make, and the moves of the threads that are
    inside the library. *)
Inductive call :=
  | CInit (env : environment) (fs : Logger.file_system)
  | CShutdownEnter (t : nat)
  | CShutdownJoin
  | CShutdownSweep
  | CBegin (t : nat)
  | CCommit (t : nat) (h : N)
  | CPromote (t : nat) (h : N) (new_dbms_id : N)
  | CEnd (t : nat) (h : N)
  | CScheduleOp (t : nat) (h : N) (intent : IsoFuzzSchedulerIntent) (p : Z) (w : N)
  | CLogOp (t : nat) (h : N) (op_type : IsoFuzzOpType) (object : IsoFuzzObject) (last_writer : N)
  | CSchedulerThread
  | CWorker (t : nat)
  | CSpurious (t : nat).

(** What a call or a move does. *)
Definition effect (rev : Sched.Revision) (c : call) (s : state) : outcome state :=
  match c with
  | CInit env fs => isofuzz_init env fs s
  | CShutdownEnter t => isofuzz_shutdown_enter t s
  | CShutdownJoin =>
      bind (of_option (Sched.shutdown_join (sched s))) (fun x => Done (set_sched x s))
  | CShutdownSweep => isofuzz_shutdown_sweep rev s
  | CBegin t => bind (isofuzz_trx_begin t s) (fun r => Done r.2)
  | CCommit t h => isofuzz_trx_commit t h s
  | CPromote t h new_dbms_id => isofuzz_trx_promote t h new_dbms_id s
  | CEnd t h => isofuzz_trx_end t h s
  | CScheduleOp t h intent p w => isofuzz_schedule_op t h intent p w s
  | CLogOp t h op_type object last_writer => isofuzz_log_op t h op_type object last_writer s
  | CSchedulerThread =>
      bind (of_option (Sched.scheduler_step rev (sched s))) (fun x => Done (set_sched x s))
  | CWorker t =>
      bind (of_option (Sched.worker_step rev t (sched s))) (fun x => Done (set_sched x s))
  | CSpurious t =>
      bind (of_option (Sched.spurious_wakeup t (sched s))) (fun x => Done (set_sched x s))
  end.

(** In a process that a failed assertion has aborted nothing happens. *)
Definition exec (rev : Sched.Revision) (c : call) (s : state) : outcome state :=
  if Sched.aborted (sched s) then Stuck else effect rev c s.

Fixpoint run (rev : Sched.Revision) (calls : list call) (s : state) : outcome state :=
  match calls with
  | [] => Done s
  | c :: calls' => bind (exec rev c s) (run rev calls')
  end.

(** The library state a caller can tell apart: everything but the text
    that has been written out. *)
Definition observable (s : state)
    : IsoFuzzContext * (option string * Logger.ostream) * Sched.state :=
  (ctx s, Logger.destination (logger s), sched s).

(** A handle is valid when the record behind it is live and is the one
    the registry holds under its [lib_id]. *)
Definition valid_handle (c : IsoFuzzContext) (h : N) : Prop :=
  exists trx, records c !! h = Some trx /\ m_transactions c !! lib_id trx = Some h.

(** The registry's invariant: every live record is owned by the map entry
    of its [lib_id], and the ids in use are below the counter. *)
Definition registry_wf (c : IsoFuzzContext) : Prop :=
  (forall a trx, records c !! a = Some trx -> m_transactions c !! lib_id trx = Some a) /\
  (forall id a, m_transactions c !! id = Some a -> (id < next_lib_id c)%N).

(** Whether a call ends, or promotes, the transaction behind [h]. *)
Definition ends (h : N) (c : call) : Prop :=
  match c with CEnd _ h' => h' = h | _ => False end.

Definition promotes (h : N) (c : call) : Prop :=
  match c with CPromote _ h' _ => h' = h | _ => False end.

End Lib.

(* ===================================================================== *)
(** * Scenarios *)
(* ===================================================================== *)

(** Concrete executions used as examples and as counterexamples. *)
Module Scenario.
Import Sched.

Definition no_env : environment := fun _ => None.

(** [setenv(name, value)]. *)
Definition setenv (name value : string) (env : environment) : environment :=
  fun v => if String.eqb v name then Some value else env v.

(** A file system on which every open succeeds and every path text names
    a file of its own, one on which no open succeeds, and one on which
    [./trace.log] and [trace.log] name the same file. *)
Definition opens_all : Logger.file_system := fun path => Some path.
Definition opens_none : Logger.file_system := fun _ => None.
Definition current_directory : Logger.file_system :=
  fun path => if String.eqb path "./trace.log" then Some "trace.log"%string else Some path.

(** Environments with one variable set. *)
Definition env_seed_12abc : environment := setenv "RANDOM_SEED" "12abc" no_env.
Definition env_epoch_10ms : environment := setenv "ISOFUZZ_EPOCH_MS" "10ms" no_env.
Definition env_epoch_50 : environment := setenv "ISOFUZZ_EPOCH_MS" "50" no_env.
Definition env_out_file : environment := setenv "OUT_FILE" "trace.log" no_env.

Definition sample_object : Lib.IsoFuzzObject :=
  {| Lib.table_name := "t"; Lib.column_name := Some "c"%string; Lib.row_identifier := 42 |}.

(** Calls made around a transaction begun by thread 7, by other threads. *)
Definition calls_before : list Lib.call := [ Lib.CInit no_env opens_all ].

Definition calls_after : list Lib.call :=
  [ Lib.CBegin 8; Lib.CPromote 9 1 9999; Lib.CLogOp 8 1 Lib.READ sample_object 7;
    Lib.CEnd 8 2 ].



(** The priorities of the specification's example. *)
Definition spec_batch : list TrxPriority :=
  [(50%Z, 1%N); (10%Z, 2%N); (90%Z, 3%N); (30%Z, 4%N)].

(** Four workers submit in one epoch and are drained; workers 1, 3 and 4
    are blocked on their waiters by then, worker 2 has only registered.
    Worker 2 comes back meanwhile and is served in the next epoch. *)
Definition two_epochs : list action :=
  [ AInit no_env;
    ARequest 1 1%N 50%Z 100%N; AWorker 1; AWorker 1; AWorker 1; AWorker 1;
    ARequest 2 2%N 10%Z 101%N; AWorker 2; AWorker 2;
    ARequest 3 3%N 90%Z 102%N; AWorker 3; AWorker 3; AWorker 3; AWorker 3;
    ARequest 4 4%N 30%Z 103%N; AWorker 4; AWorker 4; AWorker 4; AWorker 4;
    ASched; ASched; ASched;
    ASched; ASched; ASched; ASched; AWorker 2; AWorker 2;
    ARequest 2 2%N 70%Z 101%N; AWorker 2; AWorker 2;
    ASched; ASched; ASched; ASched;
    ASched; ASched; ASched; ASched;
    ASched; ASched; ASched; ASched;
    ASched; ASched;
    ASched; ASched; ASched;
    ASched; ASched; ASched; ASched ].

(** The first epoch of [two_epochs], up to the pop of its last entry. *)
Definition spec_epoch : list action := take 41 two_epochs.

(** The trace of [spec_epoch], before and after the batch is moved into
    the priority queue. *)
Definition spec_epoch_head : list event :=
  [ EvNew 1 1 100; EvPush 1 (50%Z, 1%N); EvRegister 1 1 100;
    EvNew 2 2 101; EvPush 2 (10%Z, 2%N); EvRegister 2 2 101;
    EvNew 3 3 102; EvPush 3 (90%Z, 3%N); EvRegister 3 3 102;
    EvNew 4 4 103; EvPush 4 (30%Z, 4%N); EvRegister 4 4 103;
    EvSwap spec_batch ].

Definition spec_epoch_tail : list event :=
  [ EvPop (10%Z, 2%N); EvRelease SchedulerThread 2 101; EvNotify SchedulerThread 101;
    EvObserve 2 101; EvDestroy (HostThread 2) 101; EvReturn 2 2;
    EvNew 2 2 101; EvPush 2 (70%Z, 2%N); EvRegister 2 2 101;
    EvPop (30%Z, 4%N); EvRelease SchedulerThread 4 103; EvNotify SchedulerThread 103;
    EvPop (50%Z, 1%N); EvRelease SchedulerThread 1 100; EvNotify SchedulerThread 100;
    EvPop (90%Z, 3%N) ].



(** The worker has pushed its entry but has not yet registered its waiter
    when the scheduler thread wakes up, drains the FIFO and pops. *)
Definition late_registration : list action :=
  [ AInit no_env;
    ARequest 1 1%N 50%Z 100%N; AWorker 1;
    ASched; ASched; ASched; ASched; ASched;
    AWorker 1 ].

(** The same up to the pop, before the worker moves again. *)
Definition late_pop : list action := take 8 late_registration.

(** The worker has pushed its entry but has not yet registered its waiter
    when [scheduler_shutdown] runs to its end; it then registers, finds
    its flag down and blocks. *)
Definition shutdown_overtakes_worker : list action :=
  [ AInit no_env;
    ARequest 1 1%N 50%Z 100%N; AWorker 1;
    AShutdown 0; ASched; AJoin; ASweep;
    AWorker 1; AWorker 1; AWorker 1 ].

(** Worker 2 submits after the FIFO was swapped out for worker 1's epoch;
    shutdown comes before anything is popped. *)
Definition shutdown_mid_epoch : list action :=
  [ AInit no_env;
    ARequest 1 1%N 50%Z 100%N; AWorker 1; AWorker 1;
    ASched; ASched;
    ARequest 2 2%N 10%Z 101%N; AWorker 2; AWorker 2;
    AShutdown 0; ASched; ASched; AJoin;
    ASweep; ASweep; ASweep; ASweep; ASweep ].

(** One request, served by the scheduler thread, up to the moment the
    scheduler thread is done with the waiter. *)
Definition one_request : list action :=
  [ AInit no_env;
    ARequest 1 1%N 50%Z 100%N; AWorker 1; AWorker 1; AWorker 1; AWorker 1;
    ASched; ASched; ASched; ASched; ASched; ASched; ASched; ASched ].

(** Two threads ask under one id: thread 2 registers its waiter over the
    entry of thread 1 after the batch of thread 1 was swapped out, and the
    pop of thread 1's entry releases thread 2. *)
Definition shared_id : list action :=
  [ AInit no_env;
    ARequest 1 9%N 20%Z 100%N; AWorker 1; AWorker 1;
    ASched; ASched;
    ARequest 2 9%N 10%Z 101%N; AWorker 2; AWorker 2;
    ASched; ASched; ASched; ASched ].

(** The worker finds its flag set before the scheduler thread has called
    [notify_one], and deletes its waiter. *)
Definition early_observer : list action :=
  [ AInit no_env;
    ARequest 1 1%N 50%Z 100%N; AWorker 1; AWorker 1;
    ASched; ASched; ASched; ASched; ASched; ASched;
    AWorker 1; AWorker 1 ].

(** The same at shutdown: the worker finds the flag the sweep has set
    before the sweep has called [notify_all]. *)
Definition early_observer_at_shutdown : list action :=
  [ AInit no_env;
    ARequest 1 1%N 50%Z 100%N; AWorker 1; AWorker 1;
    AShutdown 0; ASched; AJoin; ASweep;
    AWorker 1; AWorker 1 ].

(** The worker has found its flag down and has not yet blocked when the
    sweep of [scheduler_shutdown] sets the flag and notifies; the worker
    blocks afterwards. *)
Definition missed_notify : list action :=
  [ AInit no_env;
    ARequest 1 1%N 50%Z 100%N; AWorker 1; AWorker 1; AWorker 1;
    AShutdown 0; ASched; AJoin; ASweep; ASweep; ASweep;
    AWorker 1 ].

End Scenario.

From Stdlib Require DecimalN.

(* ===================================================================== *)
(** * Sequences of logger calls *)
(* ===================================================================== *)

(** The three functions of [src/logger.cpp], called in any order. *)
Module LoggerRun.

Inductive call :=
  | Init (env : environment) (fs : Logger.file_system)     (* logger_init *)
  | Shutdown                                               (* logger_shutdown *)
  | LogLine (line : string).                               (* logger_log_line *)

Definition exec (c : call) (s : Logger.state) : Logger.state :=
  match c with
  | Init env fs => Logger.logger_init env fs s
  | Shutdown => Logger.logger_shutdown s
  | LogLine line => Logger.logger_log_line line s
  end.

Definition run (calls : list call) (s : Logger.state) : Logger.state :=
  foldl (fun s c => exec c s) s calls.

(** The lines the file [f] holds; a file that does not exist holds
    none. *)
Definition file (f : string) (s : Logger.state) : list string :=
  default [] (Logger.files s !! f).

(** [g_out_ptr] points to [g_file] only while [g_file] is open. *)
Definition sink_open (s : Logger.state) : Prop :=
  Logger.g_out_ptr s = Logger.GFile -> is_Some (Logger.g_file s).

End LoggerRun.

(* ===================================================================== *)
(** * The earlier revision of the entry points *)
(* ===================================================================== *)

(** [src/isofuzz.cpp] in the revision without [log_generic_op]:
    [isofuzz_trx_begin] logs nothing, [isofuzz_trx_promote] and
    [isofuzz_log_op] build their lines themselves, and
    [op_type_to_string] knows the five enumerators of the header.  The
    registry ([begin_trx], [get_trx], [end_trx]) is the same in both
    revisions. *)
Module LibOld.
Import Lib.

(** [op_type_to_string]: whatever is not one of the five enumerators falls
    to [default:]. *)
Definition op_type_to_string (op_type : IsoFuzzOpType) : string :=
  match op_type with
  | READ => "READ"
  | WRITE_UPDATE => "UPDATE"
  | WRITE_INSERT => "INSERT"
  | WRITE_DELETE => "DELETE"
  | TXN_PROMOTE => "PROMOTE"
  | _ => "UNKNOWN"
  end.

(** [isofuzz_trx_begin], called by thread [t]. *)
Definition isofuzz_trx_begin (t : nat) (s : state) : N * state :=
  let '(handle, c) := begin_trx t (ctx s) in (handle, set_ctx c s).

(** The six fields [isofuzz_trx_promote] streams. *)
Definition promote_fields (trx : IsoFuzzTrxImpl) (new_dbms_id : N) : list string :=
  [ show_thread_id (thread_id trx); dec new_dbms_id; op_type_to_string TXN_PROMOTE;
    "N/A"; "N/A"; dec (lib_id trx) ]%string.

(** [isofuzz_trx_promote]. *)
Definition isofuzz_trx_promote (trx_handle : N) (new_dbms_id : N) (s : state)
    : outcome state :=
  match get_trx trx_handle with
  | None => Done s
  | Some p =>
      match records (ctx s) !! p with
      | None => Undefined
      | Some trx =>
          let trx' := {| lib_id := lib_id trx; dbms_id := new_dbms_id;
                         thread_id := thread_id trx |} in
          let c := {| m_transactions := m_transactions (ctx s);
                      next_lib_id := next_lib_id (ctx s);
                      records := <[p := trx']> (records (ctx s)) |} in
          Done (set_logger
                  (Logger.logger_log_line (String.concat tab (promote_fields trx' new_dbms_id))
                     (logger s))
                  (set_ctx c s))
      end
  end.

(** The seven fields [isofuzz_log_op] streams; [object] is a reference. *)
Definition log_fields (trx : IsoFuzzTrxImpl) (op_type : IsoFuzzOpType)
    (object : IsoFuzzObject) (last_writer_trx_id : N) : list string :=
  [ show_thread_id (thread_id trx); dec (effective_trx_id trx); op_type_to_string op_type;
    table_name object; default "N/A"%string (column_name object);
    dec (row_identifier object);
    match op_type with
    | READ | WRITE_UPDATE | WRITE_DELETE => dec last_writer_trx_id
    | _ => "0"%string
    end ].

(** [isofuzz_log_op]. *)
Definition isofuzz_log_op (trx_handle : N) (op_type : IsoFuzzOpType)
    (object : IsoFuzzObject) (last_writer_trx_id : N) (s : state) : outcome state :=
  match get_trx trx_handle with
  | None => Done s
  | Some p =>
      match records (ctx s) !! p with
      | None => Undefined
      | Some trx =>
          Done (set_logger
                  (Logger.logger_log_line
                     (String.concat tab (log_fields trx op_type object last_writer_trx_id))
                     (logger s)) s)
      end
  end.

End LibOld.

(* ===================================================================== *)
(** * Reading runs of the library and of the scheduler *)
(* ===================================================================== *)

Module Reading.
Import Sched.

(** The waiter and the id a thread inside [scheduler_request] works on. *)
Definition waiter_of (pc : worker_pc) : N :=
  match pc with
  | WPush _ w _ | WRegister _ w | WWait _ w | WChecked _ w | WBlocked _ w | WWoken _ w => w
  end.

(** The thread has not yet put its waiter into the map. *)
Definition unregistered (pc : worker_pc) : Prop :=
  match pc with WPush _ _ _ | WRegister _ _ => True | _ => False end.

(** The batch the scheduler thread holds in [local_pending]. *)
Definition local_pending (pc : sched_pc) : list TrxPriority :=
  match pc with SCollected b => b | _ => [] end.

(** What was swapped out of the FIFO is what was moved into the priority
    queue, and the batch the scheduler thread holds. *)
Definition swapped_inv (s : state) : Prop :=
  concat (swaps (trace s)) =
  concat (batches (trace s)) ++ local_pending (scheduler_thread s).

(** The entries the sweep has still to visit. *)
Definition todo_of (x : sweep_pc) : list (N * N) :=
  match x with HWrite todo | HNotify _ todo => todo end.

(** The map entry has not been visited by a sweep that is under way. *)
Definition unswept (s : state) (id w : N) : Prop :=
  match sweeping s with
  | None => True
  | Some (_, x) => (id, w) ∈ todo_of x
  end.

(** Who owns which waiter, in the revision with worker-owned waiters:
    every thread inside [scheduler_request] has a live waiter of its own;
    the flag of a waiter that is not yet registered, or is registered in
    the map and not yet visited by a sweep, or is about to be signalled by
    the scheduler thread, is down, and the thread it belongs to is inside
    [cv.wait]; the scheduler thread holds no owning pointer; a sweep
    visits entries of the map, each once. *)
Definition waiter_inv (s : state) : Prop :=
  (forall t pc, workers s !! t = Some pc -> is_Some (waiters s !! waiter_of pc)) /\
  (forall t t' pc pc', workers s !! t = Some pc -> workers s !! t' = Some pc' ->
                       waiter_of pc = waiter_of pc' -> t = t') /\
  (forall t pc, workers s !! t = Some pc -> unregistered pc ->
                waiters s !! waiter_of pc = Some {| is_ready := false |}) /\
  (forall id w, trx_wait_map s !! id = Some w -> unswept s id w ->
                waiters s !! w = Some {| is_ready := false |} /\
                exists t pc, workers s !! t = Some pc /\ waits_on pc = Some (id, w)) /\
  (forall id w, scheduler_thread s = SSignal id w ->
                waiters s !! w = Some {| is_ready := false |} /\
                (exists t pc, workers s !! t = Some pc /\ waits_on pc = Some (id, w)) /\
                forall id', trx_wait_map s !! id' <> Some w) /\
  (forall w, scheduler_thread s <> SDestroy w) /\
  (forall t x, sweeping s = Some (t, x) ->
               NoDup (todo_of x) /\
               forall id w, (id, w) ∈ todo_of x -> trx_wait_map s !! id = Some w).

(** Two tables of the threads inside [scheduler_request] differ only in
    where the threads stand inside [cv.wait]: thread by thread, the waiter
    is the same, and so is whether the thread is inside [cv.wait] and
    whether it has registered its waiter. *)
Definition alike (W W' : gmap nat worker_pc) : Prop :=
  forall t,
    match W !! t, W' !! t with
    | Some pc, Some pc' =>
        waiter_of pc = waiter_of pc' /\ waits_on pc = waits_on pc' /\
        (unregistered pc <-> unregistered pc')
    | None, None => True
    | _, _ => False
    end.

(** The moves of the scheduler thread and of thread [t] that take the
    entry on top of the queue from its pop to the return of
    [scheduler_request] in [t]; a thread that has found its flag down and
    not yet blocked must block before the scheduler thread gets the
    waiter's [mtx]. *)
Definition handshake (t : nat) (pc : worker_pc) : list action :=
  match pc with
  | WChecked _ _ => [ASched; AWorker t; ASched; ASched; AWorker t; AWorker t]
  | _ => [ASched; ASched; ASched; AWorker t; AWorker t]
  end.

(** How many moves the scheduler thread is away, at most, from its next
    test of the loop condition. *)
Definition steps_to_loop (pc : sched_pc) : nat :=
  match pc with
  | SDrain => 4
  | SSignal _ _ => 3
  | SSleep | SNotify _ _ => 2
  | SCollected _ | SDestroy _ => 1
  | SNoThread | SLoop | SExited | SAborted => 0
  end.

(** The waiter the scheduler thread has taken out of the map and is
    working on. *)
Definition in_hand (pc : sched_pc) : option N :=
  match pc with SSignal _ w | SNotify _ w | SDestroy w => Some w | _ => None end.

(** Nothing stands in the way of the scheduler thread and of a sweep that
    follows, when no other thread moves: nobody sweeps the map, the
    waiters in the map and the one the scheduler thread works on are live
    and no thread holds their [mtx], no two map entries share a waiter,
    and the waiter the scheduler thread works on is in the map no
    longer. *)
Definition unhindered (s : state) : Prop :=
  sweeping s = None /\
  (forall id w, trx_wait_map s !! id = Some w ->
                is_Some (waiters s !! w) /\ mtx_free w s = true) /\
  (forall id id' w, trx_wait_map s !! id = Some w -> trx_wait_map s !! id' = Some w ->
                    id = id') /\
  (forall w, in_hand (scheduler_thread s) = Some w ->
             is_Some (waiters s !! w) /\ mtx_free w s = true /\
             forall id, trx_wait_map s !! id <> Some w).

(** The scheduler thread is about to pop an entry whose id has no waiter
    in the map. *)
Definition pops_unregistered (s : state) : Prop :=
  scheduler_thread s = SDrain /\
  exists e, PQ.top (scheduler_queue s) = Some e /\ trx_wait_map s !! e.2 = None.

(** Thread [t] is blocked on the waiter [w] of its request [id], and
    nobody is about to notify that waiter: it is not in the map, the
    scheduler thread does not work on it and no sweep is about to notify
    it. *)
Definition stranded (t : nat) (id w : N) (s : state) : Prop :=
  workers s !! t = Some (WBlocked id w) /\
  (forall id', trx_wait_map s !! id' <> Some w) /\
  in_hand (scheduler_thread s) <> Some w /\
  match sweeping s with
  | Some (_, HNotify w' _) => w' <> w
  | _ => True
  end.

(** The scheduler thread moves [n] times, nobody else does. *)
Fixpoint sched_steps (rev : Revision) (n : nat) (s : state) : option state :=
  match n with
  | O => Some s
  | S n' => s' ← scheduler_step rev s; sched_steps rev n' s'
  end.

(** The number of transactions a list of calls begins. *)
Fixpoint begins (calls : list Lib.call) : nat :=
  match calls with
  | [] => 0
  | Lib.CBegin _ :: calls' => S (begins calls')
  | _ :: calls' => begins calls'
  end.

(** Some [isofuzz_trx_begin] among the calls returns the handle [h]:
    [operator new] gives the new record the address [h]. *)
Fixpoint handed_out (rev : Revision) (h : N) (calls : list Lib.call) (s : Lib.state) : Prop :=
  match calls with
  | [] => False
  | c :: calls' =>
      match c with
      | Lib.CBegin t => (Lib.begin_trx t (Lib.ctx s)).1 = h
      | _ => False
      end \/
      match Lib.exec rev c s with
      | Lib.Done s1 => handed_out rev h calls' s1
      | _ => False
      end
  end.

(** Every entry of the registry's map leads to a live record that carries
    the entry's id. *)
Definition registry_tight (c : Lib.IsoFuzzContext) : Prop :=
  forall id a, Lib.m_transactions c !! id = Some a ->
    a <> 0%N /\ exists trx, Lib.records c !! a = Some trx /\ Lib.lib_id trx = id.

(** The calls that touch the log sink (they write a line, or open or
    close the sink), the calls that reach the scheduler, and the calls
    that change the registry. *)
Definition logging (c : Lib.call) : Prop :=
  match c with
  | Lib.CInit _ _ | Lib.CShutdownEnter _ | Lib.CShutdownSweep
  | Lib.CBegin _ | Lib.CCommit _ _ | Lib.CPromote _ _ _ | Lib.CLogOp _ _ _ _ _ => True
  | _ => False
  end.

Definition scheduling (c : Lib.call) : Prop :=
  match c with
  | Lib.CInit _ _ | Lib.CShutdownEnter _ | Lib.CShutdownJoin | Lib.CShutdownSweep
  | Lib.CScheduleOp _ _ _ _ _ | Lib.CSchedulerThread | Lib.CWorker _ | Lib.CSpurious _ => True
  | _ => False
  end.

Definition registering (c : Lib.call) : Prop :=
  match c with
  | Lib.CBegin _ | Lib.CPromote _ _ _ | Lib.CEnd _ _ => True
  | _ => False
  end.

(** The value of a decimal numeral read from the left, after the digits
    whose value is [acc]. *)
Fixpoint value_acc (d : Decimal.uint) (acc : Z) : Z :=
  match d with
  | Decimal.Nil => acc
  | Decimal.D0 d' => value_acc d' (10 * acc)
  | Decimal.D1 d' => value_acc d' (10 * acc + 1)
  | Decimal.D2 d' => value_acc d' (10 * acc + 2)
  | Decimal.D3 d' => value_acc d' (10 * acc + 3)
  | Decimal.D4 d' => value_acc d' (10 * acc + 4)
  | Decimal.D5 d' => value_acc d' (10 * acc + 5)
  | Decimal.D6 d' => value_acc d' (10 * acc + 6)
  | Decimal.D7 d' => value_acc d' (10 * acc + 7)
  | Decimal.D8 d' => value_acc d' (10 * acc + 8)
  | Decimal.D9 d' => value_acc d' (10 * acc + 9)
  end%Z.

(** A log line cut at every occurrence of [sep]. *)
Fixpoint split_at (sep : ascii) (s : string) : list string :=
  match s with
  | EmptyString => [EmptyString]
  | String c s' =>
      if Ascii.eqb c sep then EmptyString :: split_at sep s'
      else match split_at sep s' with
           | f :: fs => String c f :: fs
           | [] => [String c EmptyString]
           end
  end.

(** The text holds no [sep]. *)
Fixpoint free_of (sep : ascii) (s : string) : bool :=
  match s with
  | EmptyString => true
  | String c s' => negb (Ascii.eqb c sep) && free_of sep s'
  end.

Definition tab_char : ascii := ascii_of_nat 9.

(** The names of an object hold no tab. *)
Definition tab_free_object (o : Lib.IsoFuzzObject) : bool :=
  free_of tab_char (Lib.table_name o) &&
  match Lib.column_name o with Some c => free_of tab_char c | None => true end.

End Reading.

(** Inputs at which the hypotheses of the theorems below hold. *)
Module Sample.
Import Sched.

(** The scheduler stands before a pop; thread 1 is blocked on the waiter
    of the entry on top, thread 2 on that of the other one. *)
Definition draining : state :=
  {| g_epoch_state := DRAINING; EPOCH_DURATION_MS := 5;
     scheduler_running := true; scheduler_thread := SDrain; joining := None;
     sweeping := None;
     pending_requests := [];
     trx_wait_map := {[ 1%N := 100%N; 2%N := 101%N ]};
     scheduler_queue := [(10%Z, 1%N); (20%Z, 2%N)];
     rng := (42%Z, 2);
     waiters := {[ 100%N := {| is_ready := false |}; 101%N := {| is_ready := false |} ]};
     workers := {[ 1 := WBlocked 1 100; 2 := WBlocked 2 101 ]};
     trace := [] |}.

(** The same, with the scheduler thread at its loop test. *)
Definition draining_loop : state := set_thread SLoop draining.

(** The same, with no waiter registered for the entry on top. *)
Definition draining_late : state :=
  set_wait_map {[ 2%N := 101%N ]} (set_workers {[ 1 := WRegister 1 100; 2 := WBlocked 2 101 ]}
                                     draining_loop).

(** The scheduler thread has exited: the state [join] returns in, with a
    batch left in the queue. *)
Definition joined : state :=
  set_joining (Some 0) (set_running false (set_thread SExited draining)).

(** A scheduler that was started with a 50 ms epoch, drew three
    priorities and was shut down. *)
Definition stopped_50 : state := set_epoch_ms 50 (set_rng (42%Z, 3) initial).

(** Calls that begin two transactions and end the first. *)
Definition two_begins : list Lib.call :=
  [ Lib.CInit Scenario.no_env Scenario.opens_all; Lib.CBegin 7; Lib.CBegin 8; Lib.CEnd 7 1 ].

(** The library with two live transactions, begun by threads 7 and 8. *)
Definition two_live : Lib.state :=
  Lib.set_ctx
    {| Lib.m_transactions := {[ 1%N := 1%N; 2%N := 2%N ]};
       Lib.next_lib_id := 3;
       Lib.records := {[ 1%N := {| Lib.lib_id := 1; Lib.dbms_id := 0; Lib.thread_id := 7 |};
                         2%N := {| Lib.lib_id := 2; Lib.dbms_id := 0; Lib.thread_id := 8 |} ]} |}
    Lib.initial.

End Sample.

(* ===================================================================== *)
(** * Facts about the priority queue *)
(* ===================================================================== *)

(** Overwriting a slot trades its old content for the new one. *)
Lemma insert_trade {A} (u : list A) (i : nat) (a b : A) :
  u !! i = Some a -> a :: <[i := b]> u ≡ₚ b :: u.
Proof.
  revert i; induction u as [|y u IH]; intros [|i] Hi; simplify_eq/=.
  - apply perm_swap.
  - rewrite perm_swap, (IH i Hi). apply perm_swap.
Qed.

(** Moving the content of slot [c] into the hole [h] and making [c] the hole
    does not change what the vector holds once the hole is filled. *)
Lemma hole_move_perm {A} (u : list A) (h c : nat) (xc value : A) :
  h <> c -> h < length u -> u !! c = Some xc ->
  <[c := value]> (<[h := xc]> u) ≡ₚ <[h := value]> u.
Proof.
  intros Hne Hh Hc.
  destruct (lookup_lt_is_Some_2 u h Hh) as [xh Hxh].
  apply (Permutation_cons_inv (a := xc)), (Permutation_cons_inv (a := xh)).
  assert (Hc' : <[h:=xc]> u !! c = Some xc) by (by rewrite list_lookup_insert_ne).
  pose proof (insert_trade u h xh value Hxh) as E1.
  pose proof (insert_trade u h xh xc Hxh) as E2.
  pose proof (insert_trade _ c xc value Hc') as E3.
  rewrite E3, (perm_swap value xh), E2.
  rewrite (perm_swap xc xh (<[h:=value]> u)), E1.
  apply perm_swap.
Qed.

Ltac list_ins :=
  repeat first
    [ rewrite list_lookup_insert_eq by (rewrite ?length_insert; lia)
    | rewrite list_lookup_insert_ne by lia ].

Ltac list_ins_in H :=
  repeat first
    [ rewrite list_lookup_insert_eq in H by (rewrite ?length_insert; lia)
    | rewrite list_lookup_insert_ne in H by lia ].

(** Filling the hole with a value that sits between the hole's parent and
    its children closes the heap. *)
Lemma fill_hole_heap n v h value :
  h < length v ->
  PQ.heap_with_hole n v h -> PQ.below_children n v h value ->
  (0 < h -> forall pv, v !! ((h - 1) / 2) = Some pv -> (pv.1 <= value.1)%Z) ->
  PQ.is_heap n (<[h := value]> v).
Proof.
  intros Hlen [H1 H2] Hb Hp i Hi x p Hx Hpx.
  destruct (decide (i = h)) as [->|Hih].
  - list_ins_in Hx. list_ins_in Hpx. simplify_eq. apply Hp; [lia|done].
  - list_ins_in Hx. destruct (decide ((i - 1) / 2 = h)) as [Hpar|Hpar].
    + rewrite Hpar in Hpx. list_ins_in Hpx. simplify_eq. by apply (Hb i).
    + list_ins_in Hpx. by apply (H1 i).
Qed.

Lemma push_heap_loop_S fuel v h top value :
  PQ.push_heap_loop (S fuel) v h top value =
  match v !! ((h - 1) / 2) with
  | Some pv =>
      if bool_decide (top < h) && CompareTrxPriority pv value
      then PQ.push_heap_loop fuel (<[h := pv]> v) ((h - 1) / 2) top value
      else <[h := value]> v
  | None => <[h := value]> v
  end.
Proof. reflexivity. Qed.

Lemma push_heap_loop_O v h top value :
  PQ.push_heap_loop 0 v h top value = <[h := value]> v.
Proof. reflexivity. Qed.

Lemma push_heap_loop_heap fuel n v h value :
  h <= fuel -> h < n -> n <= length v ->
  PQ.heap_with_hole n v h -> PQ.below_children n v h value ->
  PQ.is_heap n (PQ.push_heap_loop fuel v h 0 value).
Proof.
  revert v h; induction fuel as [|fuel IH]; intros v h Hf Hn Hlen Hh Hb.
  - assert (h = 0) as -> by lia. rewrite push_heap_loop_O.
    apply fill_hole_heap; [lia|done|done|lia].
  - rewrite push_heap_loop_S. destruct (v !! ((h - 1) / 2)) as [pv|] eqn:Hpv; last first.
    { apply lookup_ge_None_1 in Hpv. lia. }
    destruct (bool_decide (0 < h) && CompareTrxPriority pv value) eqn:Hc.
    + apply andb_true_iff in Hc as [Hpos%bool_decide_eq_true Hgt%bool_decide_eq_true].
      destruct Hh as [H1 H2].
      assert (Hpp : forall g, 0 < (h - 1) / 2 -> v !! (((h - 1) / 2 - 1) / 2) = Some g -> (g.1 <= pv.1)%Z).
      { intros g Hp0 Hg. apply (H1 ((h - 1) / 2)); [lia|lia|lia|done|done]. }
      apply IH; [lia|lia|by rewrite length_insert| |].
      * split.
        -- intros i Hi Hip Hipp x q Hx Hq.
           assert (i <> h) by (intros ->; lia). list_ins_in Hx.
           destruct (decide ((i - 1) / 2 = h)) as [Hpar|Hpar].
           ++ rewrite Hpar in Hq. list_ins_in Hq. simplify_eq.
              by apply (H2 i x q).
           ++ list_ins_in Hq. by apply (H1 i).
        -- intros c x g Hp0 Hc Hcp Hx Hg. list_ins_in Hg.
           specialize (Hpp g Hp0 Hg).
           destruct (decide (c = h)) as [->|Hch].
           ++ list_ins_in Hx. by simplify_eq.
           ++ list_ins_in Hx. etrans; [exact Hpp|].
              apply (H1 c); [lia|done|lia|done|by rewrite Hcp].
      * intros c x Hc Hcp Hx.
        destruct (decide (c = h)) as [->|Hch].
        -- list_ins_in Hx. simplify_eq. lia.
        -- list_ins_in Hx.
           assert (pv.1 <= x.1)%Z by (apply (H1 c); [lia|done|lia|done|by rewrite Hcp]).
           lia.
    + apply fill_hole_heap; [lia|done|done|].
      intros Hpos pv' Hpv'. simplify_eq.
      apply andb_false_iff in Hc as [Hc%bool_decide_eq_false|Hc%bool_decide_eq_false]; lia.
Qed.

Lemma push_heap_loop_length fuel v h top value :
  length (PQ.push_heap_loop fuel v h top value) = length v.
Proof.
  revert v h; induction fuel as [|fuel IH]; intros v h.
  - by rewrite push_heap_loop_O, length_insert.
  - rewrite push_heap_loop_S. destruct (v !! _); [|by rewrite length_insert].
    destruct (_ && _); [|by rewrite length_insert].
    by rewrite IH, length_insert.
Qed.

Lemma push_heap_loop_perm fuel n v h value :
  h < n -> n <= length v ->
  take n (PQ.push_heap_loop fuel v h 0 value) ≡ₚ take n (<[h := value]> v).
Proof.
  revert v h; induction fuel as [|fuel IH]; intros v h Hn Hlen.
  - by rewrite push_heap_loop_O.
  - rewrite push_heap_loop_S. destruct (v !! ((h - 1) / 2)) as [pv|] eqn:Hpv; [|done].
    destruct (bool_decide (0 < h) && CompareTrxPriority pv value) eqn:Hc; [|done].
    apply andb_true_iff in Hc as [Hpos%bool_decide_eq_true _].
    rewrite IH by (rewrite ?length_insert; lia).
    rewrite !take_insert_lt by lia.
    apply hole_move_perm; [lia|rewrite length_take; lia|].
    rewrite lookup_take_lt by lia. done.
Qed.

Lemma adjust_heap_loop_S fuel v h len :
  PQ.adjust_heap_loop (S fuel) v h len =
  if bool_decide (h < (len - 1) / 2) then
    match v !! (2 * (h + 1)), v !! (2 * (h + 1) - 1) with
    | Some r, Some l =>
        if CompareTrxPriority r l
        then PQ.adjust_heap_loop fuel (<[h := l]> v) (2 * (h + 1) - 1) len
        else PQ.adjust_heap_loop fuel (<[h := r]> v) (2 * (h + 1)) len
    | _, _ => (v, h)
    end
  else (v, h).
Proof. reflexivity. Qed.

(** One step of the descent: the child [c] that is not above its sibling
    moves into the hole, and [c] becomes the hole. *)
Lemma sink_step n v h c xc :
  h < length v -> 0 < c < n -> (c - 1) / 2 = h -> v !! c = Some xc ->
  (forall s xs, 0 < s < n -> (s - 1) / 2 = h -> s <> c -> v !! s = Some xs -> (xc.1 <= xs.1)%Z) ->
  PQ.heap_with_hole n v h ->
  PQ.heap_with_hole n (<[h := xc]> v) c.
Proof.
  intros Hlen Hc Hpar Hxc Hsib [H1 H2]. split.
  - intros i Hi Hic Hipc x q Hx Hq.
    destruct (decide (i = h)) as [->|Hih].
    + list_ins_in Hx. list_ins_in Hq. simplify_eq.
      apply (H2 c x q); [lia|lia|done|done|done].
    + list_ins_in Hx. destruct (decide ((i - 1) / 2 = h)) as [Hp|Hp].
      * rewrite Hp in Hq. list_ins_in Hq. simplify_eq. by apply (Hsib i).
      * list_ins_in Hq. by apply (H1 i).
  - intros d x g Hc0 Hd Hdp Hx Hg.
    rewrite Hpar in Hg. list_ins_in Hg. list_ins_in Hx.
    assert (g = xc) as -> by congruence.
    apply (H1 d); [lia|lia|lia|done|by rewrite Hdp].
Qed.

Lemma adjust_heap_loop_spec fuel n v h v1 h1 :
  h < n -> n <= length v -> PQ.heap_with_hole n v h ->
  PQ.adjust_heap_loop fuel v h n = (v1, h1) ->
  (n - h <= fuel -> ~ h1 < (n - 1) / 2) /\
  PQ.heap_with_hole n v1 h1 /\ h1 < n /\ length v1 = length v /\
  (forall x, take n (<[h1 := x]> v1) ≡ₚ take n (<[h := x]> v)).
Proof.
  revert v h; induction fuel as [|fuel IH]; intros v h Hn Hlen Hh Heq.
  - simpl in Heq. simplify_eq. split_and!; [lia|done..].
  - rewrite adjust_heap_loop_S in Heq.
    case_bool_decide as Hlt; last by (simplify_eq; split_and!; [lia|done..]).
    destruct (lookup_lt_is_Some_2 v (2 * (h + 1)) ltac:(lia)) as [r Hr].
    destruct (lookup_lt_is_Some_2 v (2 * (h + 1) - 1) ltac:(lia)) as [l Hl].
    rewrite Hr, Hl in Heq.
    destruct (CompareTrxPriority r l) eqn:Hcmp.
    + apply bool_decide_eq_true in Hcmp.
      apply IH in Heq as (Hex & Hhole & Hh1 & Hlen1 & Hperm);
        [|lia|by rewrite length_insert|].
      * split_and!; [lia|done|done|by rewrite Hlen1, length_insert|].
        intros x. rewrite Hperm, !take_insert_lt by lia.
        apply hole_move_perm; [lia|rewrite length_take; lia|].
        by rewrite lookup_take_lt by lia.
      * apply sink_step; [lia|lia|lia|done| |done].
        intros s xs Hs Hsp Hsc Hxs.
        assert (s = 2 * (h + 1)) as -> by lia. simplify_eq. lia.
    + apply bool_decide_eq_false in Hcmp.
      apply IH in Heq as (Hex & Hhole & Hh1 & Hlen1 & Hperm);
        [|lia|by rewrite length_insert|].
      * split_and!; [lia|done|done|by rewrite Hlen1, length_insert|].
        intros x. rewrite Hperm, !take_insert_lt by lia.
        apply hole_move_perm; [lia|rewrite length_take; lia|].
        by rewrite lookup_take_lt by lia.
      * apply sink_step; [lia|lia|lia|done| |done].
        intros s xs Hs Hsp Hsc Hxs.
        assert (s = 2 * (h + 1) - 1) as -> by lia. simplify_eq. lia.
Qed.

Lemma adjust_heap_spec n v value :
  0 < n -> n <= length v -> PQ.heap_with_hole n v 0 ->
  PQ.is_heap n (PQ.adjust_heap v 0 n value) /\
  take n (PQ.adjust_heap v 0 n value) ≡ₚ take n (<[0 := value]> v) /\
  length (PQ.adjust_heap v 0 n value) = length v.
Proof.
  intros Hn Hlen Hh. unfold PQ.adjust_heap.
  destruct (PQ.adjust_heap_loop n v 0 n) as [v1 h1] eqn:Hloop.
  apply adjust_heap_loop_spec in Hloop as (Hex & Hhole & Hh1 & Hlen1 & Hperm);
    [|lia|done|done].
  specialize (Hex ltac:(lia)).
  destruct (Nat.even n && bool_decide (h1 = (n - 2) / 2)) eqn:Hcase.
  - apply andb_true_iff in Hcase as [[k ->]%Nat.even_spec Hh1eq%bool_decide_eq_true].
    destruct (lookup_lt_is_Some_2 v1 (2 * (h1 + 1) - 1) ltac:(lia)) as [l Hl].
    rewrite Hl. unfold PQ.push_heap_aux. split_and!.
    + apply push_heap_loop_heap; [lia|lia|rewrite length_insert; lia| |].
      * apply sink_step; [lia|lia|lia|done| |done].
        intros s xs Hs Hsp Hsc Hxs. lia.
      * intros c x Hc Hcp Hx. lia.
    + rewrite push_heap_loop_perm by (rewrite ?length_insert; lia).
      rewrite <- Hperm, !take_insert_lt by lia.
      apply hole_move_perm; [lia|rewrite length_take; lia|].
      by rewrite lookup_take_lt by lia.
    + by rewrite push_heap_loop_length, length_insert.
  - unfold PQ.push_heap_aux. split_and!.
    + apply push_heap_loop_heap; [lia|lia|lia|done|].
      intros c x Hc Hcp Hx.
      exfalso. apply andb_false_iff in Hcase.
      destruct (Nat.Even_or_Odd n) as [[k Hk]|[k Hk]]; [|lia].
      destruct Hcase as [Hodd|Hne%bool_decide_eq_false]; [|lia].
      assert (Nat.even n = true) by (apply Nat.even_spec; by exists k).
      congruence.
    + by rewrite push_heap_loop_perm by lia.
    + by rewrite push_heap_loop_length.
Qed.

Lemma is_heap_take n v : PQ.is_heap n v -> PQ.is_heap n (take n v).
Proof.
  intros Hh i Hi x p Hx Hp.
  apply lookup_take_Some in Hx as [Hx _]. apply lookup_take_Some in Hp as [Hp _].
  by apply (Hh i).
Qed.

Lemma heap_nil : PQ.heap [].
Proof. intros i Hi. simpl in Hi. lia. Qed.

(** [priority_queue::push] keeps the heap and adds exactly the pushed entry. *)
Lemma push_spec x c :
  PQ.heap c -> PQ.heap (PQ.push x c) /\ PQ.push x c ≡ₚ x :: c.
Proof.
  intros Hc. unfold PQ.push, PQ.push_heap, PQ.push_heap_aux.
  rewrite last_snoc, length_app. simpl.
  replace (length c + 1 - 1) with (length c) by lia.
  set (n := length c + 1).
  assert (Hlen : length (PQ.push_heap_loop (length c) (c ++ [x]) (length c) 0 x) = n)
    by (rewrite push_heap_loop_length, length_app; simpl; lia).
  split.
  - unfold PQ.heap. rewrite Hlen.
    apply push_heap_loop_heap; [lia|lia|rewrite length_app; simpl; lia| |].
    + split.
      * intros i Hi Hih Hip y p Hy Hp.
        rewrite lookup_app_l in Hy by lia. rewrite lookup_app_l in Hp by lia.
        apply (Hc i); [lia|done|done].
      * intros d y g Hpos Hd Hdp. lia.
    + intros d y Hd Hdp. lia.
  - rewrite <- (take_ge _ n) by lia.
    rewrite (push_heap_loop_perm _ n) by (rewrite ?length_app; simpl; lia).
    rewrite take_ge by (rewrite length_insert, length_app; simpl; lia).
    replace (length c) with (length c + 0) at 1 by lia.
    rewrite insert_app_r. simpl. by rewrite Permutation_app_comm.
Qed.

(** [priority_queue::pop] keeps the heap and removes exactly the top entry. *)
Lemma pop_spec c t :
  PQ.heap c -> PQ.top c = Some t ->
  PQ.heap (PQ.pop c) /\ c ≡ₚ t :: PQ.pop c.
Proof.
  intros Hc Ht. unfold PQ.top in Ht. unfold PQ.pop, PQ.pop_heap.
  case_bool_decide as Hlen.
  - destruct (lookup_lt_is_Some_2 c (length c - 1) ltac:(lia)) as [value Hv].
    rewrite Hv, Ht.
    set (n := length c - 1).
    destruct (adjust_heap_spec n (<[n := t]> c) value) as (Hheap & Hperm & Hl);
      [lia|rewrite length_insert; lia| |].
    { split; [|lia]. intros i Hi Hi0 Hip y p Hy Hp.
      list_ins_in Hy. list_ins_in Hp. apply (Hc i); [lia|done|done]. }
    rewrite Hl, length_insert. fold n. split.
    + unfold PQ.heap. rewrite length_take, Hl, length_insert.
      replace (n `min` length c) with n by lia.
      by apply is_heap_take.
    + rewrite Hperm, take_insert_lt by lia.
      rewrite take_insert_ge by lia.
      destruct c as [|c0 c]; [done|]. simpl in *. simplify_eq.
      assert (n = length c) as Hn by (unfold n; lia). clearbody n. subst n.
      destruct (length c) as [|m] eqn:Hm; [simpl in Hlen; lia|]. simpl.
      apply Permutation_cons; [done|].
      rewrite <- (take_drop m c) at 1.
      assert (drop m c = [value]) as ->.
      { apply list_eq. intros [|j]; rewrite lookup_drop; simpl.
        - by rewrite Nat.add_0_r.
        - apply lookup_ge_None_2. lia. }
      by rewrite Permutation_app_comm.
  - destruct c as [|c0 [|c1 c]]; simpl in *; simplify_eq; [|lia].
    split; [apply heap_nil|done].
Qed.

(** The top of a heap is below every entry. *)
Lemma top_min c t x :
  PQ.heap c -> PQ.top c = Some t -> x ∈ c -> PQ.prio_le t x.
Proof.
  intros Hc Ht [i Hi]%list_elem_of_lookup. revert x Hi.
  induction (lt_wf i) as [i _ IH]. intros x Hi.
  destruct (decide (i = 0)) as [->|Hpos].
  - unfold PQ.top in Ht. unfold PQ.prio_le. by simplify_eq.
  - pose proof (lookup_lt_Some _ _ _ Hi) as Hlt.
    destruct (lookup_lt_is_Some_2 c ((i - 1) / 2) ltac:(lia)) as [p Hp].
    unfold PQ.prio_le in *. etrans; [apply (IH ((i - 1) / 2)); [lia|done]|].
    apply (Hc i); [lia|done|done].
Qed.

Lemma push_all_spec batch c :
  PQ.heap c -> PQ.heap (PQ.push_all batch c) /\ PQ.push_all batch c ≡ₚ c ++ batch.
Proof.
  revert c; induction batch as [|x batch IH]; intros c Hc; simpl.
  - by rewrite app_nil_r.
  - destruct (push_spec x c Hc) as [Hh Hp].
    destruct (IH _ Hh) as [Hh' Hp']. split; [done|].
    rewrite Hp', Hp. simpl. apply Permutation_middle.
Qed.



(** The fuel of [drain_loop] never runs out before the queue is empty. *)
Lemma drain_loop_top fuel c t :
  PQ.top c = Some t -> PQ.drain_loop (S fuel) c = t :: PQ.drain_loop fuel (PQ.pop c).
Proof. intros Ht. simpl. by rewrite Ht. Qed.

Lemma drain_unfold c t :
  PQ.heap c -> PQ.top c = Some t -> PQ.drain c = t :: PQ.drain (PQ.pop c).
Proof.
  intros Hc Ht. unfold PQ.drain.
  destruct (pop_spec c t Hc Ht) as [_ Hp].
  apply Permutation_length in Hp. simpl in Hp. rewrite Hp.
  by apply drain_loop_top.
Qed.

(* ===================================================================== *)
(** * Facts about the scheduler *)
(* ===================================================================== *)

Lemma step_move rev a s s' :
  Sched.step rev a s = Some s' -> Sched.move rev a s = Some s' /\ Sched.aborted s = false.
Proof. unfold Sched.step. by destruct (Sched.aborted s). Qed.

(** The cases of a step: which thread moves, and where it stands. *)
Ltac step_cases Hs :=
  apply step_move in Hs as [Hs _];
  match type of Hs with Sched.move _ ?a _ = _ => destruct a end; cbn [Sched.move] in Hs;
  unfold Sched.scheduler_init, Sched.shutdown_enter, Sched.shutdown_join, Sched.sweep_step,
    Sched.scheduler_step, Sched.request_enter, Sched.worker_step, Sched.spurious_wakeup in Hs;
  repeat match type of Hs with
         | context [match ?x with _ => _ end] =>
             lazymatch x with
             | context [match _ with _ => _ end] => fail
             | _ => destruct x eqn:?
             end
         end;
  try discriminate Hs; injection Hs as <-.

Section sched_facts.
Import Sched.

(** ** Notifying *)

Lemma wake_all_lookup w W t : wake_all w W !! t = wake w <$> W !! t.
Proof. apply lookup_fmap. Qed.

Lemma wake_blocked w pc :
  wake w pc = pc \/ exists id, pc = WBlocked id w /\ wake w pc = WWait id w.
Proof.
  destruct pc as [| | | |id w'|]; try by left. simpl.
  case_bool_decide as Hw; [|by left]. subst w'. right. by exists id.
Qed.

Lemma wake_all_wakes w W : wakes w W (wake_all w W).
Proof.
  intros t. rewrite wake_all_lookup. destruct (W !! t) as [pc|] eqn:Hpc; [|by left].
  simpl. destruct (wake_blocked w pc) as [->|(id & -> & ->)]; [by left|right; by exists id].
Qed.

Lemma wake_one_wakes w W : wakes w W (wake_one w W).
Proof.
  intros t. unfold wake_one. destruct (blocked_on w W) as [|t0 ?]; [by left|].
  destruct (decide (t = t0)) as [->|Hne]; [|left; by rewrite lookup_alter_ne].
  rewrite lookup_alter_eq. destruct (W !! t0) as [pc|] eqn:Hpc; [|by left].
  simpl. destruct (wake_blocked w pc) as [->|(id & -> & ->)]; [by left|right; by exists id].
Qed.

(** A notify changes no thread's waiter and wakes no thread out of
    [cv.wait]. *)
Lemma wakes_lookup w W W' t pc' :
  wakes w W W' -> W' !! t = Some pc' ->
  exists pc, W !! t = Some pc /\
    (pc = pc' \/ exists id, pc = WBlocked id w /\ pc' = WWait id w).
Proof.
  intros Hw Hk. destruct (Hw t) as [Heq|(id & H1 & H2)].
  - exists pc'. split; [by rewrite <- Heq|by left].
  - exists (WBlocked id w). split; [done|]. right. exists id. split; [done|congruence].
Qed.

Lemma wakes_back w W W' t pc :
  wakes w W W' -> W !! t = Some pc ->
  exists pc', W' !! t = Some pc' /\
    (pc = pc' \/ exists id, pc = WBlocked id w /\ pc' = WWait id w).
Proof.
  intros Hw Hk. destruct (Hw t) as [Heq|(id & H1 & H2)].
  - exists pc. split; [by rewrite Heq|by left].
  - exists (WWait id w). split; [done|]. right. exists id. split; [congruence|done].
Qed.

Lemma move_silent s s' :
  scheduler_queue s' = scheduler_queue s -> g_epoch_state s' = g_epoch_state s ->
  trace s' = trace s -> queue_move s s'.
Proof. intros. apply (move_other s s' []); by rewrite ?app_nil_r. Qed.

(** [clear()] on a map that owns its waiters touches the waiters and the
    trace only. *)
Lemma sweep_destroy_frame t entries s :
  let s' := foldl (fun s (e : N * N) => destroy (HostThread t) e.2 s) s entries in
  scheduler_queue s' = scheduler_queue s /\ g_epoch_state s' = g_epoch_state s /\
  scheduler_thread s' = scheduler_thread s /\ scheduler_running s' = scheduler_running s /\
  workers s' = workers s /\ pending_requests s' = pending_requests s /\
  joining s' = joining s /\ sweeping s' = sweeping s /\ trx_wait_map s' = trx_wait_map s /\
  trace s' = trace s ++ map (fun e : N * N => EvDestroy (HostThread t) e.2) entries.
Proof.
  revert s; induction entries as [|e entries IH]; intros s; simpl.
  - by rewrite app_nil_r.
  - destruct (IH (destroy (HostThread t) e.2 s))
      as (-> & -> & -> & -> & -> & -> & -> & -> & -> & ->).
    simpl. by rewrite <- app_assoc.
Qed.

Lemma pops_destroys {A} (f : A -> thread * N) (l : list A) :
  pops (map (fun e => EvDestroy (f e).1 (f e).2) l) = [] /\
  batches (map (fun e => EvDestroy (f e).1 (f e).2) l) = [].
Proof. induction l; simpl; [done|]. unfold pops, batches in *. simpl. done. Qed.

Lemma pops_app t1 t2 : pops (t1 ++ t2) = pops t1 ++ pops t2.
Proof. apply omap_app. Qed.

Lemma batches_app t1 t2 : batches (t1 ++ t2) = batches t1 ++ batches t2.
Proof. apply omap_app. Qed.

Lemma step_queue_move rev a s s' : step rev a s = Some s' -> queue_move s s'.
Proof.
  intros Hs. step_cases Hs.
  all: try (apply move_silent; unfold init_rng, read_epoch_ms; simpl;
            repeat (case_match; simpl); done).
  all: try (eapply move_other; simpl; rewrite <- ?app_assoc; done).
  all: try (eapply move_pop; simpl; rewrite <- ?app_assoc; done).
  - match goal with H : sweeping s = Some (?n, _) |- _ =>
      pose proof (sweep_destroy_frame n (map_to_list (trx_wait_map s)) s)
        as (Hq & He & _ & _ & _ & _ & _ & _ & _ & Ht);
      pose proof (pops_destroys (fun e : N * N => (HostThread n, e.2))
                    (map_to_list (trx_wait_map s))) as [Hp Hb]
    end.
    eapply move_other; simpl; [exact Hq|exact He|exact Ht|exact Hp|exact Hb].
  - by apply move_drained.
  - by eapply move_collect.
Qed.

Lemma step_pc_inv rev a s s' : step rev a s = Some s' -> pc_inv s -> pc_inv s'.
Proof.
  intros Hs. unfold pc_inv. step_cases Hs; simpl; try done.
  all: try (intros H; match goal with E : scheduler_thread _ = _ |- _ => by rewrite E in H end).

  match goal with H : sweeping s = Some (?n, _) |- _ =>
    pose proof (sweep_destroy_frame n (map_to_list (trx_wait_map s)) s)
      as (_ & He & Hth & _)
  end.
  simpl in *. by rewrite Hth, He.
Qed.

Lemma scan_quiet acc evs : pops evs = [] -> batches evs = [] -> foldl scan acc evs = acc.
Proof.
  revert acc; induction evs as [|e evs IH]; intros acc Hp Hb; [done|].
  destruct e; unfold pops, batches in *; simpl in *; try done; by apply IH.
Qed.

Lemma last_batch_app t evs : last_batch (t ++ evs) = foldl scan (last_batch t) evs.
Proof. unfold last_batch. apply foldl_app. Qed.

Lemma top_None c : PQ.top c = None -> c = [].
Proof. by destruct c. Qed.

Lemma queue_inv_initial : queue_inv initial.
Proof. split_and!; [apply heap_nil|done..]. Qed.

Lemma queue_inv_move s s' : queue_move s s' -> pc_inv s -> queue_inv s -> queue_inv s'.
Proof.
  intros Hm Hpc (Hheap & Hcol & Hperm & Hlast). unfold queue_inv.
  destruct Hm as [evs Hq He Ht Hp Hb|b Hth Hq He Ht|e evs Htop Hq He Ht Hp Hb|Htop Hq He Ht];
    rewrite Hq, He, Ht, ?pops_app, ?batches_app, ?last_batch_app.
  - rewrite (scan_quiet _ evs Hp Hb). rewrite Hp. rewrite Hb. rewrite !app_nil_r. done.
  - unfold pc_inv in Hpc. rewrite Hth in Hpc. rewrite (Hcol Hpc) in *.
    destruct (push_all_spec b [] heap_nil) as [Hh Hpb]. simpl in Hpb.
    split_and!; [done|done| |done].
    change (pops [EvCollect b]) with (@nil TrxPriority).
    change (batches [EvCollect b]) with [b].
    rewrite concat_app. simpl. rewrite !app_nil_r in *.
    by rewrite Hperm, Hpb.
  - destruct (pop_spec _ _ Hheap Htop) as [Hh Hpp].
    split_and!; [done| | |].
    + intros Hc. rewrite (Hcol Hc) in Htop. done.
    + change (pops (EvPop e :: evs)) with (e :: pops evs).
      change (batches (EvPop e :: evs)) with (batches evs).
      rewrite Hp, Hb, !app_nil_r.
      rewrite Hperm, <- app_assoc. by apply Permutation_app_head.
    + simpl. rewrite (scan_quiet _ evs Hp Hb). simpl.
      destruct (last_batch (trace s)) as [[b ps]|].
      * rewrite Hlast, (drain_unfold _ e) by done. rewrite <- app_assoc. reflexivity.
      * rewrite Hlast in Htop. discriminate Htop.
  - apply top_None in Htop. rewrite Htop in *.
    change (pops [EvDrained]) with (@nil TrxPriority).
    change (batches [EvDrained]) with (@nil (list TrxPriority)).
    simpl. rewrite !app_nil_r in *. done.
Qed.

Lemma reachable_pc_inv rev s : reachable rev s -> pc_inv s.
Proof. induction 1 as [|s a s' _ IH Hs]; [done|]. by eapply step_pc_inv. Qed.

Lemma reachable_queue_inv rev s : reachable rev s -> queue_inv s.
Proof.
  induction 1 as [|s a s' Hr IH Hs]; [apply queue_inv_initial|].
  eapply queue_inv_move; [by eapply step_queue_move|by eapply reachable_pc_inv|done].
Qed.

Lemma run_reachable rev acts s s' :
  reachable rev s -> run rev acts s = Some s' -> reachable rev s'.
Proof.
  revert s; induction acts as [|a acts IH]; intros s Hr; simpl.
  - by intros [= <-].
  - destruct (step rev a s) as [s1|] eqn:Hs; [|done]. simpl.
    apply IH. by eapply reachable_step.
Qed.







Lemma pushes_app t1 t2 : pushes (t1 ++ t2) = pushes t1 ++ pushes t2.
Proof. apply omap_app. Qed.

Lemma swaps_app t1 t2 : swaps (t1 ++ t2) = swaps t1 ++ swaps t2.
Proof. apply omap_app. Qed.


Lemma fifo_destroys {A} (f : A -> thread * N) (l : list A) :
  pushes (map (fun e => EvDestroy (f e).1 (f e).2) l) = [] /\
  swaps (map (fun e => EvDestroy (f e).1 (f e).2) l) = [].
Proof. by induction l. Qed.


Lemma fifo_silent s s' :
  pending_requests s' = pending_requests s -> trace s' = trace s ->
  (forall b, scheduler_thread s' = SCollected b -> scheduler_thread s = SCollected b) ->
  fifo_move s s'.
Proof. intros. apply (fifo_other s s' []); by rewrite ?app_nil_r. Qed.

Lemma step_fifo_move rev a s s' : step rev a s = Some s' -> fifo_move s s'.
Proof.
  intros Hs. step_cases Hs.
  all: try (apply fifo_silent; unfold init_rng, read_epoch_ms; simpl;
            repeat (case_match; simpl); done).
  all: try (eapply fifo_other; simpl; rewrite <- ?app_assoc; done).
  - match goal with H : sweeping s = Some (?n, _) |- _ =>
      pose proof (sweep_destroy_frame n (map_to_list (trx_wait_map s)) s)
        as (_ & _ & Hth & _ & _ & Hpd & _ & _ & _ & Ht);
      pose proof (fifo_destroys (fun e : N * N => (HostThread n, e.2))
                    (map_to_list (trx_wait_map s))) as [Hp Hb];
      pose proof (pops_destroys (fun e : N * N => (HostThread n, e.2))
                    (map_to_list (trx_wait_map s))) as [_ Hbt]
    end.
    eapply fifo_other; simpl; [exact Hpd|exact Ht|exact Hp|exact Hb|exact Hbt|].
    intros b. simpl in *. by rewrite Hth.
  - by eapply fifo_swap.
  - by eapply fifo_collect.
  - by eapply fifo_push.
Qed.

Lemma swapped_last_app b t evs :
  swaps evs = [] -> batches evs = [] -> swapped_last b t -> swapped_last b (t ++ evs).
Proof.
  intros Hs Hb (t0 & t0' & -> & Hp & Hs' & Hb').
  exists t0, (t0' ++ evs). rewrite swaps_app, batches_app, Hs, Hb, Hs', Hb'.
  by rewrite <- app_assoc.
Qed.

Lemma fifo_inv_initial : fifo_inv initial.
Proof. by split. Qed.

Lemma fifo_inv_move s s' : fifo_move s s' -> fifo_inv s -> fifo_inv s'.
Proof.
  intros Hm [Hp Hc]. destruct Hm as [evs Hpd Ht Hpu Hsw Hba Hpc|t e Hpd Ht Hpc|b Hb Hpd Ht Hpc|b Hth Hpd Ht Hpc].
  - split.
    + by rewrite Ht, pushes_app, swaps_app, Hpu, Hsw, Hpd, !app_nil_r.
    + intros b Hb. rewrite Ht. apply swapped_last_app; auto.
  - split.
    + rewrite Ht, pushes_app, swaps_app, Hpd, Hp. simpl. by rewrite app_nil_r, app_assoc.
    + intros b Hb. rewrite Ht. apply swapped_last_app; [done..|]. apply Hc. by rewrite <- Hpc.
  - split.
    + rewrite Ht, pushes_app, swaps_app, Hpd, Hp, Hb. simpl.
      rewrite concat_app. simpl. by rewrite !app_nil_r.
    + intros b' Hb'. rewrite Hpc in Hb'. injection Hb' as <-.
      exists (trace s), []. by rewrite Hp, Hb.
  - split.
    + rewrite Ht, pushes_app, swaps_app, Hpd. simpl. by rewrite !app_nil_r.
    + intros b' Hb'. by rewrite Hpc in Hb'.
Qed.

Lemma reachable_fifo_inv rev s : reachable rev s -> fifo_inv s.
Proof.
  induction 1 as [|s a s' Hr IH Hs]; [apply fifo_inv_initial|].
  eapply fifo_inv_move; [by eapply step_fifo_move|done].
Qed.



(** ** Every pop is dealt with before the next *)










(** ** A release is the write of the flag *)




End sched_facts.

(* ===================================================================== *)
(** * The claims about the scheduler *)
(* ===================================================================== *)

Section sched_claims.
Import Sched.

(** C1, at the failing schedule.  A worker has pushed its entry to the
    pending FIFO and has not yet inserted its waiter into the map; the
    scheduler thread swaps the FIFO out, moves the batch into the priority
    queue and pops the entry: the map has no entry for its id and the
    branch that asserts ``Scheduler found a transaction ID with no waiter
    info'' is taken.  In [src/scheduler.cpp], which has no assertion
    there, the worker then registers and parks, with nothing left in
    either queue that would release it.  In the revised scheduler the
    assertion fails and the process is aborted: no thread moves again. *)
Theorem no_waiter_branch_reachable rev :
  exists s, run rev Scenario.late_pop initial = Some s /\
            EvNoWaiter 1 ∈ trace s /\ workers s !! 1 = Some (WRegister 1 100) /\
            pending_requests s = [] /\ scheduler_queue s = [] /\
            match rev with
            | MapOwnsWaiter =>
                exists s', run rev Scenario.late_registration initial = Some s' /\
                           EvNoWaiter 1 ∈ trace s' /\ parked 1 s' /\
                           pending_requests s' = [] /\ scheduler_queue s' = []
            | WorkerOwnsWaiter =>
                scheduler_thread s = SAborted /\ forall a, step rev a s = None
            end.
Proof.
  destruct rev; eexists; (split; [vm_compute; reflexivity|]).
  - split_and!; [|done..|].
    + cbn; apply list_elem_of_In; cbn; tauto.
    + eexists. split; [vm_compute; reflexivity|].
      split_and!; [|by exists (WWait 1 100), 1%N, 100%N|done|done].
      cbn; apply list_elem_of_In; cbn; tauto.
  - split_and!; [|done..].
    cbn; apply list_elem_of_In; cbn; tauto.
Qed.

(** The specification's example: priorities 50, 10, 90, 30 leave the queue
    as 10, 30, 50, 90. *)
Example release_order_spec_batch :
  PQ.release_order Scenario.spec_batch = [(10%Z, 2%N); (30%Z, 4%N); (50%Z, 1%N); (90%Z, 3%N)].
Proof. reflexivity. Qed.







(** C8 fails for a release by the scheduler thread as well, when two
    threads ask under one id.  Thread 2 pushes its entry after the FIFO
    was swapped out for thread 1's epoch and registers its waiter over the
    map entry of thread 1; the pop of thread 1's entry then releases
    thread 2, whose own entry is still in the pending FIFO. *)
Lemma shared_id_release_ignores_epochs :
  exists s, run WorkerOwnsWaiter Scenario.shared_id initial = Some s /\
            trace s =
              [ EvNew 1 9 100; EvPush 1 (20%Z, 9%N); EvRegister 1 9 100;
                EvSwap [(20%Z, 9%N)];
                EvNew 2 9 101; EvPush 2 (10%Z, 9%N); EvRegister 2 9 101;
                EvCollect [(20%Z, 9%N)]; EvPop (20%Z, 9%N);
                EvRelease SchedulerThread 9 101 ] /\
            pending_requests s = [(10%Z, 9%N)] /\
            waiters s !! 100%N = Some {| is_ready := false |} /\
            waiters s !! 101%N = Some {| is_ready := true |}.
Proof. eexists. split; [vm_compute; reflexivity|]. by vm_compute. Qed.



(** C4, at the failing schedule.  A worker has pushed its entry and has not
    yet inserted its waiter into the map when [scheduler_shutdown] joins the
    scheduler thread and sweeps the map.  The sweep finds nothing; the
    worker then registers, finds its flag down and blocks.
    [scheduler_shutdown] has returned, the map is not empty and a thread
    is blocked in [scheduler_request]. *)
Theorem worker_parked_after_shutdown rev :
  exists s, run rev Scenario.shutdown_overtakes_worker initial = Some s /\
            scheduler_running s = false /\ joining s = None /\ sweeping s = None /\
            scheduler_thread s = SNoThread /\
            trx_wait_map s !! 1%N = Some 100%N /\ parked 1 s /\
            workers s !! 1 = Some (WBlocked 1 100).
Proof.
  destruct rev; eexists; (split; [vm_compute; reflexivity|]);
    (split_and!; [done..|by exists (WBlocked 1 100), 1%N, 100%N|done]).
Qed.

(** C5, at the failing input, in the revision of [src/scheduler.cpp] whose
    map owns the waiters: the scheduler thread signals the waiter and then
    destroys it, while the requesting thread is still inside [cv.wait] on
    that waiter. *)
Theorem scheduler_thread_destroys_waiter :
  exists s, run MapOwnsWaiter Scenario.one_request initial = Some s /\
            destroys (trace s) = [(SchedulerThread, 100%N)] /\
            workers s !! 1 = Some (WWait 1 100) /\
            waiters s !! 100%N = None.
Proof. eexists. split; [vm_compute; reflexivity|]. by vm_compute. Qed.

End sched_claims.

(* ===================================================================== *)
(** * What does hold of shutdown and of the waiters' lifetime *)
(* ===================================================================== *)

Section sched_more.
Import Sched.

(** A thread that moves on inside [cv.wait] stays parked, and so does
    every other thread. *)
Lemma parked_insert s t pc pc' t' :
  workers s !! t = Some pc -> waits_on pc' = waits_on pc ->
  parked t' s -> parked t' (set_workers (<[t := pc']> (workers s)) s).
Proof.
  intros Ht Hw (pc0 & id & w & Hk & Hon & Hf). unfold parked. cbn [workers waiters set_workers].
  destruct (decide (t' = t)) as [->|Hne].
  - exists pc', id, w. rewrite lookup_insert_eq. split_and!; [done| |done]. congruence.
  - exists pc0, id, w. by rewrite lookup_insert_ne.
Qed.

(** Once the scheduler is stopped and joined with no flag up, a parked
    thread stays parked whatever the other threads do, until
    [scheduler_init] is called again. *)
Lemma abandoned_step a s s' :
  abandoned s -> ~ is_init a -> step WorkerOwnsWaiter a s = Some s' ->
  abandoned s' /\ (forall t, parked t s -> parked t s').
Proof.
  intros (Hrun & Hth & Hj & Hsw & Hw & Hwk) Hni Hs.
  apply step_move in Hs as [Hs _].
  destruct a as [env|t| | | |t id p w|t|t]; simpl in Hs.
  - by destruct Hni.
  - unfold shutdown_enter in Hs. rewrite Hrun in Hs. injection Hs as <-. by split.
  - unfold shutdown_join in Hs. by rewrite Hj in Hs.
  - unfold sweep_step in Hs. by rewrite Hsw in Hs.
  - unfold scheduler_step in Hs. by rewrite Hth in Hs.
  - unfold request_enter in Hs. case_bool_decide as Hc; [|done]. injection Hs as <-.
    destruct Hc as (Ht & Hfree & _). split.
    + split_and!; [done..| |]; simpl.
      * intros w' x [[<- <-]|[_ Hx]]%lookup_insert_Some; [done|by eapply Hw].
      * intros t' id' w' [[_ [=]]|[_ Hx]]%lookup_insert_Some. by eapply Hwk.
    + intros t' (pc' & id' & w' & Ht' & Hon & Hw'). exists pc', id', w'. simpl.
      rewrite !lookup_insert_ne; [done|congruence|congruence].
  - unfold worker_step in Hs.
    destruct (workers s !! t) as [[id w p|id w|id w|id w|id w|id w]|] eqn:Hpc; try done.
    + injection Hs as <-. split.
      * split_and!; [done..|]. simpl.
        intros t' id' w' [[_ [=]]|[_ Hx]]%lookup_insert_Some. by eapply Hwk.
      * intros t' (pc' & id' & w' & Ht' & Hon & Hw'). exists pc', id', w'. simpl.
        rewrite lookup_insert_ne; [done|]. intros ->. rewrite Hpc in Ht'. by simplify_eq.
    + unfold global_mutex_free in Hs. rewrite Hsw in Hs. injection Hs as <-. split.
      * split_and!; [done..|]. simpl.
        intros t' id' w' [[_ [=]]|[_ Hx]]%lookup_insert_Some. by eapply Hwk.
      * intros t' (pc' & id' & w' & Ht' & Hon & Hw'). exists pc', id', w'. simpl.
        rewrite lookup_insert_ne; [done|]. intros ->. rewrite Hpc in Ht'. by simplify_eq.
    + destruct (waiters s !! w) as [x|] eqn:Hx; [|done].
      destruct (mtx_free w s); [|done]. rewrite (Hw _ _ Hx) in Hs. injection Hs as <-. split.
      * split_and!; [done..|]. simpl.
        intros t' id' w' [[_ [=]]|[_ Hk]]%lookup_insert_Some. by eapply Hwk.
      * intros t'. by apply (parked_insert s t (WWait id w)).
    + destruct (waiters s !! w) as [x|] eqn:Hx; [|done]. injection Hs as <-. split.
      * split_and!; [done..|]. simpl.
        intros t' id' w' [[_ [=]]|[_ Hk]]%lookup_insert_Some. by eapply Hwk.
      * intros t'. by apply (parked_insert s t (WChecked id w)).
    + by destruct (Hwk t id w).
  - unfold spurious_wakeup in Hs.
    destruct (workers s !! t) as [[id w p|id w|id w|id w|id w|id w]|] eqn:Hpc; try done.
    injection Hs as <-. split.
    + split_and!; [done..|]. simpl.
      intros t' id' w' [[_ [=]]|[_ Hk]]%lookup_insert_Some. by eapply Hwk.
    + intros t'. by apply (parked_insert s t (WBlocked id w)).
Qed.

Lemma abandoned_run acts s s' t :
  abandoned s -> Forall (fun a => ~ is_init a) acts ->
  run WorkerOwnsWaiter acts s = Some s' -> parked t s -> parked t s'.
Proof.
  revert s; induction acts as [|a acts IH]; intros s Hab Hni; simpl.
  - by intros [= <-].
  - destruct (step WorkerOwnsWaiter a s) as [s1|] eqn:Hs; [|done]. simpl.
    apply Forall_cons in Hni as [Ha Hni].
    destruct (abandoned_step _ _ _ Hab Ha Hs) as [Hab1 Hp]. intros Hrun Hpk.
    eapply IH; eauto.
Qed.

(** The worker that a shutdown overtakes between its push and its
    registration stays parked for good unless the scheduler is initialised
    again. *)
Lemma parked_for_good acts s s' :
  run WorkerOwnsWaiter Scenario.shutdown_overtakes_worker initial = Some s ->
  Forall (fun a => ~ is_init a) acts ->
  run WorkerOwnsWaiter acts s = Some s' -> parked 1 s'.
Proof.
  intros Hs Hni Hrun.
  assert (Hview : (scheduler_running s, scheduler_thread s, joining s, sweeping s, waiters s,
                   workers s)
                  = (false, SNoThread, None, None, {[100%N := {| is_ready := false |}]},
                     {[1 := WBlocked 1 100]})).
  { apply (inj Some).
    change (Some (scheduler_running s, scheduler_thread s, joining s, sweeping s, waiters s,
                  workers s))
      with ((fun s => (scheduler_running s, scheduler_thread s, joining s, sweeping s,
                       waiters s, workers s)) <$> Some s).
    rewrite <- Hs. vm_compute. reflexivity. }
  injection Hview as Hr Ht Hj Hsw Hw Hk.
  apply (abandoned_run acts s s' 1); [|done|done|].
  - split_and!; [done..| |].
    + intros w x. rewrite Hw. by intros [<- <-]%lookup_singleton_Some.
    + intros t id w. rewrite Hk. by intros [_ [=]]%lookup_singleton_Some.
  - exists (WBlocked 1 100), 1%N, 100%N. by rewrite Hw, Hk, !lookup_singleton_eq.
Qed.

Lemma split_in_app {A} (t evs t1 t2 : list A) x :
  t ++ evs = t1 ++ x :: t2 ->
  (exists t2', t = t1 ++ x :: t2') \/ (exists l, t1 = t ++ l /\ evs = l ++ x :: t2).
Proof.
  intros Heq. apply app_eq_app in Heq as [l [[-> Hl]|[-> Hl]]].
  - destruct l as [|y l]; simpl in Hl.
    + right. exists []. rewrite !app_nil_r. by rewrite <- Hl.
    + injection Hl as <- _. left. by exists l.
  - right. by exists l.
Qed.

Lemma destroys_app t1 t2 : destroys (t1 ++ t2) = destroys t1 ++ destroys t2.
Proof. apply omap_app. Qed.

(** In the revision with worker-owned waiters a step destroys a waiter
    only when a thread that has observed the flag deletes its own. *)
Lemma step_destroy_shape a s s' :
  step WorkerOwnsWaiter a s = Some s' -> woken_inv s ->
  woken_inv s' /\
  exists evs, trace s' = trace s ++ evs /\
    (destroys evs = [] \/
     exists t id w, EvObserve t w ∈ trace s /\ evs = [EvDestroy (HostThread t) w; EvReturn t id]).
Proof.
  intros Hs [Hw Hnd].
  assert (Hkeep : forall s1 evs, trace s1 = trace s ++ evs ->
            (forall t id w, workers s1 !! t = Some (WWoken id w) ->
                            workers s !! t = Some (WWoken id w) \/ EvObserve t w ∈ evs) ->
            forall t id w, workers s1 !! t = Some (WWoken id w) -> EvObserve t w ∈ trace s1).
  { intros s1 evs Ht Hk t id w Hx. rewrite Ht. apply elem_of_app.
    destruct (Hk _ _ _ Hx) as [Hold|Hnew]; [left; by eapply Hw|by right]. }
  assert (Hquiet : forall s1 evs, trace s1 = trace s ++ evs -> destroys evs = [] ->
            (forall t id w, workers s1 !! t = Some (WWoken id w) ->
                            workers s !! t = Some (WWoken id w) \/ EvObserve t w ∈ evs) ->
            (forall w, scheduler_thread s1 <> SDestroy w) ->
            woken_inv s1 /\
            exists evs, trace s1 = trace s ++ evs /\
              (destroys evs = [] \/
               exists t id w, EvObserve t w ∈ trace s /\
                              evs = [EvDestroy (HostThread t) w; EvReturn t id])).
  { intros s1 evs Ht Hd Hk Hp. split; [split; [by eapply Hkeep|done]|].
    exists evs. split; [done|by left]. }
  assert (Hins : forall t pc t' id' w', (forall id w, pc <> WWoken id w) ->
            <[t := pc]> (workers s) !! t' = Some (WWoken id' w') ->
            workers s !! t' = Some (WWoken id' w') \/ EvObserve t' w' ∈ @nil event).
  { intros t pc t' id' w' Hpc [[_ ->]|[_ Hx]]%lookup_insert_Some; [by destruct (Hpc id' w')|].
    by left. }
  assert (Hwake : forall w W' t id' w', wakes w (workers s) W' ->
            W' !! t = Some (WWoken id' w') ->
            workers s !! t = Some (WWoken id' w') \/ EvObserve t w' ∈ @nil event).
  { intros w W' t id' w' Hwk Hx. left.
    destruct (wakes_lookup _ _ _ _ _ Hwk Hx) as (pc & Hk & [->|(id0 & _ & [=])]). done. }
  step_cases Hs.
  all: try (apply (Hquiet _ []); simpl;
            [unfold init_rng, read_epoch_ms; repeat (case_match; simpl); by rewrite ?app_nil_r
            |done
            |intros ???; simpl; unfold init_rng, read_epoch_ms;
             repeat (case_match; simpl); by left
            |intros ?; simpl; unfold init_rng, read_epoch_ms;
             repeat (case_match; simpl); congruence]).
  all: try (eapply Hquiet; simpl;
            [rewrite <- ?app_assoc; reflexivity|done|intros ???; by left
            |intros ?; congruence]).
  all: try (apply (Hquiet _ []); simpl;
            [by rewrite ?app_nil_r|done|intros ???; apply Hins; intros ??; discriminate
            |intros ?; congruence]).
  all: try (match goal with E : scheduler_thread _ = SDestroy ?w |- _ => by destruct (Hnd w) end).
  - eapply Hquiet; simpl; [reflexivity|done| |intros ?; congruence].
    intros ? ? ? Hx.
    destruct (Hwake _ _ _ _ _ (wake_all_wakes w (workers s)) Hx) as [?|[]%elem_of_nil]. by left.
  - eapply Hquiet; simpl; [reflexivity|done| |intros ?; congruence].
    intros ? ? ? Hx.
    destruct (Hwake _ _ _ _ _ (wake_one_wakes w (workers s)) Hx) as [?|[]%elem_of_nil]. by left.
  - eapply Hquiet; simpl; [reflexivity|done| |intros ?; congruence].
    intros ? ? ? Hx. left.
    apply lookup_insert_Some in Hx as [[_ [=]]|[_ Hx]]. done.
  - eapply Hquiet; simpl; [reflexivity|done| |intros ?; congruence].
    intros ? ? ? Hx. left.
    apply lookup_insert_Some in Hx as [[_ [=]]|[_ Hx]]. done.
  - eapply Hquiet; simpl; [reflexivity|done| |intros ?; congruence].
    intros ? ? ? Hx. left.
    apply lookup_insert_Some in Hx as [[_ [=]]|[_ Hx]]. done.
  - eapply Hquiet; simpl; [reflexivity|done| |intros ?; congruence].
    intros ? ? ? [[<- [= <- <-]]|[_ Hx]]%lookup_insert_Some; [right|by left].
    apply list_elem_of_here.
  - match goal with E : workers s !! t = Some (WWoken _ _) |- _ => pose proof (Hw _ _ _ E) as Hobs end.
    split; [split; [|done]|].
    + intros t' id' w' Hx. simpl in Hx. apply lookup_delete_Some in Hx as [_ Hx].
      simpl. rewrite <- app_assoc. apply elem_of_app. left. by eapply Hw.
    + eexists. simpl. rewrite <- app_assoc. split; [reflexivity|]. right. by eexists _, _, _.
Qed.

Lemma reachable_woken_inv s : reachable WorkerOwnsWaiter s -> woken_inv s.
Proof.
  induction 1 as [|s a s' _ IH Hs].
  - split; [|done]. intros t id w Hx. cbn in Hx. by rewrite lookup_empty in Hx.
  - by destruct (step_destroy_shape _ _ _ Hs IH).
Qed.

(** The part of C5 that holds in the revision with worker-owned waiters:
    whoever destroys a waiter is a host thread that has observed the
    waiter's flag before; the scheduler thread never destroys one. *)
Lemma worker_destroys_after_observing acts s t1 by_ w t2 :
  run WorkerOwnsWaiter acts initial = Some s ->
  trace s = t1 ++ EvDestroy by_ w :: t2 ->
  exists t, by_ = HostThread t /\ EvObserve t w ∈ t1.
Proof.
  intros Hrun.
  pose proof (run_reachable _ acts initial s (reachable_initial _) Hrun) as Hr.
  clear Hrun. revert t1 t2. induction Hr as [|s a s' Hr IH Hs]; intros t1 t2 Ht.
  - by destruct t1.
  - destruct (step_destroy_shape _ _ _ Hs (reachable_woken_inv _ Hr))
      as (_ & evs & Hev & Hshape).
    rewrite Hev in Ht. apply split_in_app in Ht as [[t2' Ht]|(l & -> & Hl)].
    + by eapply IH.
    + destruct Hshape as [Hd|(t & id & w0 & Hobs & ->)].
      * rewrite Hl, destroys_app in Hd. apply app_eq_nil in Hd as [_ Hd]. discriminate Hd.
      * destruct l as [|x [|y l]]; simplify_eq/=.
        -- exists t. split; [done|]. by rewrite app_nil_r.
        -- by destruct l.
Qed.

End sched_more.

(* ===================================================================== *)
(** * Facts about the registry *)
(* ===================================================================== *)

Section registry_facts.
Import Lib.

Lemma new_address_fresh (live : gmap N IsoFuzzTrxImpl) :
  new_address live <> 0%N /\ live !! new_address live = None.
Proof.
  unfold new_address.
  pose proof (is_fresh ({[0%N]} ∪ dom live)) as Hf.
  split.
  - intros Heq. apply Hf. rewrite Heq. set_solver.
  - apply not_elem_of_dom. set_solver.
Qed.

Lemma get_trx_nonnull h : h <> 0%N -> get_trx h = Some h.
Proof. intros Hh. unfold get_trx. by rewrite bool_decide_eq_false_2. Qed.

Lemma registry_wf_initial : registry_wf initial_ctx.
Proof. split; [intros a trx|intros id a]; simpl; by rewrite lookup_empty. Qed.

(** What [begin_trx] does when the counter does not wrap. *)
Lemma begin_trx_spec t c :
  registry_wf c -> (next_lib_id c + 1 < 2 ^ 64)%N ->
  let h := (begin_trx t c).1 in
  let c' := (begin_trx t c).2 in
  h <> 0%N /\ records c !! h = None /\
  records c' = <[h := {| lib_id := next_lib_id c; dbms_id := 0; thread_id := t |}]> (records c) /\
  m_transactions c' = <[next_lib_id c := h]> (m_transactions c) /\
  next_lib_id c' = (next_lib_id c + 1)%N /\
  registry_wf c'.
Proof.
  intros [HA HC] Hb. unfold begin_trx. cbn [fst snd]. cbv zeta.
  destruct (new_address_fresh (records c)) as [Hnz Hfresh].
  assert (Hnone : m_transactions c !! next_lib_id c = None).
  { destruct (m_transactions c !! next_lib_id c) as [a|] eqn:Ha; [|done].
    apply HC in Ha. lia. }
  rewrite Hnone. cbn [records m_transactions next_lib_id].
  assert (Hmod : ((next_lib_id c + 1) mod 2 ^ 64 = next_lib_id c + 1)%N)
    by (by apply N.mod_small).
  split_and!; [done..| |]; [done|]. split; cbn [records m_transactions next_lib_id].
  - intros a trx [[<- <-]|[Hne Ha]]%lookup_insert_Some; cbn [lib_id].
    + by rewrite lookup_insert_eq.
    + pose proof (HA _ _ Ha) as Hm. pose proof (HC _ _ Hm) as Hlt.
      rewrite lookup_insert_ne by lia. done.
  - intros id a [[<- <-]|[Hne Ha]]%lookup_insert_Some; [lia|].
    apply HC in Ha. lia.
Qed.

Lemma log_generic_op_ctx t h op obj lw s s' :
  log_generic_op t h op obj lw s = Done s' -> ctx s' = ctx s.
Proof.
  unfold log_generic_op. destruct (get_trx h); [|by intros [= <-]].
  destruct (records (ctx s) !! n); [|done]. by intros [= <-].
Qed.

Lemma bind_Done {A B} (m : outcome A) (k : A -> outcome B) b :
  bind m k = Done b -> exists a, m = Done a /\ k a = Done b.
Proof. destruct m; simpl; [by eexists|done..]. Qed.

Lemma of_option_Done {A} (o : option A) a : of_option o = Done a -> o = Some a.
Proof. destruct o; simpl; by intros [= <-]. Qed.

Lemma exec_effect rev c s s' : exec rev c s = Done s' -> effect rev c s = Done s'.
Proof. unfold exec. by destruct (Sched.aborted (sched s)). Qed.

(** A call keeps the registry well-formed, and it keeps every record it
    does not end: the record stays at its address with the same [lib_id]
    and the same [thread_id], and with the same [dbms_id] unless the call
    promotes it. *)
Lemma exec_registry rev c s s' :
  exec rev c s = Done s' -> registry_wf (ctx s) -> (next_lib_id (ctx s) + 1 < 2 ^ 64)%N ->
  registry_wf (ctx s') /\ (next_lib_id (ctx s') <= next_lib_id (ctx s) + 1)%N /\
  forall h trx, records (ctx s) !! h = Some trx -> ~ ends h c ->
    exists trx', records (ctx s') !! h = Some trx' /\ lib_id trx' = lib_id trx /\
                 thread_id trx' = thread_id trx /\
                 (~ promotes h c -> dbms_id trx' = dbms_id trx).
Proof.
  intros Hex Hwf Hb.
  assert (Hsame : ctx s' = ctx s ->
    registry_wf (ctx s') /\ (next_lib_id (ctx s') <= next_lib_id (ctx s) + 1)%N /\
    forall h trx, records (ctx s) !! h = Some trx -> ~ ends h c ->
      exists trx', records (ctx s') !! h = Some trx' /\ lib_id trx' = lib_id trx /\
                   thread_id trx' = thread_id trx /\
                   (~ promotes h c -> dbms_id trx' = dbms_id trx)).
  { intros ->. split_and!; [done|lia|]. intros h trx Hh _. by exists trx. }
  apply exec_effect in Hex.
  destruct c as [env fs|t| | |t|t h'|t h' new_id|t h'|t h' intent p w|t h' op obj lw| |t|t];
    simpl in Hex.
  - apply Hsame. unfold isofuzz_init in Hex.
    apply bind_Done in Hex as (x & _ & [= <-]). done.
  - apply Hsame. unfold isofuzz_shutdown_enter in Hex.
    destruct (Sched.scheduler_running (sched s)); [|by injection Hex as <-].
    apply bind_Done in Hex as (x & _ & [= <-]). done.
  - apply Hsame. apply bind_Done in Hex as (x & _ & [= <-]). done.
  - apply Hsame. unfold isofuzz_shutdown_sweep in Hex.
    apply bind_Done in Hex as (x & _ & Hex). by destruct (Sched.sweeping x); injection Hex as <-.
  - apply bind_Done in Hex as ([h0 s0] & Hbeg & [= <-]). cbn [snd].
    unfold isofuzz_trx_begin in Hbeg.
    destruct (begin_trx_spec t (ctx s) Hwf Hb) as (Hnz & Hfresh & Hrec & Hmap & Hnext & Hwf').
    destruct (begin_trx t (ctx s)) as [h1 c1] eqn:Hbt. cbn [fst snd] in *.
    rewrite bool_decide_eq_false_2 in Hbeg by done.
    apply bind_Done in Hbeg as (s2 & Hlog & [= <- <-]).
    apply log_generic_op_ctx in Hlog. cbn [ctx set_ctx] in Hlog. rewrite Hlog.
    split_and!; [done|lia|]. intros h trx Hh _. exists trx.
    rewrite Hrec, lookup_insert_ne by congruence. done.
  - apply Hsame. unfold isofuzz_trx_commit in Hex.
    case_bool_decide; [by injection Hex as <-|]. by eapply log_generic_op_ctx.
  - unfold isofuzz_trx_promote in Hex.
    destruct (get_trx h') as [p|] eqn:Hg; [|by apply Hsame; injection Hex as <-].
    unfold get_trx in Hg. case_bool_decide; [done|]. injection Hg as <-.
    destruct (records (ctx s) !! h') as [trx0|] eqn:Hh'; [|done].
    apply log_generic_op_ctx in Hex. cbn [ctx set_ctx] in Hex. rewrite Hex.
    cbn [records m_transactions next_lib_id]. destruct Hwf as [HA HC].
    split_and!; [split| |]; cbn [records m_transactions next_lib_id].
    + intros a trx [[<- <-]|[Hne Ha]]%lookup_insert_Some; cbn [lib_id]; by apply HA.
    + done.
    + lia.
    + intros h trx Hh _. destruct (decide (h = h')) as [->|Hne].
      * rewrite lookup_insert_eq. eexists. split_and!; [done|cbn; congruence..|].
        intros Hnp. by destruct Hnp.
      * rewrite lookup_insert_ne by done. by exists trx.
  - unfold isofuzz_trx_end in Hex. apply bind_Done in Hex as (c1 & Hend & [= <-]).
    cbn [ctx set_ctx]. unfold end_trx in Hend.
    case_bool_decide as Hnull; [by apply Hsame; injection Hend as <-|].
    destruct (records (ctx s) !! h') as [trx0|] eqn:Hh'; [|done].
    injection Hend as <-. destruct Hwf as [HA HC].
    rewrite (HA _ _ Hh'). cbn [records m_transactions next_lib_id].
    split_and!; [split| |]; cbn [records m_transactions next_lib_id].
    + intros a trx [Hne Ha]%lookup_delete_Some.
      rewrite lookup_delete_ne; [by apply HA|].
      intros Heq. pose proof (HA _ _ Ha) as Hm. rewrite <- Heq, (HA _ _ Hh') in Hm. congruence.
    + intros id a [_ Ha]%lookup_delete_Some. by eapply HC.
    + lia.
    + intros h trx Hh Hne. simpl in Hne. exists trx.
      rewrite lookup_delete_ne by congruence. done.
  - apply Hsame. unfold isofuzz_schedule_op in Hex.
    destruct (get_trx h'); [|by injection Hex as <-].
    destruct (records (ctx s) !! n); [|done].
    apply bind_Done in Hex as (x & _ & [= <-]). done.
  - apply Hsame. unfold isofuzz_log_op in Hex. by eapply log_generic_op_ctx.
  - apply Hsame. apply bind_Done in Hex as (x & _ & [= <-]). done.
  - apply Hsame. apply bind_Done in Hex as (x & _ & [= <-]). done.
  - apply Hsame. apply bind_Done in Hex as (x & _ & [= <-]). done.
Qed.

Lemma run_registry rev calls s s' :
  run rev calls s = Done s' -> registry_wf (ctx s) ->
  (next_lib_id (ctx s) + N.of_nat (length calls) < 2 ^ 64)%N ->
  registry_wf (ctx s') /\
  (next_lib_id (ctx s') <= next_lib_id (ctx s) + N.of_nat (length calls))%N /\
  forall h trx, records (ctx s) !! h = Some trx -> Forall (fun c => ~ ends h c) calls ->
    exists trx', records (ctx s') !! h = Some trx' /\ lib_id trx' = lib_id trx /\
                 thread_id trx' = thread_id trx /\
                 (Forall (fun c => ~ promotes h c) calls -> dbms_id trx' = dbms_id trx).
Proof.
  revert s; induction calls as [|c calls IH]; intros s Hrun Hwf Hb.
  - injection Hrun as <-. split_and!; [done|simpl; lia|]. intros h trx Hh _. by exists trx.
  - cbn [run] in Hrun. apply bind_Done in Hrun as (s1 & Hex & Hrun).
    cbn [length] in Hb.
    destruct (exec_registry _ _ _ _ Hex Hwf ltac:(lia)) as (Hwf1 & Hn1 & Hkeep1).
    destruct (IH _ Hrun Hwf1 ltac:(lia)) as (Hwf2 & Hn2 & Hkeep2).
    split_and!; [done|cbn [length]; lia|].
    intros h trx Hh [Hc Hcs]%Forall_cons.
    destruct (Hkeep1 _ _ Hh Hc) as (trx1 & Hh1 & Hl1 & Ht1 & Hd1).
    destruct (Hkeep2 _ _ Hh1 Hcs) as (trx2 & Hh2 & Hl2 & Ht2 & Hd2).
    exists trx2. split_and!; [done|congruence..|].
    intros [Hp Hps]%Forall_cons. rewrite Hd2, Hd1 by done. done.
Qed.

Lemma log_generic_op_live t h op obj lw s trx :
  h <> 0%N -> records (ctx s) !! h = Some trx ->
  log_generic_op t h op obj lw s =
  Done (set_logger (Logger.logger_log_line (log_line trx op obj lw) (logger s)) s).
Proof. intros Hh Hr. unfold log_generic_op. by rewrite get_trx_nonnull, Hr. Qed.

(** What [isofuzz_trx_begin] does when the counter does not wrap. *)
Lemma isofuzz_trx_begin_spec t s h s1 :
  registry_wf (ctx s) -> (next_lib_id (ctx s) + 1 < 2 ^ 64)%N ->
  isofuzz_trx_begin t s = Done (h, s1) ->
  let trx := {| lib_id := next_lib_id (ctx s); dbms_id := 0; thread_id := t |} in
  h <> 0%N /\ records (ctx s1) !! h = Some trx /\ registry_wf (ctx s1) /\
  next_lib_id (ctx s1) = (next_lib_id (ctx s) + 1)%N /\
  logger s1 = Logger.logger_log_line (log_line trx TXN_BEGIN None 0) (logger s).
Proof.
  intros Hwf Hb Hbeg. unfold isofuzz_trx_begin in Hbeg.
  destruct (begin_trx_spec t (ctx s) Hwf Hb) as (Hnz & Hfresh & Hrec & Hmap & Hnext & Hwf').
  destruct (begin_trx t (ctx s)) as [h1 c1] eqn:Hbt. cbn [fst snd] in *.
  rewrite bool_decide_eq_false_2 in Hbeg by done.
  apply bind_Done in Hbeg as (s2 & Hlog & [= <- <-]).
  erewrite log_generic_op_live in Hlog; [|done|].
  2:{ cbn [ctx set_ctx]. rewrite Hrec. apply lookup_insert_eq. }
  injection Hlog as <-. cbn [ctx logger set_logger set_ctx].
  split_and!; [done| |done..]. rewrite Hrec. apply lookup_insert_eq.
Qed.

End registry_facts.

(* ===================================================================== *)
(** * The claims about the registry, the log lines and the life cycle *)
(* ===================================================================== *)

Section lib_claims.
Import Lib.




(** C6, as stated, fails for a handle that is not null and not in the
    registry: after [trx_end] the record behind the handle is destroyed,
    and every entry point still dereferences the handle. *)
Lemma stale_handle_is_dereferenced :
  exists s1 s,
    isofuzz_trx_begin 7 initial = Done (1%N, s1) /\
    isofuzz_trx_end 7 1 s1 = Done s /\
    records (ctx s) !! 1%N = None /\ m_transactions (ctx s) !! 1%N = None /\
    isofuzz_log_op 7 1 READ Scenario.sample_object 0 s = Undefined /\
    isofuzz_trx_promote 7 1 9999 s = Undefined /\
    isofuzz_trx_commit 7 1 s = Undefined /\
    isofuzz_trx_end 7 1 s = Undefined /\
    isofuzz_schedule_op 7 1 INTENT_OP_READ 50 100 s = Undefined.
Proof.
  eexists _, _. split; [vm_compute; reflexivity|]. split; [vm_compute; reflexivity|].
  by vm_compute.
Qed.

(** C6, amended.  With the null handle every entry point that takes a
    handle returns at once and changes nothing: no record, no line, no
    request. *)
Theorem null_handle_is_noop t new_id intent p w op object lw s :
  isofuzz_trx_promote t 0 new_id s = Done s /\
  isofuzz_trx_commit t 0 s = Done s /\
  isofuzz_trx_end t 0 s = Done s /\
  isofuzz_schedule_op t 0 intent p w s = Done s /\
  isofuzz_log_op t 0 op object lw s = Done s.
Proof.
  split_and!; try reflexivity.
  unfold isofuzz_trx_end, end_trx. simpl. by destruct s.
Qed.

(** A handle that is not null is never checked against the registry: when
    no live record is behind it, every entry point is undefined. *)
Lemma dangling_handle_is_undefined t h new_id intent p w op object lw s :
  h <> 0%N -> records (ctx s) !! h = None ->
  isofuzz_trx_promote t h new_id s = Undefined /\
  isofuzz_trx_commit t h s = Undefined /\
  isofuzz_trx_end t h s = Undefined /\
  isofuzz_schedule_op t h intent p w s = Undefined /\
  isofuzz_log_op t h op object lw s = Undefined.
Proof.
  intros Hh Hr.
  unfold isofuzz_trx_promote, isofuzz_trx_commit, isofuzz_trx_end, end_trx,
    isofuzz_schedule_op, isofuzz_log_op, log_generic_op.
  rewrite !get_trx_nonnull, !Hr, !bool_decide_eq_false_2 by done. done.
Qed.

(** C7, as stated, fails.  [logger_init] has no guard: the second [init]
    reads the environment again and reopens the file.  When [OUT_FILE] was
    set between the two calls the destination changes; when the file cannot
    be opened the warning is printed a second time. *)
Lemma second_init_reinitialises_logger :
  (exists s1 s2,
     isofuzz_init Scenario.no_env Scenario.opens_all initial = Done s1 /\
     isofuzz_init Scenario.env_out_file Scenario.opens_all s1 = Done s2 /\
     Logger.destination (logger s1) = (None, Logger.Cout) /\
     Logger.destination (logger s2) = (Some "trace.log"%string, Logger.GFile)) /\
  (exists s1 s2,
     isofuzz_init Scenario.env_out_file Scenario.opens_none initial = Done s1 /\
     isofuzz_init Scenario.env_out_file Scenario.opens_none s1 = Done s2 /\
     Logger.cerr (logger s1) = [Logger.warning "trace.log"] /\
     Logger.cerr (logger s2) = [Logger.warning "trace.log"; Logger.warning "trace.log"]).
Proof.
  split; eexists _, _; (split; [vm_compute; reflexivity|]);
    (split; [vm_compute; reflexivity|]); by vm_compute.
Qed.

Lemma isofuzz_init_fresh env fs s :
  Sched.scheduler_running (sched s) = false ->
  Sched.scheduler_thread (sched s) = Sched.SNoThread ->
  isofuzz_init env fs s =
  Done (set_sched
          (Sched.set_thread Sched.SLoop
             (Sched.init_rng env (Sched.read_epoch_ms env (Sched.set_running true (sched s)))))
          (set_logger (Logger.logger_init env fs (logger s)) s)).
Proof.
  intros Hr Ht. unfold isofuzz_init, Sched.scheduler_init. cbn [sched set_logger].
  by rewrite Hr, Ht.
Qed.

(** [isofuzz_shutdown] of a running scheduler whose thread stands at the
    loop test and whose map is empty. *)
Lemma isofuzz_shutdown_idle rev t s :
  Sched.scheduler_running (sched s) = true ->
  Sched.scheduler_thread (sched s) = Sched.SLoop ->
  Sched.trx_wait_map (sched s) = ∅ ->
  Sched.sweeping (sched s) = None ->
  isofuzz_shutdown rev t s =
  Done (set_logger (Logger.logger_shutdown (logger s))
          (set_sched
             (Sched.set_joining None
                (Sched.set_wait_map ∅
                   (Sched.set_thread Sched.SNoThread
                      (Sched.set_thread Sched.SExited
                         (Sched.set_joining (Some t) (Sched.set_running false (sched s)))))))
             s)).
Proof.
  intros Hr Ht Hm Hsw. destruct s as [c l x]. destruct x. cbn in Hr, Ht, Hm, Hsw. subst.
  destruct rev; reflexivity.
Qed.

(** C7, amended.  A second [init] while the scheduler is running leaves
    the scheduler and the registry as they are and initialises the logger
    again, from the environment of that call; done twice under the same
    environment and file system, [logger_init] selects the same
    destination.  And [init; shutdown; init; shutdown] from the initial
    state ends in the same library state as [init; shutdown], the text
    written apart. *)
Theorem second_init_keeps_scheduler rev env fs env' fs' t t' s1 :
  Sched.scheduler_running (sched s1) = true ->
  isofuzz_init env' fs' s1 = Done (set_logger (Logger.logger_init env' fs' (logger s1)) s1) /\
  Logger.destination (Logger.logger_init env' fs' (Logger.logger_init env' fs' (logger s1)))
    = Logger.destination (Logger.logger_init env' fs' (logger s1)) /\
  exists s2 s4,
    bind (isofuzz_init env fs initial) (isofuzz_shutdown rev t) = Done s2 /\
    bind (bind (bind (isofuzz_init env fs initial) (isofuzz_shutdown rev t))
            (isofuzz_init env fs)) (isofuzz_shutdown rev t') = Done s4 /\
    observable s4 = observable s2.
Proof.
  intros Hr. split_and!.
  - unfold isofuzz_init, Sched.scheduler_init. cbn [sched set_logger]. rewrite Hr.
    by destruct s1.
  - unfold Logger.logger_init, Logger.destination.
    destruct (env' "OUT_FILE"%string) as [path|]; [destruct (fs' path)|]; reflexivity.
  - assert (Hep : (forall x, Sched.read_epoch_ms env x = x) \/
                  (exists ms, forall x, Sched.read_epoch_ms env x = Sched.set_epoch_ms ms x)).
    { unfold Sched.read_epoch_ms.
      destruct (env "ISOFUZZ_EPOCH_MS"%string) as [v|]; [|by left].
      destruct (Conv.stol v) as [ms|]; [|by left].
      destruct (bool_decide (0 < ms)%Z); [right; by exists ms|by left]. }
    rewrite (isofuzz_init_fresh env fs initial) by reflexivity. cbn [bind].
    unfold Sched.init_rng.
    destruct Hep as [Hep|[ms Hep]]; rewrite !Hep.
    + rewrite isofuzz_shutdown_idle by reflexivity. cbn [bind].
      rewrite isofuzz_init_fresh by reflexivity. cbn [bind].
      unfold Sched.init_rng. rewrite !Hep.
      rewrite isofuzz_shutdown_idle by reflexivity.
      eexists _, _. split; [reflexivity|]. split; [reflexivity|]. reflexivity.
    + rewrite isofuzz_shutdown_idle by reflexivity. cbn [bind].
      rewrite isofuzz_init_fresh by reflexivity. cbn [bind].
      unfold Sched.init_rng. rewrite !Hep.
      rewrite isofuzz_shutdown_idle by reflexivity.
      eexists _, _. split; [reflexivity|]. split; [reflexivity|]. reflexivity.
Qed.

Lemma second_init_keeps_scheduler_witness :
  exists s1,
    isofuzz_init Scenario.no_env Scenario.opens_all initial = Done s1 /\
    Sched.scheduler_running (sched s1) = true /\
    isofuzz_init Scenario.env_out_file Scenario.opens_all s1 =
      Done (set_logger
              (Logger.logger_init Scenario.env_out_file Scenario.opens_all (logger s1)) s1).
Proof.
  eexists. split; [vm_compute; reflexivity|]. split; [vm_compute; reflexivity|].
  refine (proj1 (second_init_keeps_scheduler Sched.WorkerOwnsWaiter Scenario.no_env
            Scenario.opens_all Scenario.env_out_file Scenario.opens_all 0 0 _ _)).
  vm_compute; reflexivity.
Defined.

(** C9, as stated, fails for a value that is not an integer but starts
    with one: [std::stoi] and [std::stol] convert the leading digits and
    leave the rest unread. *)
Lemma integer_prefix_is_accepted :
  Conv.integer_text "12abc" = false /\
  (exists x, Sched.scheduler_init Scenario.env_seed_12abc Sched.initial = Some x /\
             Sched.rng x = (12%Z, 0)) /\
  Conv.integer_text "10ms" = false /\
  (exists x, Sched.scheduler_init Scenario.env_epoch_10ms Sched.initial = Some x /\
             Sched.EPOCH_DURATION_MS x = 10%Z).
Proof.
  split; [reflexivity|]. split; [eexists; split; [vm_compute; reflexivity|reflexivity]|].
  split; [reflexivity|]. eexists; split; [vm_compute; reflexivity|reflexivity].
Qed.

(** C9, amended.  At an [init] that starts the scheduler with the epoch
    still at its initial 5 ms: the PRNG is seeded with 42 when
    [RANDOM_SEED] is unset or [std::stoi] throws on it, and with the
    converted value otherwise; the epoch stays 5 ms when
    [ISOFUZZ_EPOCH_MS] is unset, [std::stol] throws on it or the converted
    value is not positive, and becomes the converted value otherwise.
    Nothing is written on account of either variable: the sink is as
    [logger_init] leaves it. *)
Theorem defaults_when_conversion_fails env fs s :
  Sched.scheduler_running (sched s) = false ->
  Sched.scheduler_thread (sched s) = Sched.SNoThread ->
  Sched.EPOCH_DURATION_MS (sched s) = 5%Z ->
  exists s',
    isofuzz_init env fs s = Done s' /\
    logger s' = Logger.logger_init env fs (logger s) /\
    (env "RANDOM_SEED"%string = None \/
     (exists v, env "RANDOM_SEED"%string = Some v /\ Conv.stoi v = None) ->
     Sched.rng (sched s') = (42%Z, 0)) /\
    (forall v n, env "RANDOM_SEED"%string = Some v -> Conv.stoi v = Some n ->
     Sched.rng (sched s') = (n, 0)) /\
    (env "ISOFUZZ_EPOCH_MS"%string = None \/
     (exists v, env "ISOFUZZ_EPOCH_MS"%string = Some v /\
        (Conv.stol v = None \/ exists ms, Conv.stol v = Some ms /\ (ms <= 0)%Z)) ->
     Sched.EPOCH_DURATION_MS (sched s') = 5%Z) /\
    (forall v ms, env "ISOFUZZ_EPOCH_MS"%string = Some v -> Conv.stol v = Some ms ->
     (0 < ms)%Z -> Sched.EPOCH_DURATION_MS (sched s') = ms).
Proof.
  intros Hr Ht He. eexists. split; [by apply isofuzz_init_fresh|].
  cbn [logger sched set_sched set_logger]. split; [done|].
  unfold Sched.init_rng.
  cbn [Sched.rng Sched.set_thread Sched.set_rng Sched.EPOCH_DURATION_MS].
  split_and!.
  - intros [->|(v & -> & ->)]; reflexivity.
  - intros v n -> ->. reflexivity.
  - unfold Sched.read_epoch_ms. intros [->|(v & -> & [->|(ms & -> & Hms)])]; [done..|].
    rewrite bool_decide_eq_false_2 by lia. done.
  - unfold Sched.read_epoch_ms. intros v ms -> -> Hms.
    by rewrite bool_decide_eq_true_2.
Qed.

Lemma defaults_when_conversion_fails_witness :
  exists s',
    isofuzz_init (Scenario.setenv "RANDOM_SEED" "abc" Scenario.env_epoch_50)
      Scenario.opens_all initial = Done s' /\
    Sched.rng (sched s') = (42%Z, 0) /\ Sched.EPOCH_DURATION_MS (sched s') = 50%Z.
Proof.
  destruct (defaults_when_conversion_fails
              (Scenario.setenv "RANDOM_SEED" "abc" Scenario.env_epoch_50)
              Scenario.opens_all initial)
    as (s' & Hinit & _ & Hseed & _ & _ & Hepoch); [reflexivity..|].
  exists s'. split; [exact Hinit|]. split.
  - apply Hseed. right. exists "abc"%string. split; reflexivity.
  - apply (Hepoch "50"%string 50%Z); [reflexivity|reflexivity|lia].
Defined.

End lib_claims.

(* ===================================================================== *)
(** * The log sink *)
(* ===================================================================== *)

Section logger_facts.
Import Logger LoggerRun.

Lemma run_app calls1 calls2 s : run (calls1 ++ calls2) s = run calls2 (run calls1 s).
Proof. apply foldl_app. Qed.

Lemma exec_sink_open c s : sink_open s -> sink_open (exec c s).
Proof.
  unfold sink_open. destruct c as [env fs| |line]; simpl.
  - unfold logger_init. destruct (env "OUT_FILE"%string) as [path|]; [destruct (fs path)|];
      simpl; intros; by eauto.
  - done.
  - unfold logger_log_line. destruct (g_out_ptr s) eqn:Hp; simpl; try done.
    destruct (g_file s) eqn:Hf; simpl; rewrite ?Hp, ?Hf; eauto.
Qed.

Lemma run_sink_open calls s : sink_open s -> sink_open (run calls s).
Proof.
  revert s. induction calls as [|c calls IH]; intros s Hs; [done|].
  simpl. apply IH. by apply exec_sink_open.
Qed.

Lemma file_insert path path' l s fs :
  files s = <[path := l]> fs ->
  file path' s = if decide (path = path') then l else default [] (fs !! path').
Proof. intros Hf. unfold file. rewrite Hf, lookup_insert. by case_decide. Qed.

(** X1.  However [logger_init], [logger_shutdown] and [logger_log_line] have
    been called before, a line handed to [logger_log_line] is appended to
    what the current destination holds, and the destination stays: no line
    is dropped because [g_out_ptr] would point to a closed [g_file]. *)
Theorem logged_line_reaches_the_sink calls line :
  let s := run calls initial in
  written (logger_log_line line s) = written s ++ [line] /\
  destination (logger_log_line line s) = destination s.
Proof.
  intros s. assert (Hs : sink_open s) by (apply run_sink_open; by intros [=]).
  unfold sink_open in Hs. unfold written, destination, logger_log_line.
  destruct (g_out_ptr s) eqn:Hp; simpl; rewrite ?Hp; try done.
  destruct Hs as [path Hf]; [done|]. rewrite Hf. simpl.
  by rewrite lookup_insert_eq.
Qed.

Lemma exec_extends c s :
  cout s `prefix_of` cout (exec c s) /\ cerr s `prefix_of` cerr (exec c s) /\
  forall path, file path s `prefix_of` file path (exec c s).
Proof.
  destruct c as [env fs| |line]; simpl.
  - unfold logger_init. destruct (env "OUT_FILE"%string) as [p|]; [destruct (fs p)|]; simpl.
    + split_and!; [done..|]. intros path. unfold file. simpl. rewrite lookup_insert.
      by case_decide; subst.
    + split_and!; [done|by apply prefix_app_r|done].
    + done.
  - done.
  - unfold logger_log_line. destruct (g_out_ptr s); simpl.
    + split_and!; [by apply prefix_app_r|done..].
    + split_and!; [done|by apply prefix_app_r|done].
    + destruct (g_file s) as [p|]; simpl; [|done]. split_and!; [done..|].
      intros path. unfold file. simpl. rewrite lookup_insert. case_decide; subst; simpl; [|done].
      by apply prefix_app_r.
Qed.

(** X2.  The logger only ever appends: whatever calls are made, what standard
    output, standard error and every file held before is a prefix of what
    they hold afterwards.  Reopening a file ([std::ios::app]) keeps its
    lines. *)
Theorem logger_only_appends calls s :
  cout s `prefix_of` cout (run calls s) /\ cerr s `prefix_of` cerr (run calls s) /\
  forall path, file path s `prefix_of` file path (run calls s).
Proof.
  revert s. induction calls as [|c calls IH]; intros s; [done|]. simpl.
  destruct (exec_extends c s) as (H1 & H2 & H3).
  destruct (IH (exec c s)) as (H1' & H2' & H3').
  split_and!; [by etrans..|]. intros path. etrans; [apply H3|apply H3'].
Qed.

Lemma log_lines_cout lines s :
  g_out_ptr s = Cout ->
  let s' := run (map LogLine lines) s in
  g_out_ptr s' = Cout /\ g_file s' = g_file s /\
  cout s' = cout s ++ lines /\ cerr s' = cerr s /\ files s' = files s.
Proof.
  revert s. induction lines as [|l lines IH]; intros s Hp; simpl.
  - by rewrite app_nil_r.
  - destruct (IH (logger_log_line l s)) as (H1 & H2 & H3 & H4 & H5).
    { unfold logger_log_line. by rewrite Hp. }
    unfold logger_log_line in *. rewrite Hp in *. simpl in *.
    by rewrite H1, H2, H3, H4, H5, <- app_assoc.
Qed.

Lemma log_lines_cerr lines s :
  g_out_ptr s = Cerr ->
  let s' := run (map LogLine lines) s in
  g_out_ptr s' = Cerr /\ g_file s' = g_file s /\
  cout s' = cout s /\ cerr s' = cerr s ++ lines /\ files s' = files s.
Proof.
  revert s. induction lines as [|l lines IH]; intros s Hp; simpl.
  - by rewrite app_nil_r.
  - destruct (IH (logger_log_line l s)) as (H1 & H2 & H3 & H4 & H5).
    { unfold logger_log_line. by rewrite Hp. }
    unfold logger_log_line in *. rewrite Hp in *. simpl in *.
    by rewrite H1, H2, H3, H4, H5, <- app_assoc.
Qed.

Lemma log_lines_file lines s path :
  g_out_ptr s = GFile -> g_file s = Some path ->
  let s' := run (map LogLine lines) s in
  g_out_ptr s' = GFile /\ g_file s' = Some path /\
  cout s' = cout s /\ cerr s' = cerr s /\
  file path s' = file path s ++ lines /\
  forall path', path' <> path -> file path' s' = file path' s.
Proof.
  revert s. induction lines as [|l lines IH]; intros s Hp Hf; simpl.
  - by rewrite app_nil_r.
  - destruct (IH (logger_log_line l s)) as (H1 & H2 & H3 & H4 & H5 & H6).
    { unfold logger_log_line. by rewrite Hp, Hf. }
    { unfold logger_log_line. by rewrite Hp, Hf. }
    rewrite H1, H2, H3, H4, H5. unfold logger_log_line in *. rewrite Hp, Hf in *. simpl in *.
    split_and!; try done.
    + unfold file. simpl. rewrite lookup_insert_eq. simpl. by rewrite <- app_assoc.
    + intros path' Hne. rewrite (H6 _ Hne). unfold file. simpl.
      by rewrite lookup_insert_ne.
Qed.

(** X3.  Where the lines logged after a [logger_init] go, in the order they are
    logged: to standard output when [OUT_FILE] is unset; behind the lines
    the file already holds when it is set and the file can be opened; and
    to standard error, behind one warning that names the path, when the
    file cannot be opened.  Nothing else is written anywhere: no other
    file changes, under whatever name it was written before. *)
Theorem lines_follow_init env fs lines s :
  let s' := run (Init env fs :: map LogLine lines) s in
  match env "OUT_FILE"%string with
  | None => cout s' = cout s ++ lines /\ cerr s' = cerr s /\ files s' = files s
  | Some path =>
      match fs path with
      | Some f =>
          file f s' = file f s ++ lines /\ cout s' = cout s /\ cerr s' = cerr s /\
          forall f', f' <> f -> file f' s' = file f' s
      | None =>
          cerr s' = cerr s ++ warning path :: lines /\ cout s' = cout s /\ files s' = files s
      end
  end.
Proof.
  simpl. unfold logger_init.
  destruct (env "OUT_FILE"%string) as [path|]; [destruct (fs path) as [f|]|].
  - match goal with |- context [run _ ?s0] =>
      destruct (log_lines_file lines s0 f eq_refl eq_refl) as (_ & _ & H3 & H4 & H5 & H6) end.
    rewrite H3, H4, H5. split_and!; try done.
    + f_equal. unfold file. simpl. by rewrite lookup_insert_eq.
    + intros f' Hne. rewrite (H6 _ Hne). unfold file. simpl. by rewrite lookup_insert_ne.
  - match goal with |- context [run _ ?s0] =>
      destruct (log_lines_cerr lines s0 eq_refl) as (_ & _ & H3 & H4 & H5) end.
    rewrite H3, H4, H5. simpl. by rewrite <- app_assoc.
  - match goal with |- context [run _ ?s0] =>
      destruct (log_lines_cout lines s0 eq_refl) as (_ & _ & H3 & H4 & H5) end.
    by rewrite H3, H4, H5.
Qed.

(** Two spellings of one file: lines logged under [trace.log], then under
    [./trace.log], then under [trace.log] again are the lines of one file,
    in the order they were logged. *)
Example two_spellings_one_file :
  let env1 := Scenario.setenv "OUT_FILE" "trace.log" Scenario.no_env in
  let env2 := Scenario.setenv "OUT_FILE" "./trace.log" Scenario.no_env in
  let fs := Scenario.current_directory in
  files (run [ Init env1 fs; LogLine "a"; Init env2 fs; LogLine "b";
               Init env1 fs; LogLine "c" ] initial)
  = {[ "trace.log"%string := ["a"; "b"; "c"]%string ]}.
Proof. by vm_compute. Qed.

End logger_facts.

(* ===================================================================== *)
(** * The registry and the entry points *)
(* ===================================================================== *)

Section registry_more.
Import Lib Reading.

(** What a call does to the registry. *)
Lemma exec_ctx rev c s s' :
  exec rev c s = Done s' ->
  match c with
  | CBegin t => ctx s' = (begin_trx t (ctx s)).2
  | CPromote t h new_id =>
      (h = 0%N /\ ctx s' = ctx s) \/
      exists trx, h <> 0%N /\ records (ctx s) !! h = Some trx /\
        ctx s' = {| m_transactions := m_transactions (ctx s);
                    next_lib_id := next_lib_id (ctx s);
                    records := <[h := {| lib_id := lib_id trx; dbms_id := new_id;
                                         thread_id := thread_id trx |}]> (records (ctx s)) |}
  | CEnd t h => end_trx h (ctx s) = Done (ctx s')
  | _ => ctx s' = ctx s
  end.
Proof.
  intros Hex. apply exec_effect in Hex.
  destruct c as [env fs|t| | |t|t h'|t h' new_id|t h'|t h' intent p w|t h' op obj lw| |t|t];
    simpl in Hex.
  - unfold isofuzz_init in Hex. by apply bind_Done in Hex as (x & _ & [= <-]).
  - unfold isofuzz_shutdown_enter in Hex.
    destruct (Sched.scheduler_running (sched s)); [|by injection Hex as <-].
    by apply bind_Done in Hex as (x & _ & [= <-]).
  - by apply bind_Done in Hex as (x & _ & [= <-]).
  - unfold isofuzz_shutdown_sweep in Hex. apply bind_Done in Hex as (x & _ & Hex).
    by destruct (Sched.sweeping x); injection Hex as <-.
  - apply bind_Done in Hex as ([h0 s0] & Hbeg & [= <-]). cbn [snd].
    unfold isofuzz_trx_begin in Hbeg.
    destruct (begin_trx t (ctx s)) as [h1 c1] eqn:Hbt. cbn [fst snd] in *.
    case_bool_decide; [by injection Hbeg as <- <-|].
    apply bind_Done in Hbeg as (s2 & Hlog & [= <- <-]).
    by apply log_generic_op_ctx in Hlog.
  - unfold isofuzz_trx_commit in Hex.
    case_bool_decide; [by injection Hex as <-|]. by eapply log_generic_op_ctx.
  - unfold isofuzz_trx_promote in Hex.
    destruct (get_trx h') as [p|] eqn:Hg.
    + unfold get_trx in Hg. case_bool_decide; [done|]. injection Hg as <-.
      destruct (records (ctx s) !! h') as [trx0|] eqn:Hh'; [|done].
      apply log_generic_op_ctx in Hex. right. by exists trx0.
    + unfold get_trx in Hg. case_bool_decide; [|done]. left. by injection Hex as <-.
  - unfold isofuzz_trx_end in Hex. apply bind_Done in Hex as (c1 & Hend & [= <-]). done.
  - unfold isofuzz_schedule_op in Hex.
    destruct (get_trx h'); [|by injection Hex as <-].
    destruct (records (ctx s) !! n); [|done].
    by apply bind_Done in Hex as (x & _ & [= <-]).
  - unfold isofuzz_log_op in Hex. by eapply log_generic_op_ctx.
  - by apply bind_Done in Hex as (x & _ & [= <-]).
  - by apply bind_Done in Hex as (x & _ & [= <-]).
  - by apply bind_Done in Hex as (x & _ & [= <-]).
Qed.

Lemma registry_tight_initial : registry_tight initial_ctx.
Proof. intros id a Ha. done. Qed.

Lemma exec_tight rev c s s' :
  exec rev c s = Done s' -> registry_wf (ctx s) -> (next_lib_id (ctx s) + 1 < 2 ^ 64)%N ->
  registry_tight (ctx s) -> registry_tight (ctx s').
Proof.
  intros Hex Hwf Hb Ht. pose proof (exec_ctx _ _ _ _ Hex) as Hc.
  destruct c as [env fs|t| | |t|t h'|t h' new_id|t h'|t h' intent p w|t h' op obj lw| |t|t];
    try (by rewrite Hc).
  - destruct (begin_trx_spec t (ctx s) Hwf Hb) as (Hnz & Hfresh & Hrec & Hmap & _).
    rewrite Hc. intros id a. rewrite Hmap, Hrec.
    intros [[<- <-]|[Hne Ha]]%lookup_insert_Some.
    + split; [done|]. eexists. by rewrite lookup_insert_eq.
    + destruct (Ht _ _ Ha) as (Hz & trx & Hr & Hl). split; [done|]. exists trx.
      rewrite lookup_insert_ne; [done|]. intros <-. congruence.
  - destruct Hc as [[_ ->]|(trx & Hnz & Hr & ->)]; [done|].
    intros id a Ha. cbn [m_transactions records] in *.
    destruct (Ht _ _ Ha) as (Hz & trx1 & Hr1 & Hl1). split; [done|].
    destruct (decide (a = h')) as [->|Hne].
    + rewrite lookup_insert_eq. eexists. split; [done|]. cbn. congruence.
    + rewrite lookup_insert_ne by done. by exists trx1.
  - unfold end_trx in Hc. case_bool_decide; [by injection Hc as <-|].
    destruct (records (ctx s) !! h') as [trx0|] eqn:Hh'; [|done].
    injection Hc as <-. destruct Hwf as [HA HC]. rewrite (HA _ _ Hh').
    intros id a Ha. cbn [m_transactions records] in *.
    apply lookup_delete_Some in Ha as [Hne Ha].
    destruct (Ht _ _ Ha) as (Hz & trx1 & Hr1 & Hl1). split; [done|]. exists trx1.
    rewrite lookup_delete_ne; [done|]. intros <-. congruence.
Qed.

Lemma exec_next rev c s s' :
  exec rev c s = Done s' -> (next_lib_id (ctx s) + 1 < 2 ^ 64)%N ->
  next_lib_id (ctx s') = (next_lib_id (ctx s) + N.of_nat (begins [c]))%N.
Proof.
  intros Hex Hb. pose proof (exec_ctx _ _ _ _ Hex) as Hc.
  destruct c as [env fs|t| | |t|t h'|t h' new_id|t h'|t h' intent p w|t h' op obj lw| |t|t];
    try (rewrite Hc; simpl; lia).
  - destruct Hc as [[_ ->]|(trx & Hnz & Hr & ->)]; simpl; lia.
  - unfold end_trx in Hc. case_bool_decide; [injection Hc as <-; simpl; lia|].
    destruct (records (ctx s) !! h'); [|done]. injection Hc as <-. simpl. lia.
Qed.

Lemma begins_le calls : begins calls <= length calls.
Proof. induction calls as [|[] calls IH]; simpl; lia. Qed.

Lemma run_tight rev calls s s' :
  run rev calls s = Done s' -> registry_wf (ctx s) ->
  (next_lib_id (ctx s) + N.of_nat (length calls) < 2 ^ 64)%N ->
  registry_tight (ctx s) ->
  registry_tight (ctx s') /\
  next_lib_id (ctx s') = (next_lib_id (ctx s) + N.of_nat (begins calls))%N.
Proof.
  revert s; induction calls as [|c calls IH]; intros s Hrun Hwf Hb Ht.
  - injection Hrun as <-. split; [done|]. simpl. lia.
  - cbn [run] in Hrun. apply bind_Done in Hrun as (s1 & Hex & Hrun). cbn [length] in Hb.
    destruct (exec_registry _ _ _ _ Hex Hwf ltac:(lia)) as (Hwf1 & Hn1 & _).
    pose proof (exec_tight _ _ _ _ Hex Hwf ltac:(lia) Ht) as Ht1.
    pose proof (exec_next _ _ _ _ Hex ltac:(lia)) as Hx.
    destruct (IH _ Hrun Hwf1 ltac:(lia) Ht1) as [Ht2 Hn2].
    split; [done|]. rewrite Hn2, Hx.
    change (c :: calls) with ([c] ++ calls).
    assert (begins ([c] ++ calls) = begins [c] + begins calls) as ->; [by destruct c|lia].
Qed.

(** X4.  In every state the calls of the library can reach (before the 64-bit
    id counter wraps), the registry's map and the live records match one
    to one: every map entry leads to a live record, not at the null
    address, that carries the entry's id; every live record is the one
    its id's entry leads to, and its id is below the counter; so two live
    handles never share a [lib_id]. *)
Theorem registry_matches_live_records rev calls s :
  run rev calls initial = Done s ->
  (N.of_nat (length calls) + 1 < 2 ^ 64)%N ->
  (forall id a, m_transactions (ctx s) !! id = Some a ->
     a <> 0%N /\ exists trx, records (ctx s) !! a = Some trx /\ lib_id trx = id) /\
  (forall a trx, records (ctx s) !! a = Some trx ->
     a <> 0%N /\ valid_handle (ctx s) a /\ (lib_id trx < next_lib_id (ctx s))%N) /\
  (forall a b trx trx', records (ctx s) !! a = Some trx -> records (ctx s) !! b = Some trx' ->
     lib_id trx = lib_id trx' -> a = b).
Proof.
  intros Hrun Hb.
  destruct (run_registry _ _ _ _ Hrun registry_wf_initial) as ([HA HC] & _ & _);
    [simpl; lia|].
  destruct (run_tight _ _ _ _ Hrun registry_wf_initial) as [Ht _];
    [simpl; lia|apply registry_tight_initial|].
  split_and!.
  - exact Ht.
  - intros a trx Ha. pose proof (HA _ _ Ha) as Hm. split_and!.
    + by destruct (Ht _ _ Hm).
    + by exists trx.
    + by eapply HC.
  - intros a b trx trx' Ha Hb' Heq. pose proof (HA _ _ Ha) as Hm.
    pose proof (HA _ _ Hb') as Hm'. rewrite Heq in Hm. congruence.
Qed.

Lemma registry_matches_live_records_witness :
  exists s, run Sched.WorkerOwnsWaiter Sample.two_begins initial = Done s /\
            m_transactions (ctx s) !! 2%N = Some 2%N /\
            (2%N <> 0%N /\ exists trx, records (ctx s) !! 2%N = Some trx /\ lib_id trx = 2%N).
Proof.
  eexists. split; [vm_compute; reflexivity|]. split; [vm_compute; reflexivity|].
  refine (proj1 (registry_matches_live_records Sched.WorkerOwnsWaiter Sample.two_begins _ _ _)
            2%N 2%N _); vm_compute; reflexivity.
Defined.

(** X5.  Ids are handed out in sequence and never reused: after any calls, of
    which [k] began a transaction, the next [isofuzz_trx_begin] returns a
    non-null handle to a record with [lib_id = k + 1], no DBMS id and the
    calling thread's id, and logs its BEGIN line under that id, whatever
    transactions were ended meanwhile. *)
Theorem begin_numbers_transactions rev calls s t h s1 :
  run rev calls initial = Done s ->
  (N.of_nat (length calls) + 2 < 2 ^ 64)%N ->
  isofuzz_trx_begin t s = Done (h, s1) ->
  let trx := {| lib_id := N.of_nat (begins calls) + 1; dbms_id := 0; thread_id := t |} in
  h <> 0%N /\ records (ctx s1) !! h = Some trx /\
  m_transactions (ctx s1) !! (N.of_nat (begins calls) + 1)%N = Some h /\
  logger s1 = Logger.logger_log_line (log_line trx TXN_BEGIN None 0) (logger s).
Proof.
  intros Hrun Hb Hbeg.
  destruct (run_registry _ _ _ _ Hrun registry_wf_initial) as (Hwf & Hn & _);
    [simpl; lia|].
  destruct (run_tight _ _ _ _ Hrun registry_wf_initial) as [_ Hnext];
    [simpl; lia|apply registry_tight_initial|].
  change (next_lib_id (ctx initial)) with 1%N in Hn, Hnext.
  pose proof (begins_le calls) as Hle.
  destruct (isofuzz_trx_begin_spec _ _ _ _ Hwf ltac:(lia) Hbeg) as (Hnz & Hr & [HA _] & _ & Hl).
  rewrite Hnext in Hr, Hl. rewrite (N.add_comm 1) in Hr, Hl.
  split_and!; [done..| |done]. by apply HA in Hr.
Qed.

Lemma begin_numbers_transactions_witness :
  exists s s1,
    run Sched.WorkerOwnsWaiter Sample.two_begins initial = Done s /\
    isofuzz_trx_begin 9 s = Done (3%N, s1) /\
    records (ctx s1) !! 3%N = Some {| lib_id := 3; dbms_id := 0; thread_id := 9 |}.
Proof.
  eexists _, _. split; [vm_compute; reflexivity|]. split; [vm_compute; reflexivity|].
  refine (proj1 (proj2 (begin_numbers_transactions Sched.WorkerOwnsWaiter Sample.two_begins
                          _ 9 3%N _ _ _ _))); vm_compute; reflexivity.
Defined.

(** X6.  [begin_trx] followed by [end_trx] on the handle it returned puts the
    map and the records back as they were; only the id counter has moved
    on by one. *)
Theorem begin_then_end_restores_registry t c :
  registry_wf c -> (next_lib_id c + 1 < 2 ^ 64)%N ->
  end_trx (begin_trx t c).1 (begin_trx t c).2 =
    Done {| m_transactions := m_transactions c;
            next_lib_id := (next_lib_id c + 1)%N;
            records := records c |}.
Proof.
  intros Hwf Hb.
  destruct (begin_trx_spec t c Hwf Hb) as (Hnz & Hfresh & Hrec & Hmap & Hnext & Hwf').
  assert (Hnone : m_transactions c !! next_lib_id c = None).
  { destruct (m_transactions c !! next_lib_id c) as [a|] eqn:Ha; [|done].
    apply Hwf in Ha. lia. }
  unfold end_trx. rewrite bool_decide_eq_false_2 by done.
  rewrite Hrec, lookup_insert_eq. cbn [lib_id]. rewrite Hmap, lookup_insert_eq, Hnext.
  by rewrite !delete_insert_id.
Qed.

Lemma begin_then_end_restores_registry_witness :
  end_trx (begin_trx 7 initial_ctx).1 (begin_trx 7 initial_ctx).2 =
    Done {| m_transactions := ∅; next_lib_id := 2; records := ∅ |}.
Proof.
  apply (begin_then_end_restores_registry 7 initial_ctx); [apply registry_wf_initial|].
  vm_compute. reflexivity.
Defined.

Lemma run_next rev calls s s' :
  run rev calls s = Done s' ->
  (next_lib_id (ctx s) + N.of_nat (length calls) < 2 ^ 64)%N ->
  next_lib_id (ctx s') = (next_lib_id (ctx s) + N.of_nat (begins calls))%N.
Proof.
  revert s; induction calls as [|c calls IH]; intros s Hrun Hb.
  - injection Hrun as <-. simpl. lia.
  - cbn [run] in Hrun. apply bind_Done in Hrun as (s1 & Hex & Hrun). cbn [length] in Hb.
    pose proof (exec_next _ _ _ _ Hex ltac:(lia)) as Hx.
    assert (Hle : begins [c] <= 1) by (destruct c; simpl; lia).
    rewrite (IH _ Hrun) by lia. rewrite Hx.
    change (c :: calls) with ([c] ++ calls).
    assert (begins ([c] ++ calls) = begins [c] + begins calls) as ->; [by destruct c|lia].
Qed.

(** A call that returns leaves a destroyed record destroyed, unless it is
    a begin whose new record gets that address. *)
Lemma exec_keeps_dead rev c s s' h :
  exec rev c s = Done s' -> records (ctx s) !! h = None ->
  match c with CBegin t => (begin_trx t (ctx s)).1 <> h | _ => True end ->
  records (ctx s') !! h = None.
Proof.
  intros Hex Hd Hc. pose proof (exec_ctx _ _ _ _ Hex) as Hctx.
  destruct c as [env fs|t| | |t|t h'|t h' new_id|t h'|t h' intent p w|t h' op obj lw| |t|t];
    try (by rewrite Hctx).
  - rewrite Hctx. unfold begin_trx in *. cbn [fst snd records] in *.
    destruct (m_transactions (ctx s) !! next_lib_id (ctx s)) as [old|].
    + destruct (decide (old = h)) as [->|Hne]; [by rewrite lookup_delete_eq|].
      rewrite lookup_delete_ne, lookup_insert_ne by done. done.
    + by rewrite lookup_insert_ne.
  - destruct Hctx as [[_ ->]|(trx & Hnz & Hr & ->)]; [done|]. cbn [records].
    rewrite lookup_insert_ne; [done|]. intros ->. congruence.
  - unfold end_trx in Hctx. case_bool_decide; [by injection Hctx as <-|].
    destruct (records (ctx s) !! h') as [trx0|]; [|done]. injection Hctx as <-. cbn [records].
    destruct (m_transactions (ctx s) !! lib_id trx0) as [owned|]; [|done].
    destruct (decide (owned = h)) as [->|Hne]; [by rewrite lookup_delete_eq|].
    by rewrite lookup_delete_ne.
Qed.

Lemma run_keeps_dead rev calls s s' h :
  run rev calls s = Done s' -> records (ctx s) !! h = None ->
  ~ handed_out rev h calls s -> records (ctx s') !! h = None.
Proof.
  revert s. induction calls as [|c calls IH]; intros s Hrun Hd Hno.
  - by injection Hrun as <-.
  - cbn [run] in Hrun. apply bind_Done in Hrun as (s1 & Hex & Hrun).
    cbn [handed_out] in Hno. rewrite Hex in Hno.
    apply (IH s1); [done| |tauto].
    apply (exec_keeps_dead _ _ _ _ _ Hex Hd). destruct c; try done. tauto.
Qed.

(** X7.  Ending a transaction leaves its handle dangling: [isofuzz_trx_end] on
    a live handle returns, destroys the record behind the handle and
    erases the map entry of its id.  From then on, whatever calls are
    made, every call on that handle, a second [isofuzz_trx_end] included,
    dereferences a destroyed record, for as long as no
    [isofuzz_trx_begin] is given the address of the destroyed record for
    its new record.  Once that has happened the stale handle cannot be
    told from the handle of the new transaction: a line logged on it is
    logged for the new transaction. *)
Theorem ended_handle_dangles rev t h s trx :
  registry_wf (ctx s) -> h <> 0%N -> records (ctx s) !! h = Some trx ->
  exists s',
    isofuzz_trx_end t h s = Done s' /\
    records (ctx s') = delete h (records (ctx s)) /\
    m_transactions (ctx s') = delete (lib_id trx) (m_transactions (ctx s)) /\
    logger s' = logger s /\ sched s' = sched s /\
    (forall calls s2, run rev calls s' = Done s2 -> ~ handed_out rev h calls s' ->
       records (ctx s2) !! h = None /\
       forall t' new_id intent p w op object lw,
         isofuzz_trx_end t' h s2 = Undefined /\
         isofuzz_trx_commit t' h s2 = Undefined /\
         isofuzz_trx_promote t' h new_id s2 = Undefined /\
         isofuzz_schedule_op t' h intent p w s2 = Undefined /\
         isofuzz_log_op t' h op object lw s2 = Undefined) /\
    (forall calls s2 t2 s3, run rev calls s' = Done s2 ->
       (next_lib_id (ctx s) + N.of_nat (length calls) + 1 < 2 ^ 64)%N ->
       isofuzz_trx_begin t2 s2 = Done (h, s3) ->
       exists trx2,
         records (ctx s3) !! h = Some trx2 /\ thread_id trx2 = t2 /\
         (lib_id trx < lib_id trx2)%N /\
         forall t' op object lw,
           isofuzz_log_op t' h op object lw s3 =
             Done (set_logger
                     (Logger.logger_log_line (log_line trx2 op (Some object) lw) (logger s3))
                     s3)).
Proof.
  intros Hwf Hnz Hr. pose proof Hwf as [HA HC].
  assert (Hend : isofuzz_trx_end t h s =
            Done (set_ctx {| m_transactions := delete (lib_id trx) (m_transactions (ctx s));
                             next_lib_id := next_lib_id (ctx s);
                             records := delete h (records (ctx s)) |} s)).
  { unfold isofuzz_trx_end, end_trx. rewrite bool_decide_eq_false_2, Hr by done.
    by rewrite (HA _ _ Hr). }
  eexists. split; [exact Hend|]. cbn [ctx set_ctx records m_transactions logger sched].
  split_and!; [done..| |].
  - intros calls s2 Hrun Hno.
    assert (Hd : records (ctx s2) !! h = None).
    { apply (run_keeps_dead _ _ _ _ _ Hrun); [|done]. cbn [ctx set_ctx records].
      apply lookup_delete_eq. }
    split; [done|]. intros t' new_id intent p w op object lw.
    destruct (dangling_handle_is_undefined t' h new_id intent p w op object lw s2 Hnz Hd)
      as (H1 & H2 & H3 & H4 & H5).
    done.
  - intros calls s2 t2 s3 Hrun Hb Hbeg.
    assert (Hwf1 : registry_wf {| m_transactions := delete (lib_id trx) (m_transactions (ctx s));
                                  next_lib_id := next_lib_id (ctx s);
                                  records := delete h (records (ctx s)) |}).
    { split; cbn [records m_transactions next_lib_id].
      - intros a trx0 [Hne Ha]%lookup_delete_Some.
        rewrite lookup_delete_ne; [by apply HA|].
        intros Heq. pose proof (HA _ _ Ha) as Hm. rewrite <- Heq, (HA _ _ Hr) in Hm. congruence.
      - intros id a [_ Ha]%lookup_delete_Some. by eapply HC. }
    destruct (run_registry _ _ _ _ Hrun Hwf1 ltac:(cbn; lia)) as (Hwf2 & Hn2 & _).
    cbn [ctx set_ctx next_lib_id] in Hn2.
    pose proof (run_next _ _ _ _ Hrun ltac:(cbn; lia)) as Hnext.
    cbn [ctx set_ctx next_lib_id] in Hnext.
    destruct (isofuzz_trx_begin_spec _ _ _ _ Hwf2 ltac:(lia) Hbeg)
      as (_ & Hrec & _ & _ & _).
    eexists. split; [exact Hrec|]. cbn [thread_id lib_id]. split; [done|]. split.
    + pose proof (HC _ _ (HA _ _ Hr)). lia.
    + intros t' op object lw. unfold isofuzz_log_op. by apply log_generic_op_live.
Qed.

Lemma ended_handle_dangles_witness :
  exists s',
    isofuzz_trx_end 7 2 Sample.two_live = Done s' /\
    isofuzz_trx_end 7 2 s' = Undefined.
Proof.
  destruct (ended_handle_dangles Sched.WorkerOwnsWaiter 7 2 Sample.two_live
              {| lib_id := 2; dbms_id := 0; thread_id := 8 |})
    as (s' & Hend & _ & _ & _ & _ & Hun & _).
  - split; intros k a Ha; unfold Sample.two_live, set_ctx in *;
      cbn [ctx records m_transactions next_lib_id] in *.
    + apply lookup_insert_Some in Ha as [[<- <-]|[Hne Ha]]; [done|].
      apply lookup_singleton_Some in Ha as [<- <-]. done.
    + apply lookup_insert_Some in Ha as [[<- <-]|[Hne Ha]]; [done|].
      apply lookup_singleton_Some in Ha as [<- <-]. done.
  - done.
  - reflexivity.
  - exists s'. split; [done|].
    destruct (Hun [] s' eq_refl ltac:(intros H; exact H)) as [_ Hall].
    by destruct (Hall 7 0%N INTENT_OP_READ 0%Z 0%N READ Scenario.sample_object 0%N).
Defined.

(** The stale handle after its address was given out again: thread 7
    begins and ends a transaction, thread 8 begins the next one and gets
    the same address; a line logged on the handle of thread 7 is a line
    of thread 8's transaction. *)
Example stale_handle_names_the_next_transaction :
  exists s1 s2 s3,
    run Sched.WorkerOwnsWaiter [CBegin 7; CEnd 7 1] initial = Done s1 /\
    isofuzz_trx_begin 8 s1 = Done (1%N, s2) /\
    isofuzz_log_op 7 1 READ Scenario.sample_object 0 s2 = Done s3 /\
    Logger.written (logger s3) =
      [ String.concat tab ["7"; "1"; "BEGIN"; "N/A"; "N/A"; "N/A"; "0"]%string;
        String.concat tab ["8"; "2"; "BEGIN"; "N/A"; "N/A"; "N/A"; "0"]%string;
        String.concat tab ["8"; "2"; "READ"; "t"; "c"; "42"; "0"]%string ].
Proof.
  eexists _, _, _. split; [vm_compute; reflexivity|]. split; [vm_compute; reflexivity|].
  split; [vm_compute; reflexivity|]. vm_compute. reflexivity.
Qed.

(** X8.  Each entry point keeps to its part of the library: a call that is not
    a logging call leaves the log sink as it is ([isofuzz_trx_end] and
    [isofuzz_schedule_op] write no line); a call that is not a scheduling
    call leaves the scheduler as it is ([isofuzz_log_op] and the
    transaction calls neither block nor schedule); and only
    [isofuzz_trx_begin], [isofuzz_trx_promote] and [isofuzz_trx_end]
    change the registry. *)
Theorem calls_keep_to_their_part rev c s s' :
  exec rev c s = Done s' ->
  (~ logging c -> logger s' = logger s) /\
  (~ scheduling c -> sched s' = sched s) /\
  (~ registering c -> ctx s' = ctx s).
Proof.
  intros Hex. pose proof (exec_ctx _ _ _ _ Hex) as Hc. apply exec_effect in Hex.
  destruct c as [env fs|t| | |t|t h'|t h' new_id|t h'|t h' intent p w|t h' op obj lw| |t|t];
    simpl in Hex; (split_and!; [try (by intros []; simpl)..]); intros _; try done.
  all: try (by apply bind_Done in Hex as (x & _ & [= <-])).
  - apply bind_Done in Hex as ([h0 s0] & Hbeg & [= <-]). cbn [snd].
    unfold isofuzz_trx_begin in Hbeg. destruct (begin_trx t (ctx s)) as [h1 c1].
    case_bool_decide; [by injection Hbeg as <- <-|].
    apply bind_Done in Hbeg as (s2 & Hlog & [= <- <-]).
    unfold log_generic_op in Hlog. destruct (get_trx h1); [|by injection Hlog as <-].
    destruct (records (ctx (set_ctx c1 s)) !! n); [|done]. by injection Hlog as <-.
  - unfold isofuzz_trx_commit, log_generic_op in Hex.
    case_bool_decide; [by injection Hex as <-|].
    destruct (get_trx h'); [|by injection Hex as <-].
    destruct (records (ctx s) !! n); [|done]. by injection Hex as <-.
  - unfold isofuzz_trx_promote, log_generic_op in Hex.
    destruct (get_trx h'); [|by injection Hex as <-].
    destruct (records (ctx s) !! n); [|done]. cbn [ctx set_ctx records] in Hex.
    rewrite lookup_insert_eq in Hex. by injection Hex as <-.
  - unfold isofuzz_schedule_op in Hex. destruct (get_trx h'); [|by injection Hex as <-].
    destruct (records (ctx s) !! n); [|done].
    by apply bind_Done in Hex as (x & _ & [= <-]).
  - unfold isofuzz_log_op, log_generic_op in Hex.
    destruct (get_trx h'); [|by injection Hex as <-].
    destruct (records (ctx s) !! n); [|done]. by injection Hex as <-.
Qed.

Lemma calls_keep_to_their_part_witness :
  exists s', exec Sched.WorkerOwnsWaiter (CEnd 7 2) Sample.two_live = Done s' /\
             logger s' = logger Sample.two_live.
Proof.
  eexists. split; [vm_compute; reflexivity|].
  refine (proj1 (calls_keep_to_their_part Sched.WorkerOwnsWaiter (CEnd 7 2) _ _ _) _);
    [vm_compute; reflexivity|]. by intros [].
Defined.

(** X9.  What [isofuzz_schedule_op] hands to the scheduler: the transaction's
    [lib_id], whether or not the transaction has been promoted to a DBMS
    id, and nothing of the intent, which no code looks at.  The call
    touches neither the registry nor the log sink. *)
Theorem schedule_op_submits_the_lib_id t h intent intent' p w s trx :
  h <> 0%N -> records (ctx s) !! h = Some trx ->
  isofuzz_schedule_op t h intent p w s = isofuzz_schedule_op t h intent' p w s /\
  forall s', isofuzz_schedule_op t h intent p w s = Done s' ->
    Sched.workers (sched s') !! t = Some (Sched.WPush (lib_id trx) w p) /\
    Sched.trace (sched s') = Sched.trace (sched s) ++ [Sched.EvNew t (lib_id trx) w] /\
    ctx s' = ctx s /\ logger s' = logger s.
Proof.
  intros Hnz Hr. split; [done|]. intros s' Hs'. unfold isofuzz_schedule_op in Hs'.
  rewrite get_trx_nonnull, Hr in Hs' by done.
  apply bind_Done in Hs' as (x & Hx & [= <-]). apply of_option_Done in Hx.
  unfold Sched.request_enter in Hx. case_bool_decide; [|done]. injection Hx as <-.
  cbn [sched set_sched ctx logger Sched.workers Sched.trace Sched.emit Sched.set_workers
       Sched.set_waiters Sched.set_rng].
  split_and!; try done. by rewrite lookup_insert_eq.
Qed.

Lemma schedule_op_submits_the_lib_id_witness :
  exists s',
    isofuzz_schedule_op 8 2 INTENT_OP_READ 50 100 Sample.two_live = Done s' /\
    Sched.workers (sched s') !! 8 = Some (Sched.WPush 2 100 50).
Proof.
  eexists. split; [vm_compute; reflexivity|].
  refine (proj1 (proj2 (schedule_op_submits_the_lib_id 8 2 INTENT_OP_READ INTENT_OP_WRITE
                          50 100 Sample.two_live
                          {| lib_id := 2; dbms_id := 0; thread_id := 8 |} _ _)
                   _ _)); [done|vm_compute; reflexivity..].
Defined.

End registry_more.

(* ===================================================================== *)
(** * Log lines and configuration values *)
(* ===================================================================== *)

Section text_facts.
Import Lib Reading.

Lemma digits_of_numeral d acc seen :
  Conv.digits (NilEmpty.string_of_uint d) acc seen =
  match d with
  | Decimal.Nil => if seen then Some acc else None
  | _ => Some (value_acc d acc)
  end.
Proof.
  revert acc seen. induction d as [|d IH|d IH|d IH|d IH|d IH|d IH|d IH|d IH|d IH|d IH];
    intros acc seen; [done|..];
    cbn [NilEmpty.string_of_uint Conv.digits value_acc];
    (match goal with |- context [Conv.digit_of ?c] =>
       let v := eval vm_compute in (Conv.digit_of c) in
       change (Conv.digit_of c) with v end);
    cbv iota; rewrite ?Z.add_0_r; rewrite IH; by destruct d.
Qed.

Lemma value_of_uint_acc d p : Z.pos (Pos.of_uint_acc d p) = value_acc d (Z.pos p).
Proof.
  revert p. induction d as [|d IH|d IH|d IH|d IH|d IH|d IH|d IH|d IH|d IH|d IH];
    intros p; [done|..]; cbn [Pos.of_uint_acc value_acc]; rewrite IH; f_equal; lia.
Qed.

Lemma value_of_uint d : Z.of_N (Pos.of_uint d) = value_acc d 0.
Proof.
  induction d as [|d IH|d IH|d IH|d IH|d IH|d IH|d IH|d IH|d IH|d IH];
    [done|exact IH|..]; cbn [Pos.of_uint value_acc Z.of_N]; by rewrite value_of_uint_acc.
Qed.

Lemma to_uint_not_nil n : N.to_uint n <> Decimal.Nil.
Proof.
  intros Hn. pose proof (DecimalN.Unsigned.of_to n) as H. rewrite Hn in H.
  cbn in H. subst n. discriminate Hn.
Qed.

Lemma digits_dec n : Conv.digits (dec n) 0 false = Some (Z.of_N n).
Proof.
  unfold dec. rewrite digits_of_numeral.
  pose proof (to_uint_not_nil n) as Hn.
  rewrite <- value_of_uint. change (Pos.of_uint (N.to_uint n)) with (N.of_uint (N.to_uint n)).
  rewrite DecimalN.Unsigned.of_to. by destruct (N.to_uint n).
Qed.

(** The first character of a numeral is a digit. *)
Lemma dec_head n :
  exists c rest, dec n = String c rest /\ is_Some (Conv.digit_of c).
Proof.
  unfold dec. pose proof (to_uint_not_nil n) as Hn.
  destruct (N.to_uint n); [done|..]; cbn [NilEmpty.string_of_uint];
    eexists _, _; (split; [reflexivity|]); vm_compute; eauto.
Qed.

Lemma digit_not_space c : is_Some (Conv.digit_of c) -> Conv.isspace c = false.
Proof.
  unfold Conv.digit_of, Conv.isspace. intros [d Hd]. case_bool_decide; [|done].
  apply bool_decide_eq_false. lia.
Qed.

Lemma digit_not_sign c :
  is_Some (Conv.digit_of c) -> c <> "-"%char /\ c <> "+"%char.
Proof. intros [d Hd]. split; intros ->; vm_compute in Hd; discriminate Hd. Qed.

Lemma strtol_dec n : Conv.strtol (dec n) = Some (Z.of_N n).
Proof.
  pose proof (digits_dec n) as Hd. destruct (dec_head n) as (c & rest & He & Hc).
  unfold Conv.strtol. rewrite He in *. cbn [Conv.skip_space].
  rewrite (digit_not_space _ Hc). destruct (digit_not_sign _ Hc) as [H1 H2].
  destruct c as [[] [] [] [] [] [] [] []]; try done.
Qed.

Lemma strtol_minus_dec n : Conv.strtol (String "-" (dec n)) = Some (- Z.of_N n)%Z.
Proof.
  unfold Conv.strtol. change (Conv.skip_space (String "-" (dec n))) with (String "-" (dec n)).
  cbv iota. by rewrite digits_dec.
Qed.

(** X10.  [RANDOM_SEED] written as a decimal numeral, with or without a minus
    sign, is the seed when it fits an [int]; a numeral beyond the range of
    [int] makes [std::stoi] throw and leaves the seed at 42. *)
Theorem decimal_seed_is_taken (minus : bool) n env s :
  env "RANDOM_SEED"%string = Some (if minus then String "-" (dec n) else dec n) ->
  let v := if minus then (- Z.of_N n)%Z else Z.of_N n in
  Sched.rng (Sched.init_rng env s) =
    (if bool_decide (- 2 ^ 31 <= v < 2 ^ 31)%Z then v else 42%Z, 0).
Proof.
  intros He. unfold Sched.init_rng, Conv.stoi, Conv.in_range. rewrite He.
  destruct minus; rewrite ?strtol_dec, ?strtol_minus_dec;
    cbn [mbind option_bind Sched.rng Sched.set_rng]; repeat case_bool_decide; try done; lia.
Qed.

Lemma decimal_seed_is_taken_witness :
  Scenario.setenv "RANDOM_SEED" (String "-" (dec 7)) Scenario.no_env "RANDOM_SEED"%string
    = Some (String "-" (dec 7)) /\
  Sched.rng (Sched.init_rng (Scenario.setenv "RANDOM_SEED" (String "-" (dec 7)) Scenario.no_env)
               Sched.initial) = ((-7)%Z, 0).
Proof.
  split; [reflexivity|].
  apply (decimal_seed_is_taken true 7
           (Scenario.setenv "RANDOM_SEED" (String "-" (dec 7)) Scenario.no_env) Sched.initial).
  reflexivity.
Defined.

(** X11.  [ISOFUZZ_EPOCH_MS] written as a decimal numeral sets the epoch when it
    is positive and fits a [long]; 0 and numerals beyond the range of
    [long] leave the epoch as it was. *)
Theorem decimal_epoch_is_taken n env s :
  env "ISOFUZZ_EPOCH_MS"%string = Some (dec n) ->
  Sched.EPOCH_DURATION_MS (Sched.read_epoch_ms env s) =
    if bool_decide (0 < n < 2 ^ 63)%N then Z.of_N n else Sched.EPOCH_DURATION_MS s.
Proof.
  intros He. unfold Sched.read_epoch_ms, Conv.stol, Conv.in_range. rewrite He, strtol_dec.
  cbn [mbind option_bind]. repeat case_bool_decide; try done; lia.
Qed.

Lemma decimal_epoch_is_taken_witness :
  Scenario.env_epoch_50 "ISOFUZZ_EPOCH_MS"%string = Some (dec 50) /\
  Sched.EPOCH_DURATION_MS (Sched.read_epoch_ms Scenario.env_epoch_50 Sched.initial) = 50%Z.
Proof.
  split; [reflexivity|].
  apply (decimal_epoch_is_taken 50 Scenario.env_epoch_50 Sched.initial). reflexivity.
Defined.

(** ** The fields of a line *)

Lemma split_at_free sep f : free_of sep f = true -> split_at sep f = [f].
Proof.
  induction f as [|c f IH]; [done|]. cbn [free_of split_at].
  destruct (Ascii.eqb c sep); [done|]. intros Hf. by rewrite IH.
Qed.

Lemma split_at_app sep f rest :
  free_of sep f = true ->
  split_at sep (f ++ String sep rest) = f :: split_at sep rest.
Proof.
  induction f as [|c f IH].
  - intros _. change ("" ++ String sep rest)%string with (String sep rest).
    cbn [split_at]. by rewrite Ascii.eqb_refl.
  - change (String c f ++ String sep rest)%string with (String c (f ++ String sep rest)).
    cbn [free_of split_at]. destruct (Ascii.eqb c sep); [done|]. intros Hf. by rewrite IH.
Qed.

Lemma split_at_concat sep f fields :
  Forall (fun x => free_of sep x = true) (f :: fields) ->
  split_at sep (String.concat (String sep EmptyString) (f :: fields)) = f :: fields.
Proof.
  revert f. induction fields as [|g fields IH]; intros f [Hf Hfs]%Forall_cons.
  - by apply split_at_free.
  - change (String.concat (String sep "") (f :: g :: fields))
      with (f ++ String sep (String.concat (String sep "") (g :: fields)))%string.
    rewrite split_at_app by done. f_equal. by apply IH.
Qed.

Lemma numeral_free d : free_of tab_char (NilEmpty.string_of_uint d) = true.
Proof. induction d; [done|..]; cbn [NilEmpty.string_of_uint free_of]; by rewrite IHd. Qed.

Lemma dec_free n : free_of tab_char (dec n) = true.
Proof. apply numeral_free. Qed.

Lemma op_name_free op : free_of tab_char (op_type_to_string op) = true.
Proof. by destruct op. Qed.

(** X12.  A line can be cut back into its fields: when the table and column
    names of the object hold no tab, splitting the line at the tabs gives
    exactly the seven fields that were streamed: thread, effective id,
    operation, table, column, row and last writer. *)
Theorem log_line_splits_into_its_fields trx op object lw :
  (forall o, object = Some o -> tab_free_object o = true) ->
  split_at tab_char (log_line trx op object lw) = log_fields trx op object lw /\
  length (log_fields trx op object lw) = 7.
Proof.
  intros Ho. split; [|by destruct object].
  unfold log_line, log_fields. cbn [app].
  apply (split_at_concat tab_char). repeat apply Forall_cons_2; try apply dec_free;
    try apply op_name_free.
  destruct object as [o|]; cbn [app].
  - specialize (Ho o eq_refl). unfold tab_free_object in Ho.
    apply andb_true_iff in Ho as [Ht Hc].
    repeat apply Forall_cons_2; try apply dec_free; try done.
    + destruct (column_name o); [done|reflexivity].
    + destruct op; try apply dec_free; reflexivity.
  - repeat apply Forall_cons_2; try reflexivity; try done.
    destruct op; try apply dec_free; reflexivity.
Qed.

Lemma log_line_splits_into_its_fields_witness :
  split_at tab_char
    (log_line {| lib_id := 1; dbms_id := 0; thread_id := 7 |} READ
       (Some Scenario.sample_object) 3) =
  [ "7"; "1"; "READ"; "t"; "c"; "42"; "3" ]%string.
Proof.
  refine (proj1 (log_line_splits_into_its_fields {| lib_id := 1; dbms_id := 0; thread_id := 7 |}
                   READ (Some Scenario.sample_object) 3 _)).
  intros o [= <-]. reflexivity.
Defined.

(** X13.  The name of the operation in a line tells the operation type:
    [op_type_to_string] gives different types different names, so only a
    value outside the enumerators is logged as UNKNOWN. *)
Theorem op_names_are_distinct op op' :
  op <> op' -> op_type_to_string op <> op_type_to_string op'.
Proof. destruct op, op'; done. Qed.

Lemma op_names_are_distinct_witness :
  TXN_COMMIT <> OP_OTHER /\ op_type_to_string TXN_COMMIT <> op_type_to_string OP_OTHER.
Proof. split; [discriminate|]. apply (op_names_are_distinct TXN_COMMIT OP_OTHER). discriminate. Defined.

(** X14.  For INSERT, BEGIN, COMMIT and unknown operation types
    [isofuzz_log_op] ignores the [last_writer_trx_id] it is passed: the
    call does the same as with 0, and the last field of the line is 0. *)
Theorem last_writer_is_ignored_for_inserts t h op object lw s trx :
  op = WRITE_INSERT \/ op = TXN_BEGIN \/ op = TXN_COMMIT \/ op = OP_OTHER ->
  isofuzz_log_op t h op object lw s = isofuzz_log_op t h op object 0 s /\
  last (log_fields trx op (Some object) lw) = Some "0"%string.
Proof.
  intros Hop. unfold isofuzz_log_op, log_generic_op, log_line, log_fields.
  by destruct Hop as [->|[->|[->| ->]]].
Qed.

Lemma last_writer_is_ignored_for_inserts_witness :
  isofuzz_log_op 8 2 WRITE_INSERT Scenario.sample_object 5 Sample.two_live =
  isofuzz_log_op 8 2 WRITE_INSERT Scenario.sample_object 0 Sample.two_live.
Proof.
  refine (proj1 (last_writer_is_ignored_for_inserts 8 2 WRITE_INSERT Scenario.sample_object 5
                   Sample.two_live {| lib_id := 2; dbms_id := 0; thread_id := 8 |} _)).
  by left.
Defined.

(** ** The two revisions of the entry points *)

(** X15.  For the four data operations the header names, both revisions of
    [isofuzz_log_op] write the same line and leave the same state, and
    both dereference a handle that is not live. *)
Theorem log_op_same_in_both_revisions t h op object lw s :
  op = READ \/ op = WRITE_UPDATE \/ op = WRITE_INSERT \/ op = WRITE_DELETE ->
  LibOld.isofuzz_log_op h op object lw s = isofuzz_log_op t h op object lw s.
Proof.
  intros Hop. unfold LibOld.isofuzz_log_op, isofuzz_log_op, log_generic_op.
  destruct (get_trx h) as [p|]; [|done]. destruct (records (ctx s) !! p) as [trx|]; [|done].
  by destruct Hop as [->|[->|[->| ->]]].
Qed.

Lemma log_op_same_in_both_revisions_witness :
  LibOld.isofuzz_log_op 2 WRITE_INSERT Scenario.sample_object 5 Sample.two_live =
  isofuzz_log_op 8 2 WRITE_INSERT Scenario.sample_object 5 Sample.two_live.
Proof. apply log_op_same_in_both_revisions. by right; right; left. Defined.

(** X16.  The two revisions of [isofuzz_trx_promote] store the new id alike and
    differ in the line they write for a live handle: the earlier one
    writes six fields and always the new id as the second; the later one
    writes seven (three N/A) and, for a promotion to 0, the [lib_id] as
    the second. *)
Theorem promote_line_in_both_revisions t h new_id s trx :
  h <> 0%N -> records (ctx s) !! h = Some trx ->
  exists c,
    records c = <[h := {| lib_id := lib_id trx; dbms_id := new_id;
                          thread_id := thread_id trx |}]> (records (ctx s)) /\
    m_transactions c = m_transactions (ctx s) /\ next_lib_id c = next_lib_id (ctx s) /\
    LibOld.isofuzz_trx_promote h new_id s =
      Done (set_logger
              (Logger.logger_log_line
                 (String.concat tab
                    [ show_thread_id (thread_id trx); dec new_id; "PROMOTE"; "N/A"; "N/A";
                      dec (lib_id trx) ]%string) (logger s)) (set_ctx c s)) /\
    isofuzz_trx_promote t h new_id s =
      Done (set_logger
              (Logger.logger_log_line
                 (String.concat tab
                    [ show_thread_id (thread_id trx);
                      dec (if bool_decide (new_id = 0%N) then lib_id trx else new_id);
                      "PROMOTE"; "N/A"; "N/A"; "N/A"; dec (lib_id trx) ]%string)
                 (logger s)) (set_ctx c s)).
Proof.
  intros Hnz Hr.
  exists {| m_transactions := m_transactions (ctx s); next_lib_id := next_lib_id (ctx s);
            records := <[h := {| lib_id := lib_id trx; dbms_id := new_id;
                                 thread_id := thread_id trx |}]> (records (ctx s)) |}.
  split_and!; [reflexivity..| |].
  - unfold LibOld.isofuzz_trx_promote. by rewrite get_trx_nonnull, Hr.
  - unfold isofuzz_trx_promote. rewrite get_trx_nonnull, Hr by done.
    erewrite log_generic_op_live; [|done|cbn [ctx set_ctx records]; apply lookup_insert_eq].
    done.
Qed.

Lemma promote_line_in_both_revisions_witness :
  exists s1 s2,
    LibOld.isofuzz_trx_promote 2 0 Sample.two_live = Done s1 /\
    isofuzz_trx_promote 8 2 0 Sample.two_live = Done s2 /\
    Logger.written (logger s1) = [String.concat tab ["8"; "0"; "PROMOTE"; "N/A"; "N/A"; "2"]%string] /\
    Logger.written (logger s2) =
      [String.concat tab ["8"; "2"; "PROMOTE"; "N/A"; "N/A"; "N/A"; "2"]%string].
Proof.
  destruct (promote_line_in_both_revisions 8 2 0 Sample.two_live
              {| lib_id := 2; dbms_id := 0; thread_id := 8 |})
    as (c & _ & _ & _ & Hold & Hnew); [done|reflexivity|].
  eexists _, _. split; [exact Hold|]. split; [exact Hnew|]. split; reflexivity.
Defined.

End text_facts.

(* ===================================================================== *)
(** * The thread a line names *)
(* ===================================================================== *)

Section begin_thread.
Import Lib Reading.

(** The text of a line starts with the identifier of the thread the
    record names, followed by a tab; cut at the tabs, the line has that
    identifier as its first field. *)
Lemma log_line_head trx op object lw :
  exists rest,
    log_line trx op object lw = (show_thread_id (thread_id trx) ++ String tab_char rest)%string /\
    head (split_at tab_char (log_line trx op object lw)) = Some (show_thread_id (thread_id trx)).
Proof.
  unfold log_line, log_fields. cbn [app].
  match goal with |- context [String.concat tab (?f :: ?g :: ?fs)] =>
    change (String.concat tab (f :: g :: fs))
      with (f ++ String tab_char (String.concat tab (g :: fs)))%string
  end.
  eexists. split; [reflexivity|]. by rewrite split_at_app by apply dec_free.
Qed.

(** C10.  A transaction is begun by thread [t] and gets the handle [h].
    Whatever calls any threads make afterwards, as long as none ends [h]
    (and the 64-bit id counter does not wrap), the record behind [h] still
    names [t], and a line logged on [h] from any thread [t'], with or
    without an object, is handed to the sink as a text that starts with
    the identifier of [t] and a tab: cut at its tabs, the line has the
    identifier of [t] as its first field.  The BEGIN line written by
    [isofuzz_trx_begin] itself is such a line. *)
Theorem log_line_names_begin_thread rev pre s0 t h s1 post s2 :
  run rev pre initial = Done s0 ->
  isofuzz_trx_begin t s0 = Done (h, s1) ->
  run rev post s1 = Done s2 ->
  Forall (fun c => ~ ends h c) post ->
  (N.of_nat (length pre + length post) + 2 < 2 ^ 64)%N ->
  exists trx,
    records (ctx s2) !! h = Some trx /\ thread_id trx = t /\
    (exists id,
       logger s1 =
         Logger.logger_log_line
           (String.concat tab
              [ show_thread_id t; dec id; "BEGIN"; "N/A"; "N/A"; "N/A"; "0" ]%string)
           (logger s0)) /\
    forall t' op object lw,
      log_generic_op t' h op object lw s2 =
        Done (set_logger (Logger.logger_log_line (log_line trx op object lw) (logger s2)) s2) /\
      log_fields trx op object lw !! 0 = Some (show_thread_id t) /\
      (exists rest,
         log_line trx op object lw = (show_thread_id t ++ String tab_char rest)%string) /\
      head (split_at tab_char (log_line trx op object lw)) = Some (show_thread_id t).
Proof.
  intros Hpre Hbeg Hpost Hne Hb. rewrite Nat2N.inj_add in Hb.
  destruct (run_registry _ _ _ _ Hpre registry_wf_initial) as (Hwf0 & Hn0 & _);
    [cbn; lia|]. cbn [next_lib_id ctx initial initial_ctx] in Hn0.
  destruct (isofuzz_trx_begin_spec _ _ _ _ Hwf0 ltac:(lia) Hbeg)
    as (Hnz & Hrec & Hwf1 & Hn1 & Hlog).
  destruct (run_registry _ _ _ _ Hpost Hwf1 ltac:(lia)) as (_ & _ & Hkeep).
  destruct (Hkeep _ _ Hrec Hne) as (trx & Hh & _ & Hth & _). cbn [thread_id] in Hth.
  exists trx. split_and!; [done|done|by exists (next_lib_id (ctx s0))|].
  intros t' op object lw.
  destruct (log_line_head trx op object lw) as (rest & Hline & Hhead). rewrite Hth in *.
  split_and!; [by apply log_generic_op_live| |by exists rest|done].
  unfold log_fields. cbn. by rewrite Hth.
Qed.

Lemma log_line_names_begin_thread_witness :
  exists s0 s1 s2,
    run Sched.WorkerOwnsWaiter Scenario.calls_before initial = Done s0 /\
    isofuzz_trx_begin 7 s0 = Done (1%N, s1) /\
    run Sched.WorkerOwnsWaiter Scenario.calls_after s1 = Done s2 /\
    Forall (fun c => ~ ends 1 c) Scenario.calls_after /\
    (N.of_nat (length Scenario.calls_before + length Scenario.calls_after) + 2 < 2 ^ 64)%N /\
    exists trx,
      records (ctx s2) !! 1%N = Some trx /\ thread_id trx = 7 /\
      forall op object lw,
        head (split_at tab_char (log_line trx op object lw)) = Some (show_thread_id 7).
Proof.
  eexists _, _, _.
  split; [vm_compute; reflexivity|]. split; [vm_compute; reflexivity|].
  split; [vm_compute; reflexivity|].
  split; [repeat constructor; simpl; intros H; try done; discriminate H|].
  split; [vm_compute; reflexivity|].
  destruct (log_line_names_begin_thread Sched.WorkerOwnsWaiter Scenario.calls_before _ 7 1 _
              Scenario.calls_after _
              ltac:(vm_compute; reflexivity) ltac:(vm_compute; reflexivity)
              ltac:(vm_compute; reflexivity)
              ltac:(repeat constructor; simpl; intros H; try done; discriminate H)
              ltac:(vm_compute; reflexivity)) as (trx & Hr & Ht & _ & Hall).
  exists trx. split_and!; [exact Hr|exact Ht|].
  intros op object lw. by destruct (Hall 0 op object lw) as (_ & _ & _ & H).
Defined.

End begin_thread.

(* ===================================================================== *)
(** * The queues of the scheduler *)
(* ===================================================================== *)

Ltac fields :=
  cbn [Sched.g_epoch_state Sched.EPOCH_DURATION_MS Sched.scheduler_running
       Sched.scheduler_thread Sched.joining Sched.sweeping
       Sched.pending_requests Sched.trx_wait_map Sched.scheduler_queue Sched.rng
       Sched.waiters Sched.workers Sched.trace
       Sched.set_epoch Sched.set_epoch_ms Sched.set_running Sched.set_thread
       Sched.set_joining Sched.set_sweeping Sched.set_pending Sched.set_wait_map
       Sched.set_queue Sched.set_rng Sched.set_waiters Sched.set_workers Sched.emit
       Sched.signal Sched.destroy Sched.global_mutex_free Sched.aborted
       mbind option_bind negb].

Section queue_facts.
Import Sched Reading.

Lemma swapped_quiet s s' evs :
  trace s' = trace s ++ evs -> swaps evs = [] -> batches evs = [] ->
  local_pending (scheduler_thread s') = local_pending (scheduler_thread s) ->
  swapped_inv s -> swapped_inv s'.
Proof.
  unfold swapped_inv. intros -> Hs Hb -> H.
  by rewrite swaps_app, batches_app, Hs, Hb, !app_nil_r.
Qed.

Lemma swapped_silent s s' :
  trace s' = trace s ->
  local_pending (scheduler_thread s') = local_pending (scheduler_thread s) ->
  swapped_inv s -> swapped_inv s'.
Proof. intros Ht. apply (swapped_quiet s s' []); by rewrite ?app_nil_r. Qed.

Lemma step_swapped rev a s s' : step rev a s = Some s' -> swapped_inv s -> swapped_inv s'.
Proof.
  intros Hs. step_cases Hs.
  all: try (apply swapped_silent; simpl; unfold init_rng, read_epoch_ms;
            repeat (case_match; simpl);
            first [done|match goal with E : scheduler_thread _ = _ |- _ => by rewrite E end]).
  all: try (eapply swapped_quiet; simpl;
            [rewrite <- ?app_assoc; reflexivity|done|done
            |first [done|match goal with E : scheduler_thread _ = _ |- _ => by rewrite E end]]).
  - match goal with H : sweeping s = Some (?n, _) |- _ =>
      pose proof (sweep_destroy_frame n (map_to_list (trx_wait_map s)) s)
        as (_ & _ & Hth & _ & _ & _ & _ & _ & _ & Ht);
      pose proof (fifo_destroys (fun e : N * N => (HostThread n, e.2))
                    (map_to_list (trx_wait_map s))) as [_ Hb];
      pose proof (pops_destroys (fun e : N * N => (HostThread n, e.2))
                    (map_to_list (trx_wait_map s))) as [_ Hbt]
    end.
    eapply swapped_quiet; simpl; [exact Ht|exact Hb|exact Hbt|by rewrite Hth].
  - unfold swapped_inv. simpl.
    match goal with E : scheduler_thread _ = _ |- _ => rewrite E end.
    rewrite swaps_app, batches_app. simpl.
    intros H. rewrite concat_app, H. simpl. by rewrite !app_nil_r.
  - unfold swapped_inv. simpl.
    match goal with E : scheduler_thread _ = _ |- _ => rewrite E end.
    rewrite swaps_app, batches_app. simpl.
    intros H. rewrite !concat_app, H. simpl. by rewrite !app_nil_r.
Qed.

Lemma reachable_swapped rev s : reachable rev s -> swapped_inv s.
Proof.
  induction 1 as [|s a s' Hr IH Hs]; [done|]. by eapply step_swapped.
Qed.

(** X17.  The scheduler loses no request and invents none: in every state the
    system can reach, the entries pushed to the pending FIFO so far are
    exactly the entries popped so far, those in the priority queue, those
    in the batch the scheduler thread holds, and those still pending. *)
Theorem no_request_is_lost rev acts s :
  run rev acts initial = Some s ->
  pushes (trace s) ≡ₚ
    pops (trace s) ++ scheduler_queue s ++ local_pending (scheduler_thread s)
    ++ pending_requests s.
Proof.
  intros Hrun.
  pose proof (run_reachable rev acts initial s (reachable_initial rev) Hrun) as Hr.
  destruct (reachable_fifo_inv _ _ Hr) as [Hf _].
  destruct (reachable_queue_inv _ _ Hr) as (_ & _ & Hq & _).
  pose proof (reachable_swapped _ _ Hr) as Hs. unfold swapped_inv in Hs.
  rewrite Hf, Hs, Hq. by rewrite <- !app_assoc.
Qed.

Lemma no_request_is_lost_witness :
  exists s, run WorkerOwnsWaiter Scenario.spec_epoch initial = Some s /\
            pushes (trace s) ≡ₚ
              pops (trace s) ++ scheduler_queue s ++ local_pending (scheduler_thread s)
              ++ pending_requests s.
Proof.
  eexists. split; [vm_compute; reflexivity|].
  apply (no_request_is_lost WorkerOwnsWaiter Scenario.spec_epoch). vm_compute. reflexivity.
Defined.

(** X18.  What the scheduler thread pops is an entry of least priority: in every
    state the system can reach with the scheduler thread before a pop, the
    global mutex free and the queue not empty, its next step pops the top
    entry, no entry in the queue has a lower priority, and the queue loses
    exactly that entry. *)
Theorem next_pop_is_a_minimum rev acts s e :
  run rev acts initial = Some s ->
  scheduler_thread s = SDrain -> sweeping s = None ->
  PQ.top (scheduler_queue s) = Some e ->
  (forall x, x ∈ scheduler_queue s -> (e.1 <= x.1)%Z) /\
  exists s' evs, scheduler_step rev s = Some s' /\
    trace s' = trace s ++ EvPop e :: evs /\ pops evs = [] /\
    scheduler_queue s ≡ₚ e :: scheduler_queue s' /\ PQ.heap (scheduler_queue s').
Proof.
  intros Hrun Hpc Hsw Htop.
  pose proof (run_reachable rev acts initial s (reachable_initial rev) Hrun) as Hr.
  destruct (reachable_queue_inv _ _ Hr) as (Hheap & _).
  destruct (pop_spec _ _ Hheap Htop) as [Hh' Hperm].
  split; [intros x Hx; exact (top_min _ _ _ Hheap Htop Hx)|].
  unfold scheduler_step, global_mutex_free. rewrite Hpc, Hsw, Htop.
  destruct (trx_wait_map s !! e.2); eexists _, _; (split; [reflexivity|]); simpl.
  - by instantiate (1 := []).
  - rewrite <- app_assoc. by instantiate (1 := [EvNoWaiter e.2]).
Qed.

Lemma next_pop_is_a_minimum_witness :
  exists s, run WorkerOwnsWaiter (take 23 Scenario.two_epochs) initial = Some s /\
            scheduler_thread s = SDrain /\ PQ.top (scheduler_queue s) = Some (10%Z, 2%N) /\
            forall x, x ∈ scheduler_queue s -> (10 <= x.1)%Z.
Proof.
  eexists. split; [vm_compute; reflexivity|]. split; [vm_compute; reflexivity|].
  split; [vm_compute; reflexivity|].
  refine (proj1 (next_pop_is_a_minimum WorkerOwnsWaiter (take 23 Scenario.two_epochs) _
                   (10%Z, 2%N) _ _ _ _)); vm_compute; reflexivity.
Defined.


Lemma sched_steps_app rev n m s :
  sched_steps rev (n + m) s = sched_steps rev n s ≫= sched_steps rev m.
Proof.
  revert s. induction n as [|n IH]; intros s; [done|]. cbn [Nat.add sched_steps].
  destruct (scheduler_step rev s) as [s1|]; [|done]. cbn. apply IH.
Qed.

Lemma sched_steps_S rev n s :
  sched_steps rev (S n) s = scheduler_step rev s ≫= sched_steps rev n.
Proof. reflexivity. Qed.

Lemma run_cons rev a acts s : run rev (a :: acts) s = step rev a s ≫= run rev acts.
Proof. reflexivity. Qed.

Lemma mtx_free_spec w s :
  mtx_free w s = true <-> forall t pc, workers s !! t = Some pc -> holds_mtx pc <> Some w.
Proof. unfold mtx_free. rewrite bool_decide_eq_true. apply map_Forall_lookup. Qed.

Lemma holds_mtx_wake w pc : holds_mtx (wake w pc) = holds_mtx pc.
Proof. destruct pc; simpl; try done. by case_bool_decide. Qed.

Lemma mtx_free_wakes w0 w s s' :
  wakes w0 (workers s) (workers s') -> mtx_free w s = true -> mtx_free w s' = true.
Proof.
  rewrite !mtx_free_spec. intros Hw H t pc' Hpc'.
  destruct (Hw t) as [E|(id & E1 & E2)].
  - rewrite E in Hpc'. eauto.
  - rewrite E2 in Hpc'. by injection Hpc' as <-.
Qed.

Lemma mtx_free_same w s s' : workers s' = workers s -> mtx_free w s' = mtx_free w s.
Proof. unfold mtx_free. by intros ->. Qed.

Lemma alter_is_Some {A} (f : A -> A) (m : gmap N A) k k' :
  is_Some (alter f k m !! k') <-> is_Some (m !! k').
Proof.
  destruct (decide (k' = k)) as [->|Hne].
  - rewrite lookup_alter_eq. by rewrite fmap_is_Some.
  - by rewrite lookup_alter_ne.
Qed.

(** ** The sweep of [scheduler_shutdown] *)

Lemma sweep_step_frame rev s s' :
  sweep_step rev s = Some s' ->
  scheduler_queue s' = scheduler_queue s /\ pending_requests s' = pending_requests s /\
  g_epoch_state s' = g_epoch_state s /\ scheduler_running s' = scheduler_running s /\
  scheduler_thread s' = scheduler_thread s /\ joining s' = joining s /\
  rng s' = rng s /\ EPOCH_DURATION_MS s' = EPOCH_DURATION_MS s /\
  match sweeping s' with
  | None => trx_wait_map s' = ∅
  | Some _ => trx_wait_map s' = trx_wait_map s
  end.
Proof.
  unfold sweep_step. intros H.
  destruct (sweeping s) as [[t [[|[id w] todo]|w todo]]|]; [| | |done].
  - injection H as <-. destruct rev; [|done]. cbn.
    pose proof (sweep_destroy_frame t (map_to_list (trx_wait_map s)) s)
      as (-> & -> & -> & -> & _ & -> & -> & _ & _ & _).
    split_and!; try done.
    + generalize (map_to_list (trx_wait_map s)). intros l. revert s.
      induction l as [|x l IH]; intros s; [done|]. simpl. by rewrite IH.
    + generalize (map_to_list (trx_wait_map s)). intros l. revert s.
      induction l as [|x l IH]; intros s; [done|]. simpl. by rewrite IH.
  - by destruct (waiters s !! w); [injection H as <-|].
  - by destruct (waiters s !! w); [injection H as <-|].
Qed.

Lemma sweep_run_frame rev fuel s s' :
  sweep_run rev fuel s = Some s' ->
  scheduler_queue s' = scheduler_queue s /\ pending_requests s' = pending_requests s /\
  g_epoch_state s' = g_epoch_state s /\ scheduler_running s' = scheduler_running s /\
  scheduler_thread s' = scheduler_thread s /\ joining s' = joining s /\
  rng s' = rng s /\ EPOCH_DURATION_MS s' = EPOCH_DURATION_MS s /\
  sweeping s' = None /\ (sweeping s <> None -> trx_wait_map s' = ∅).
Proof.
  revert s. induction fuel as [|fuel IH]; intros s; simpl.
  - destruct (sweeping s) eqn:E; [done|]. intros [= <-]. by rewrite E.
  - destruct (sweeping s) eqn:E.
    2:{ intros [= <-]. by rewrite E. }
    destruct (sweep_step rev s) as [s1|] eqn:E1; [|done]. cbn. intros H.
    destruct (sweep_step_frame _ _ _ E1) as (<- & <- & <- & <- & <- & <- & <- & <- & Hm).
    destruct (IH _ H) as (-> & -> & -> & -> & -> & -> & -> & -> & Hs & Hm').
    split_and!; try done. intros _.
    destruct (sweeping s1) eqn:E2; [by apply Hm'|].
    destruct fuel; simpl in H; rewrite E2 in H; by injection H as <-.
Qed.

Lemma shutdown_finish_frame rev s s' :
  shutdown_finish rev s = Some s' ->
  scheduler_queue s' = scheduler_queue s /\ pending_requests s' = pending_requests s /\
  g_epoch_state s' = g_epoch_state s /\ scheduler_running s' = scheduler_running s /\
  scheduler_thread s' = SNoThread /\ joining s' = None /\
  rng s' = rng s /\ EPOCH_DURATION_MS s' = EPOCH_DURATION_MS s /\
  sweeping s' = None /\ trx_wait_map s' = ∅ /\
  scheduler_thread s = SExited /\ joining s <> None /\ sweeping s = None.
Proof.
  unfold shutdown_finish, shutdown_join. intros H.
  destruct (joining s) as [t|]; [|done].
  destruct (scheduler_thread s) eqn:Hpc; try done.
  destruct (sweeping s) eqn:Hsw; [done|]. cbn in H.
  destruct (sweep_run_frame _ _ _ _ H) as (-> & -> & -> & -> & -> & -> & -> & -> & -> & Hm).
  split_and!; try done. by apply Hm.
Qed.

(** ** The scheduler thread left to itself *)

Lemma unhindered_sched rev s s' :
  scheduler_step rev s = Some s' -> unhindered s -> unhindered s'.
Proof.
  unfold scheduler_step, unhindered, global_mutex_free.
  intros H (Hsw & Hmap & Hinj & Hhand).
  destruct (scheduler_thread s) eqn:Hpc; try done.
  - destruct (scheduler_running s); simpl in H;
      [destruct (g_epoch_state s)|]; injection H as <-; by split_and!.
  - destruct (pending_requests s); injection H as <-; by split_and!.
  - rewrite Hsw in H.
    destruct (PQ.top (scheduler_queue s)) as [e|]; [|injection H as <-; by split_and!].
    destruct (trx_wait_map s !! e.2) as [w|] eqn:Hw; injection H as <-; fields.
    + destruct (Hmap _ _ Hw) as [Hlive Hfree]. split_and!; [done| | |].
      * intros id w' [_ Hl]%lookup_delete_Some. by apply Hmap in Hl.
      * intros id id' w' [_ Hl]%lookup_delete_Some [_ Hl']%lookup_delete_Some. eauto.
      * intros w' [= <-]. split_and!; [done..|].
        intros id [Hne Hl]%lookup_delete_Some. by rewrite (Hinj _ _ _ Hl Hw) in Hne.
    + split_and!; [done..|]. by destruct rev.
  - rewrite Hsw in H. injection H as <-. by split_and!.
  - destruct (Hhand w eq_refl) as (Hlive & Hfree & Hno).
    destruct (waiters s !! w) eqn:Hx; [|done]. rewrite Hfree in H. injection H as <-. fields.
    split_and!; [done| |done|].
    + intros id' w' Hl. destruct (Hmap _ _ Hl). by rewrite alter_is_Some.
    + intros w' [= <-]. by rewrite alter_is_Some, Hx.
  - destruct (Hhand w eq_refl) as (Hlive & Hfree & Hno).
    destruct (waiters s !! w) eqn:Hx; [|done]. injection H as <-. fields.
    split_and!; [done| |done|].
    + intros id' w' Hl. destruct (Hmap _ _ Hl) as [? Hf]. split; [done|].
      eapply mtx_free_wakes; [|exact Hf]. apply wake_one_wakes.
    + destruct rev; [|done]. intros w' [= <-]. fields. rewrite Hx. split_and!; [done| |done].
      eapply mtx_free_wakes; [|exact Hfree]. apply wake_one_wakes.
  - destruct (Hhand w eq_refl) as (Hlive & Hfree & Hno).
    injection H as <-. fields. split_and!; [done| |done|done].
    intros id' w' Hl. destruct (Hmap _ _ Hl) as [? Hf]. split; [|done].
    rewrite lookup_delete_ne; [done|]. intros <-. by apply Hno in Hl.
Qed.

Lemma sched_enabled rev s :
  unhindered s -> 0 < steps_to_loop (scheduler_thread s) -> is_Some (scheduler_step rev s).
Proof.
  unfold scheduler_step, unhindered, global_mutex_free.
  intros (Hsw & Hmap & Hinj & Hhand) Hk. rewrite Hsw.
  destruct (scheduler_thread s) eqn:Hpc; simpl in Hk; try lia.
  - by destruct (pending_requests s).
  - by repeat case_match.
  - done.
  - destruct (Hhand w eq_refl) as ([x ->] & -> & _). done.
  - destruct (Hhand w eq_refl) as ([x ->] & _). done.
  - done.
Qed.

Lemma sched_step_rank rev s s' :
  scheduler_step rev s = Some s' -> 0 < steps_to_loop (scheduler_thread s) ->
  steps_to_loop (scheduler_thread s') < steps_to_loop (scheduler_thread s).
Proof.
  unfold scheduler_step. intros H Hk.
  destruct (scheduler_thread s) eqn:Hpc; simpl in Hk; try lia.
  all: repeat (case_match; try done); injection H as <-; simpl; try lia.
Qed.

Lemma sched_step_keeps rev s s' :
  scheduler_step rev s = Some s' ->
  scheduler_running s' = scheduler_running s /\ joining s' = joining s /\
  sweeping s' = sweeping s.
Proof.
  unfold scheduler_step. intros H.
  destruct (scheduler_thread s) eqn:Hpc; try done.
  all: by repeat (case_match; try done); injection H as <-.
Qed.

(** From the signal to the loop test: the flag is written, the thread
    notified and, where the scheduler thread owns the waiter, the waiter
    destroyed. *)
Lemma sched_step_in_hand rev s s' w :
  in_hand (scheduler_thread s) = Some w -> scheduler_step rev s = Some s' ->
  scheduler_queue s' = scheduler_queue s /\ g_epoch_state s' = g_epoch_state s /\
  trx_wait_map s' = trx_wait_map s /\ pops (trace s') = pops (trace s) /\
  (scheduler_thread s' = SLoop \/ is_Some (in_hand (scheduler_thread s'))).
Proof.
  unfold scheduler_step. intros Hw H.
  destruct (scheduler_thread s) eqn:Hpc; try done.
  all: repeat (case_match; try done); injection H as <-; simpl;
       rewrite ?pops_app, ?app_nil_r; split_and!; eauto.
Qed.

Lemma finish_round rev k s :
  steps_to_loop (scheduler_thread s) <= k -> unhindered s ->
  is_Some (in_hand (scheduler_thread s)) ->
  exists n s', n <= steps_to_loop (scheduler_thread s) /\ sched_steps rev n s = Some s' /\
    scheduler_thread s' = SLoop /\ unhindered s' /\
    scheduler_running s' = scheduler_running s /\
    scheduler_queue s' = scheduler_queue s /\ g_epoch_state s' = g_epoch_state s /\
    trx_wait_map s' = trx_wait_map s /\ pops (trace s') = pops (trace s).
Proof.
  revert s. induction k as [|k IH]; intros s Hk Hun [w Hw].
  - destruct (scheduler_thread s); simpl in *; try done; lia.
  - assert (Hpos : 0 < steps_to_loop (scheduler_thread s)).
    { destruct (scheduler_thread s); simpl in *; try done; lia. }
    destruct (sched_enabled rev s Hun Hpos) as [s1 Hs1].
    pose proof (sched_step_rank _ _ _ Hs1 Hpos) as Hlt.
    pose proof (unhindered_sched _ _ _ Hs1 Hun) as Hun1.
    destruct (sched_step_keeps _ _ _ Hs1) as (Hr & _ & _).
    destruct (sched_step_in_hand _ _ _ _ Hw Hs1) as (Hq & He & Hm & Hp & [Hl|Hh]).
    + exists 1, s1. split_and!; try done. by rewrite sched_steps_S, Hs1.
    + destruct (IH s1) as (n & s' & Hn & Hs' & ? & ? & ? & ? & ? & ? & ?); [lia|done..|].
      exists (S n), s'. split_and!; try congruence; [lia|].
      by rewrite sched_steps_S, Hs1.
Qed.


(** One round of DRAINING: the loop test, the pop and, if the entry's
    waiter is registered, the signal. *)
Lemma drain_round rev s e :
  scheduler_thread s = SLoop -> scheduler_running s = true -> g_epoch_state s = DRAINING ->
  PQ.top (scheduler_queue s) = Some e -> unhindered s ->
  exists n s1, n <= 5 /\ sched_steps rev n s = Some s1 /\
    scheduler_running s1 = true /\ g_epoch_state s1 = DRAINING /\
    scheduler_queue s1 = PQ.pop (scheduler_queue s) /\
    pops (trace s1) = pops (trace s) ++ [e] /\
    ((scheduler_thread s1 = SLoop /\ unhindered s1) \/
     (rev = WorkerOwnsWaiter /\ scheduler_thread s1 = SAborted /\
      trx_wait_map s1 !! e.2 = None /\ trace s1 = trace s ++ [EvPop e; EvNoWaiter e.2])).
Proof.
  intros Hpc Hrun Hep Htop Hun.
  assert (H1 : scheduler_step rev s = Some (set_thread SDrain s)).
  { unfold scheduler_step. by rewrite Hpc, Hrun, Hep. }
  pose proof (unhindered_sched _ _ _ H1 Hun) as Hun1.
  assert (Hsw : sweeping s = None) by apply Hun.
  destruct (trx_wait_map s !! e.2) as [w|] eqn:Hw.
  - set (s2 := set_thread (SSignal e.2 w)
                 (set_wait_map (delete e.2 (trx_wait_map s))
                    (emit [EvPop e] (set_queue (PQ.pop (scheduler_queue s))
                                       (set_thread SDrain s))))).
    assert (H2 : scheduler_step rev (set_thread SDrain s) = Some s2).
    { unfold scheduler_step, global_mutex_free. fields. by rewrite Hsw, Htop, Hw. }
    pose proof (unhindered_sched _ _ _ H2 Hun1) as Hun2.
    destruct (finish_round rev 3 s2) as (n & s' & Hn & Hs' & Hl & Hun' & Hr & Hq & He & _ & Hp);
      [done|done|by eexists|].
    exists (S (S n)), s'. split_and!.
    + simpl in Hn. lia.
    + rewrite sched_steps_S, H1. cbn [mbind option_bind]. by rewrite sched_steps_S, H2.
    + by rewrite Hr.
    + by rewrite He.
    + by rewrite Hq.
    + rewrite Hp. unfold s2. fields. by rewrite pops_app.
    + by left.
  - set (s2 := emit [EvNoWaiter e.2]
                 (set_thread match rev with MapOwnsWaiter => SLoop | WorkerOwnsWaiter => SAborted end
                    (emit [EvPop e] (set_queue (PQ.pop (scheduler_queue s))
                                       (set_thread SDrain s))))).
    assert (H2 : scheduler_step rev (set_thread SDrain s) = Some s2).
    { unfold scheduler_step, global_mutex_free. fields. by rewrite Hsw, Htop, Hw. }
    pose proof (unhindered_sched _ _ _ H2 Hun1) as Hun2.
    exists 2, s2. split_and!; [lia| |done|done|done| |].
    + rewrite sched_steps_S, H1. cbn [mbind option_bind]. by rewrite sched_steps_S, H2.
    + unfold s2. fields. by rewrite !pops_app, !app_nil_r.
    + destruct rev; [by left|right]. unfold s2. fields. by rewrite <- app_assoc.
Qed.

(** X19.  DRAINING comes to an end: a running scheduler thread that stands at
    its loop test in the DRAINING state, with nobody in its way (no sweep
    holds the global mutex, the registered waiters are live and no thread
    holds their mutex), needs at most five of its own steps per entry.
    Either it empties the priority queue, popping the entries in the
    queue's release order, and switches back to COLLECTING; or, in the
    revision that asserts, it pops an entry of the queue whose id has no
    waiter in the map and the process is aborted there, after pops that
    begin the release order.  The revision that does not assert always
    ends the first way. *)
Theorem draining_comes_to_an_end rev s :
  scheduler_thread s = SLoop -> scheduler_running s = true -> g_epoch_state s = DRAINING ->
  PQ.heap (scheduler_queue s) -> unhindered s ->
  exists n s', n <= 5 * length (scheduler_queue s) + 2 /\
    sched_steps rev n s = Some s' /\
    ((scheduler_thread s' = SLoop /\ g_epoch_state s' = COLLECTING /\
      scheduler_queue s' = [] /\
      pops (trace s') = pops (trace s) ++ PQ.drain (scheduler_queue s)) \/
     (rev = WorkerOwnsWaiter /\ scheduler_thread s' = SAborted /\
      exists e t, e ∈ scheduler_queue s /\ trx_wait_map s' !! e.2 = None /\
                  trace s' = t ++ [EvPop e; EvNoWaiter e.2] /\
                  pops (trace s') `prefix_of` pops (trace s) ++ PQ.drain (scheduler_queue s))).
Proof.
  remember (length (scheduler_queue s)) as k eqn:Hk. revert s Hk.
  induction k as [|k IH]; intros s Hk Hpc Hrun Hep Hheap Hun.
  - destruct (scheduler_queue s) eqn:Hq; [|done].
    assert (Hsw : sweeping s = None) by apply Hun.
    exists 2. eexists. split; [lia|]. rewrite sched_steps_S. unfold scheduler_step.
    rewrite Hpc, Hrun, Hep. fields.
    rewrite sched_steps_S. unfold scheduler_step, global_mutex_free. fields. rewrite Hsw, Hq. fields.
    split; [reflexivity|]. left. fields. by rewrite pops_app, !app_nil_r.
  - destruct (PQ.top (scheduler_queue s)) as [e|] eqn:Htop.
    2:{ apply top_None in Htop. by rewrite Htop in Hk. }
    destruct (pop_spec _ _ Hheap Htop) as [Hheap1 Hperm].
    pose proof (drain_unfold _ _ Hheap Htop) as Hdrain.
    destruct (drain_round rev s e Hpc Hrun Hep Htop Hun)
      as (n1 & s1 & Hn1 & Hs1 & Hrun1 & Hep1 & Hq1 & Hp1 & [[Hpc1 Hun1]|(-> & Hpc1 & Hm1 & Ht1)]).
    + assert (Hlen : length (scheduler_queue s1) = k).
      { apply Permutation_length in Hperm. rewrite Hq1. simpl in Hperm. lia. }
      destruct (IH s1 (eq_sym Hlen) Hpc1 Hrun1 Hep1) as (n2 & s2 & Hn2 & Hs2 & Hend);
        [by rewrite Hq1|done|].
      exists (n1 + n2), s2. split_and!; [lia|by rewrite sched_steps_app, Hs1|].
      destruct Hend as [(? & ? & ? & Hp2)|(? & ? & e' & t & Hin & ? & ? & Hpre)].
      * left. split_and!; [done..|].
        rewrite Hp2, Hp1, Hq1, Hdrain. by rewrite <- app_assoc.
      * right. split_and!; [done..|]. exists e', t. split_and!; [|done..|].
        -- rewrite Hperm, <- Hq1. by apply elem_of_cons; right.
        -- rewrite Hp1, Hq1, <- app_assoc in Hpre. by rewrite Hdrain.
    + exists n1, s1. split_and!; [lia|done|]. right. split_and!; [done..|].
      exists e, (trace s). split_and!; [|done..|].
      * rewrite Hperm. by apply elem_of_cons; left.
      * rewrite Hp1, Hdrain. apply prefix_app, prefix_cons, prefix_nil.
Qed.

Lemma unhindered_draining_loop : unhindered Sample.draining_loop.
Proof.
  split_and!; [done| | |done].
  - intros id w. cbn. intros [[<- <-]|[_ [<- <-]%lookup_singleton_Some]]%lookup_insert_Some;
      (split; [by eexists|by vm_compute]).
  - intros id id' w. cbn.
    intros [[<- <-]|[_ [<- <-]%lookup_singleton_Some]]%lookup_insert_Some
           [[<- ?]|[_ [<- ?]%lookup_singleton_Some]]%lookup_insert_Some; done.
Qed.

Lemma draining_comes_to_an_end_witness :
  exists n s', n <= 12 /\ sched_steps WorkerOwnsWaiter n Sample.draining_loop = Some s' /\
    ((scheduler_thread s' = SLoop /\ g_epoch_state s' = COLLECTING /\
      scheduler_queue s' = [] /\ pops (trace s') = [(10%Z, 1%N); (20%Z, 2%N)]) \/
     (scheduler_thread s' = SAborted)).
Proof.
  destruct (draining_comes_to_an_end WorkerOwnsWaiter Sample.draining_loop)
    as (n & s' & Hn & Hs & Hend);
    [reflexivity..| |exact unhindered_draining_loop|].
  - change (scheduler_queue Sample.draining_loop)
      with (PQ.push (20%Z, 2%N) (PQ.push (10%Z, 1%N) [])).
    apply push_spec, push_spec, heap_nil.
  - exists n, s'. split_and!; [exact Hn|exact Hs|].
    destruct Hend as [(? & ? & ? & Hp)|(_ & ? & _)]; [left|by right].
    split_and!; [done..|exact Hp].
Defined.

(** Both ends occur: with both waiters registered the queue is drained;
    with the waiter of the top entry not yet registered the revision that
    asserts is aborted at the first pop, the other one drains the queue. *)
Example draining_both_ends :
  (exists s', sched_steps WorkerOwnsWaiter 10 Sample.draining_loop = Some s' /\
              scheduler_thread s' = SLoop /\ g_epoch_state s' = COLLECTING /\
              pops (trace s') = [(10%Z, 1%N); (20%Z, 2%N)]) /\
  (exists s', sched_steps WorkerOwnsWaiter 2 Sample.draining_late = Some s' /\
              scheduler_thread s' = SAborted /\
              trace s' = [EvPop (10%Z, 1%N); EvNoWaiter 1] /\
              scheduler_step WorkerOwnsWaiter s' = None) /\
  (exists s', sched_steps MapOwnsWaiter 9 Sample.draining_late = Some s' /\
              scheduler_thread s' = SLoop /\ g_epoch_state s' = COLLECTING /\
              pops (trace s') = [(10%Z, 1%N); (20%Z, 2%N)]).
Proof. split_and!; eexists; by vm_compute. Qed.

(** X21.  [scheduler_shutdown] clears the waiter map and nothing else: the
    priority queue, the pending FIFO and the epoch state are as the
    scheduler thread left them, and they are still so after the next
    [scheduler_init].  An entry left on top of the queue is then popped by
    the new scheduler thread, finds no waiter, and takes the branch that
    holds the assertion: the revision that asserts is aborted there, the
    other one goes back to its loop test. *)
Theorem shutdown_keeps_the_queues rev env s s1 s2 :
  scheduler_running s = false ->
  shutdown_finish rev s = Some s1 -> scheduler_init env s1 = Some s2 ->
  scheduler_queue s2 = scheduler_queue s /\ pending_requests s2 = pending_requests s /\
  g_epoch_state s2 = g_epoch_state s /\ trx_wait_map s2 = ∅ /\
  scheduler_thread s2 = SLoop /\ scheduler_running s2 = true /\
  forall e, g_epoch_state s = DRAINING -> PQ.top (scheduler_queue s) = Some e ->
    exists s3, sched_steps rev 2 s2 = Some s3 /\
               trace s3 = trace s2 ++ [EvPop e; EvNoWaiter e.2] /\
               scheduler_thread s3 =
                 match rev with MapOwnsWaiter => SLoop | WorkerOwnsWaiter => SAborted end.
Proof.
  intros Hoff Hfin Hinit.
  destruct (shutdown_finish_frame _ _ _ Hfin)
    as (Hq & Hpd & Hep & Hrun & Hth & _ & _ & _ & Hsw & Hmap & _).
  unfold scheduler_init in Hinit. rewrite Hth in Hinit.
  destruct (scheduler_running s1) eqn:Hr1; [congruence|].
  injection Hinit as <-.
  assert (Hframe : forall x,
    scheduler_queue (init_rng env (read_epoch_ms env x)) = scheduler_queue x /\
    pending_requests (init_rng env (read_epoch_ms env x)) = pending_requests x /\
    g_epoch_state (init_rng env (read_epoch_ms env x)) = g_epoch_state x /\
    trx_wait_map (init_rng env (read_epoch_ms env x)) = trx_wait_map x /\
    scheduler_running (init_rng env (read_epoch_ms env x)) = scheduler_running x /\
    sweeping (init_rng env (read_epoch_ms env x)) = sweeping x /\
    trace (init_rng env (read_epoch_ms env x)) = trace x).
  { intros x. unfold init_rng, read_epoch_ms. by repeat case_match. }
  destruct (Hframe (set_running true s1)) as (F1 & F2 & F3 & F4 & F5 & F6 & F7).
  cbn [scheduler_queue pending_requests g_epoch_state trx_wait_map scheduler_thread
       scheduler_running sweeping set_thread set_running] in *.
  rewrite F1, F2, F3, F4, F5. split_and!; [done..|].
  intros e HD Htop. eexists. split.
  - rewrite sched_steps_S. unfold scheduler_step. fields. rewrite F5, F3, Hep, HD. fields.
    rewrite sched_steps_S. unfold scheduler_step, global_mutex_free. fields.
    rewrite F6, Hsw, F1, F4, Hq, Htop, Hmap, lookup_empty. fields. reflexivity.
  - fields. rewrite <- app_assoc. by destruct rev.
Qed.

Lemma shutdown_keeps_the_queues_witness :
  exists s1 s2,
    shutdown_finish WorkerOwnsWaiter Sample.joined = Some s1 /\
    scheduler_init Scenario.no_env s1 = Some s2 /\
    scheduler_queue s2 = [(10%Z, 1%N); (20%Z, 2%N)] /\ trx_wait_map s2 = ∅.
Proof.
  eexists _, _. split; [vm_compute; reflexivity|]. split; [vm_compute; reflexivity|].
  destruct (shutdown_keeps_the_queues WorkerOwnsWaiter Scenario.no_env Sample.joined _ _
              eq_refl ltac:(vm_compute; reflexivity) ltac:(vm_compute; reflexivity))
    as (Hq & _ & _ & Hm & _).
  split; [exact Hq|exact Hm].
Defined.

(** X22.  A start of the scheduler reseeds the generator and keeps the epoch
    length: with [RANDOM_SEED] unset the seed is 42 again, whatever was
    drawn before; with [ISOFUZZ_EPOCH_MS] unset the epoch is what the
    previous start configured, not the initial 5 ms. *)
Theorem start_reseeds_and_keeps_epoch env s s' :
  scheduler_running s = false -> scheduler_init env s = Some s' ->
  (env "RANDOM_SEED"%string = None -> rng s' = (42%Z, 0)) /\
  (env "ISOFUZZ_EPOCH_MS"%string = None -> EPOCH_DURATION_MS s' = EPOCH_DURATION_MS s) /\
  scheduler_thread s = SNoThread /\ scheduler_thread s' = SLoop /\ scheduler_running s' = true.
Proof.
  intros Hr Hinit. unfold scheduler_init in Hinit. rewrite Hr in Hinit.
  destruct (scheduler_thread s) eqn:Hpc; try done. injection Hinit as <-.
  unfold init_rng, read_epoch_ms. split_and!; try done.
  - by intros ->.
  - by intros ->.
  - by repeat case_match.
Qed.

Lemma start_reseeds_and_keeps_epoch_witness :
  exists s', scheduler_init Scenario.no_env Sample.stopped_50 = Some s' /\
             rng s' = (42%Z, 0) /\ EPOCH_DURATION_MS s' = 50%Z.
Proof.
  eexists. split; [vm_compute; reflexivity|].
  destruct (start_reseeds_and_keeps_epoch Scenario.no_env Sample.stopped_50 _ eq_refl
              ltac:(vm_compute; reflexivity)) as (H1 & H2 & _).
  split; [exact (H1 eq_refl)|exact (H2 eq_refl)].
Defined.

End queue_facts.

(* ===================================================================== *)
(** * The waiters, in the revision where the worker owns its waiter *)
(* ===================================================================== *)

Section waiter_facts.
Import Sched Reading.

Lemma waiter_inv_initial : waiter_inv initial.
Proof. by split_and!. Qed.

Lemma alike_insert (W : gmap nat worker_pc) t pc pc' :
  W !! t = Some pc -> waiter_of pc = waiter_of pc' -> waits_on pc = waits_on pc' ->
  (unregistered pc <-> unregistered pc') -> alike W (<[t := pc']> W).
Proof.
  intros Ht Hw Ho Hu t'. destruct (decide (t' = t)) as [->|Hne].
  - by rewrite lookup_insert_eq, Ht.
  - rewrite lookup_insert_ne by done. by destruct (W !! t').
Qed.

Lemma alike_wakes w W W' : wakes w W W' -> alike W W'.
Proof.
  intros H t. destruct (H t) as [->|(id & -> & ->)]; [by destruct (W !! t)|done].
Qed.

Lemma alike_refl W : alike W W.
Proof. intros t. by destruct (W !! t). Qed.

Lemma alike_fwd W W' t pc' :
  alike W W' -> W' !! t = Some pc' ->
  exists pc, W !! t = Some pc /\ waiter_of pc = waiter_of pc' /\
             waits_on pc = waits_on pc' /\ (unregistered pc <-> unregistered pc').
Proof.
  intros H Hk. specialize (H t). rewrite Hk in H.
  destruct (W !! t) as [pc|]; [|done]. by exists pc.
Qed.

Lemma alike_bwd W W' t pc :
  alike W W' -> W !! t = Some pc ->
  exists pc', W' !! t = Some pc' /\ waiter_of pc = waiter_of pc' /\
              waits_on pc = waits_on pc' /\ (unregistered pc <-> unregistered pc').
Proof.
  intros H Hk. specialize (H t). rewrite Hk in H.
  destruct (W' !! t) as [pc'|]; [|done]. by exists pc'.
Qed.

(** A step that leaves the waiters, the map and each thread's waiter as
    they are keeps the invariant. *)
Lemma waiter_inv_alike s s' :
  alike (workers s) (workers s') -> waiters s' = waiters s ->
  trx_wait_map s' = trx_wait_map s ->
  (sweeping s' = sweeping s \/
   exists t w todo, sweeping s = Some (t, HNotify w todo) /\
                    sweeping s' = Some (t, HWrite todo)) ->
  (scheduler_thread s' = scheduler_thread s \/
   ((forall id w, scheduler_thread s' <> SSignal id w) /\
    forall w, scheduler_thread s' <> SDestroy w)) ->
  waiter_inv s -> waiter_inv s'.
Proof.
  intros Hal Hw Hm Hsw Hpc (Hlive & Huniq & Hdown & Hmap & Hsig & Hnod & Hsweep).
  assert (Hun : forall id w, unswept s' id w -> unswept s id w).
  { intros id w. unfold unswept. by destruct Hsw as [->|(t & w0 & todo & -> & ->)]. }
  assert (Hown : forall id w,
    (exists t pc, workers s !! t = Some pc /\ waits_on pc = Some (id, w)) ->
    exists t pc, workers s' !! t = Some pc /\ waits_on pc = Some (id, w)).
  { intros id w (t & pc & Hk & Ho).
    destruct (alike_bwd _ _ _ _ Hal Hk) as (pc' & Hk' & _ & Ho' & _).
    exists t, pc'. split; [done|congruence]. }
  unfold waiter_inv. rewrite Hw, Hm. split_and!.
  - intros t pc' Hk. destruct (alike_fwd _ _ _ _ Hal Hk) as (pc & Hk0 & <- & _).
    by eapply Hlive.
  - intros t t' pc1 pc2 H1 H2 Heq.
    destruct (alike_fwd _ _ _ _ Hal H1) as (pc1' & H1' & E1 & _).
    destruct (alike_fwd _ _ _ _ Hal H2) as (pc2' & H2' & E2 & _).
    eapply Huniq; [done..|congruence].
  - intros t pc' Hk Hu. destruct (alike_fwd _ _ _ _ Hal Hk) as (pc & Hk0 & <- & _ & Hiff).
    eapply Hdown; [done|by apply Hiff].
  - intros id w Hl Hu. destruct (Hmap _ _ Hl (Hun _ _ Hu)) as [Hf Ho]. split; [done|].
    by apply Hown.
  - intros id w Hs. destruct Hpc as [Hpc|[Hpc _]]; [|by destruct (Hpc id w)].
    rewrite Hpc in Hs. destruct (Hsig _ _ Hs) as (Hf & Ho & Hno). split_and!; [done| |done].
    by apply Hown.
  - intros w. destruct Hpc as [Hpc|[_ Hpc]]; [rewrite Hpc; apply Hnod|apply Hpc].
  - intros t x Hx. destruct Hsw as [Hsw|(t0 & w0 & todo & Hs0 & Hs1)].
    + rewrite Hsw in Hx. by apply (Hsweep _ _ Hx).
    + rewrite Hs1 in Hx. injection Hx as <- <-. apply (Hsweep _ _ Hs0).
Qed.

(** Where the threads of a map entry and of the waiter in the scheduler
    thread's hand stand. *)
Lemma owner_is_unique s t pc t' pc' id w :
  waiter_inv s -> workers s !! t = Some pc -> waits_on pc = Some (id, w) ->
  workers s !! t' = Some pc' -> waiter_of pc' = w -> t' = t /\ pc' = pc.
Proof.
  intros (_ & Huniq & _) Hk Ho Hk' Hw.
  assert (waiter_of pc = w) by (destruct pc; simpl in *; congruence).
  assert (t' = t) as -> by (eapply Huniq; [done..|congruence]).
  split; [done|congruence].
Qed.


(** A thread moves on inside [scheduler_request] and keeps its waiter. *)
Lemma worker_moves (W : gmap nat worker_pc) t pc pc' t1 pc1 :
  W !! t = Some pc -> waiter_of pc' = waiter_of pc ->
  <[t := pc']> W !! t1 = Some pc1 ->
  exists pc0, W !! t1 = Some pc0 /\ waiter_of pc0 = waiter_of pc1 /\
              (t1 <> t -> pc0 = pc1) /\ (t1 = t -> pc0 = pc /\ pc1 = pc').
Proof.
  intros Ht Hw [[<- <-]|[Hne H1]]%lookup_insert_Some.
  - exists pc. by split_and!.
  - exists pc1. by split_and!.
Qed.

Ltac frame_inv s :=
  apply (waiter_inv_alike s);
  [apply alike_refl|done|done|by left|first [by left|right; by split]|done].

Ltac moved_inv s Ht :=
  apply (waiter_inv_alike s);
  [by apply (alike_insert _ _ _ _ Ht)|done|done|by left|by left|done].

Lemma step_waiter_inv a s s' :
  step WorkerOwnsWaiter a s = Some s' -> waiter_inv s -> waiter_inv s'.
Proof.
  intros Hstep Hinv. pose proof Hinv as (Hlive & Huniq & Hdown & Hmap & Hsig & Hnod & Hsweep).
  apply step_move in Hstep as [Hstep _].
  destruct a as [env|t| | | |t id p w|t|t]; simpl in Hstep.
  - unfold scheduler_init in Hstep.
    destruct (scheduler_running s); [by injection Hstep as <-|].
    destruct (scheduler_thread s) eqn:Hpc; try done. injection Hstep as <-.
    unfold init_rng, read_epoch_ms; repeat case_match; frame_inv s.
  - unfold shutdown_enter in Hstep.
    destruct (scheduler_running s); injection Hstep as <-; [|done]. frame_inv s.
  - unfold shutdown_join in Hstep. destruct (joining s) as [t|]; [|done].
    destruct (scheduler_thread s) eqn:Hpc; try done.
    destruct (sweeping s) eqn:Hsw; [done|]. injection Hstep as <-.
    unfold waiter_inv.
    cbn [workers waiters trx_wait_map scheduler_thread sweeping set_sweeping set_joining
         set_thread].
    split_and!; try done.
    + intros id w Hl _. apply Hmap; [done|]. unfold unswept. by rewrite Hsw.
    + intros t0 x [= <- <-]. simpl. split; [apply NoDup_map_to_list|].
      intros id w Hin. by apply elem_of_map_to_list in Hin.
  - unfold sweep_step in Hstep.
    destruct (sweeping s) as [[t0 [[|[id w] todo]|w todo]]|] eqn:Hsw; [| | |done].
    + injection Hstep as <-. unfold waiter_inv.
      cbn [workers waiters trx_wait_map scheduler_thread sweeping set_sweeping set_wait_map].
      split_and!; try done.
      intros id w Hs. destruct (Hsig _ _ Hs) as (? & ? & ?). split_and!; [done..|].
      intros id'. by rewrite lookup_empty.
    + destruct (waiters s !! w) as [x|] eqn:Hx; [|done]. injection Hstep as <-.
      destruct (Hsweep _ _ eq_refl) as [Hnd Hin]. simpl in Hnd, Hin.
      apply NoDup_cons in Hnd as [Hfresh Hnd].
      assert (Hidw : trx_wait_map s !! id = Some w) by (apply Hin; by left).
      destruct (Hmap _ _ Hidw) as [Hf (t1 & pc1 & Hk1 & Ho1)].
      { unfold unswept. rewrite Hsw. simpl. by left. }
      unfold waiter_inv.
      cbn [workers waiters trx_wait_map scheduler_thread sweeping set_sweeping emit signal
           set_waiters].
      split_and!; try done.
      * intros t pc Hk. rewrite alter_is_Some. eauto.
      * intros t pc Hk Hu. rewrite lookup_alter_ne; [eauto|]. intros Heq.
        destruct (owner_is_unique s t1 pc1 t pc id w Hinv Hk1 Ho1 Hk (eq_sym Heq)) as [-> ->].
        by destruct pc1.
      * intros id' w' Hl Hu. unfold unswept in Hu. simpl in Hu.
        destruct (Hmap _ _ Hl) as [Hf' (t2 & pc2 & Hk2 & Ho2)].
        { unfold unswept. rewrite Hsw. simpl. by right. }
        split; [|eauto]. rewrite lookup_alter_ne; [done|]. intros <-.
        assert (waiter_of pc2 = w) as Hw2 by (destruct pc2; simpl in *; congruence).
        destruct (owner_is_unique s t1 pc1 t2 pc2 id w Hinv Hk1 Ho1 Hk2 Hw2) as [_ ->].
        rewrite Ho1 in Ho2. injection Ho2 as <-. done.
      * intros id0 w0 Hs. destruct (Hsig _ _ Hs) as (Hf0 & Ho0 & Hno).
        split_and!; [|done|done]. rewrite lookup_alter_ne; [done|]. intros <-.
        by destruct (Hno id).
      * intros t x0 [= <- <-]. simpl. split; [done|]. intros id' w' Hin'. apply Hin. by right.
    + destruct (waiters s !! w) as [x|] eqn:Hx; [|done]. injection Hstep as <-.
      apply (waiter_inv_alike s); [|done|done| |by left|done].
      * apply (alike_wakes w), wake_all_wakes.
      * right. by exists t0, w, todo.
  - unfold scheduler_step in Hstep. destruct (scheduler_thread s) eqn:Hpc; try done.
    + destruct (scheduler_running s); simpl in Hstep;
        [destruct (g_epoch_state s)|]; injection Hstep as <-; frame_inv s.
    + destruct (pending_requests s); injection Hstep as <-; frame_inv s.
    + unfold global_mutex_free in Hstep. destruct (sweeping s) eqn:Hsw; [done|].
      destruct (PQ.top (scheduler_queue s)) as [e|] eqn:Htop.
      * destruct (trx_wait_map s !! e.2) as [w|] eqn:Hw; injection Hstep as <-.
        -- assert (Hall : forall id w, unswept s id w).
           { intros. unfold unswept. by rewrite Hsw. }
           unfold waiter_inv.
           cbn [workers waiters trx_wait_map scheduler_thread sweeping set_thread set_wait_map
                emit set_queue].
           split_and!; try done.
           ++ intros id' w' [Hne H']%lookup_delete_Some _. by apply Hmap.
           ++ intros id0 w0 [= <- <-].
              destruct (Hmap _ _ Hw (Hall _ _)) as [Hf (t0 & pc0 & Hk0 & Ho0)].
              split_and!; [done|eauto|].
              intros id' [Hne H']%lookup_delete_Some.
              destruct (Hmap _ _ H' (Hall _ _)) as [_ (t1 & pc1 & Hk1 & Ho1)].
              assert (waiter_of pc1 = w) as Hw1 by (destruct pc1; simpl in *; congruence).
              destruct (owner_is_unique s t0 pc0 t1 pc1 _ w Hinv Hk0 Ho0 Hk1 Hw1) as [_ ->].
              rewrite Ho0 in Ho1. by injection Ho1 as Heq.
           ++ rewrite Hsw. done.
        -- frame_inv s.
      * injection Hstep as <-. frame_inv s.
    + destruct (global_mutex_free s); [|done]. injection Hstep as <-. frame_inv s.
    + destruct (waiters s !! w) as [x|] eqn:Hx; [|done].
      destruct (mtx_free w s); [|done]. injection Hstep as <-.
      destruct (Hsig _ _ eq_refl) as (Hf & (t0 & pc0 & Hk0 & Ho0) & Hno).
      unfold waiter_inv.
      cbn [workers waiters trx_wait_map scheduler_thread sweeping set_thread emit signal
           set_waiters].
      split_and!; try done.
      * intros t1 pc1 Hk. rewrite alter_is_Some. eauto.
      * intros t1 pc1 Hk Hun. rewrite lookup_alter_ne; [eauto|]. intros Heq.
        destruct (owner_is_unique s t0 pc0 t1 pc1 id w Hinv Hk0 Ho0 Hk (eq_sym Heq)) as [-> ->].
        by destruct pc0.
      * intros id' w' H' Hu. destruct (Hmap _ _ H' Hu) as [Hf' Ho']. split; [|done].
        rewrite lookup_alter_ne; [done|]. intros <-. by destruct (Hno id').
    + destruct (waiters s !! w) as [x|] eqn:Hx; [|done]. injection Hstep as <-.
      apply (waiter_inv_alike s); [|done|done|by left| |done].
      * apply (alike_wakes w), wake_one_wakes.
      * right. by split.
    + by destruct (Hnod w).
  - unfold request_enter in Hstep. case_bool_decide as Hc; [|done].
    destruct Hc as (Hnone & Hfresh & Hnz & Hp). injection Hstep as <-.
    assert (Hold : forall t1 pc1, workers s !! t1 = Some pc1 -> t1 <> t /\ waiter_of pc1 <> w).
    { intros t1 pc1 Hk. split; [intros ->; congruence|].
      intros <-. destruct (Hlive _ _ Hk) as [x Hx]. congruence. }
    assert (Hkeep : forall id0 w0,
      (exists t0 pc0, workers s !! t0 = Some pc0 /\ waits_on pc0 = Some (id0, w0)) ->
      w0 <> w /\
      exists t0 pc0, <[t := WPush id w p]> (workers s) !! t0 = Some pc0 /\
                     waits_on pc0 = Some (id0, w0)).
    { intros id0 w0 (t0 & pc0 & Hk0 & Ho0). destruct (Hold _ _ Hk0) as [Hne Hw0].
      split; [destruct pc0; simpl in *; congruence|].
      exists t0, pc0. by rewrite lookup_insert_ne. }
    unfold waiter_inv.
    cbn [workers waiters trx_wait_map scheduler_thread sweeping emit set_workers set_waiters
         set_rng].
    split_and!; try done.
    + intros t1 pc1 [[<- <-]|[Hne Hk]]%lookup_insert_Some.
      * simpl. rewrite lookup_insert_eq. by eexists.
      * destruct (Hold _ _ Hk) as [_ Hw]. rewrite lookup_insert_ne by done. by eapply Hlive.
    + intros t1 t2 pc1 pc2 [[<- <-]|[Hne1 H1]]%lookup_insert_Some
        [[<- <-]|[Hne2 H2]]%lookup_insert_Some Heq; try done.
      * destruct (Hold _ _ H2) as [_ Hw]. simpl in Heq. congruence.
      * destruct (Hold _ _ H1) as [_ Hw]. simpl in Heq. congruence.
      * by eapply Huniq.
    + intros t1 pc1 [[<- <-]|[Hne Hk]]%lookup_insert_Some Hun.
      * simpl. by rewrite lookup_insert_eq.
      * destruct (Hold _ _ Hk) as [_ Hw]. rewrite lookup_insert_ne by done. by eapply Hdown.
    + intros id' w' H' Hu. destruct (Hmap _ _ H' Hu) as [Hf' Ho'].
      destruct (Hkeep _ _ Ho') as [Hne Ho'']. by rewrite lookup_insert_ne.
    + intros id0 w0 Hs. destruct (Hsig _ _ Hs) as (Hf & Ho & Hno).
      destruct (Hkeep _ _ Ho) as [Hne Ho'']. by rewrite lookup_insert_ne.
  - unfold worker_step in Hstep.
    destruct (workers s !! t) as [[id w p|id w|id w|id w|id w|id w]|] eqn:Ht; try done.
    + injection Hstep as <-. moved_inv s Ht.
    + unfold global_mutex_free in Hstep. destruct (sweeping s) eqn:Hsw; [done|].
      injection Hstep as <-.
      assert (Hall : forall id w, unswept s id w).
      { intros. unfold unswept. by rewrite Hsw. }
      unfold waiter_inv.
      cbn [workers waiters trx_wait_map scheduler_thread sweeping emit set_workers
           set_wait_map].
      split_and!; try done.
      * intros t1 pc1 Hk.
        destruct (worker_moves _ _ _ (WWait id w) _ _ Ht eq_refl Hk) as (pc0 & H0 & Hw0 & _).
        rewrite <- Hw0. by eapply Hlive.
      * intros t1 t2 pc1 pc2 H1 H2 Heq.
        destruct (worker_moves _ _ _ (WWait id w) _ _ Ht eq_refl H1) as (pc1' & H1' & Hw1 & _).
        destruct (worker_moves _ _ _ (WWait id w) _ _ Ht eq_refl H2) as (pc2' & H2' & Hw2 & _).
        eapply Huniq; [done..|congruence].
      * intros t1 pc1 Hk Hun.
        destruct (worker_moves _ _ _ (WWait id w) _ _ Ht eq_refl Hk)
          as (pc0 & H0 & Hw0 & Hne & Heq).
        destruct (decide (t1 = t)) as [->|Hd].
        -- destruct (Heq eq_refl) as [_ ->]. done.
        -- rewrite <- (Hne Hd) in *. by eapply Hdown.
      * intros id' w' [[<- <-]|[Hne H']]%lookup_insert_Some _.
        -- split; [by apply (Hdown _ _ Ht)|]. exists t, (WWait id w).
           by rewrite lookup_insert_eq.
        -- destruct (Hmap _ _ H' (Hall _ _)) as [Hf' (t' & pc' & Ht' & Ho')]. split; [done|].
           exists t', pc'. rewrite lookup_insert_ne; [done|]. intros ->.
           rewrite Ht in Ht'. by injection Ht' as <-.
      * intros id0 w0 Hs. destruct (Hsig _ _ Hs) as (Hf & (t0 & pc0 & Ht0 & Ho0) & Hno).
        split_and!; [done| |].
        -- exists t0, pc0. rewrite lookup_insert_ne; [done|]. intros ->.
           rewrite Ht in Ht0. by injection Ht0 as <-.
        -- intros id' [[<- <-]|[Hne H']]%lookup_insert_Some; [|by destruct (Hno id')].
           destruct (owner_is_unique s t0 pc0 t (WRegister id w) id0 w Hinv Ht0 Ho0 Ht eq_refl)
             as [_ <-].
           done.
      * by rewrite Hsw.
    + destruct (waiters s !! w) as [x|] eqn:Hw; [|done].
      destruct (mtx_free w s); [|done].
      destruct (is_ready x) eqn:Hup; injection Hstep as <-; [|moved_inv s Ht].
      assert (Hnot : forall id0 w0 t0 pc0,
        waiters s !! w0 = Some {| is_ready := false |} ->
        workers s !! t0 = Some pc0 -> waits_on pc0 = Some (id0, w0) -> t0 <> t).
      { intros id0 w0 t0 pc0 Hf Hk0 Ho0 ->. rewrite Ht in Hk0. injection Hk0 as <-.
        simpl in Ho0. injection Ho0 as <- <-. rewrite Hw in Hf. injection Hf as ->.
        done. }
      unfold waiter_inv.
      cbn [workers waiters trx_wait_map scheduler_thread sweeping emit set_workers].
      split_and!; try done.
      * intros t1 pc1 Hk.
        destruct (worker_moves _ _ _ (WWoken id w) _ _ Ht eq_refl Hk) as (pc0 & H0 & Hw0 & _).
        rewrite <- Hw0. by eapply Hlive.
      * intros t1 t2 pc1 pc2 H1 H2 Heq.
        destruct (worker_moves _ _ _ (WWoken id w) _ _ Ht eq_refl H1) as (pc1' & H1' & Hw1 & _).
        destruct (worker_moves _ _ _ (WWoken id w) _ _ Ht eq_refl H2) as (pc2' & H2' & Hw2 & _).
        eapply Huniq; [done..|congruence].
      * intros t1 pc1 Hk Hun.
        destruct (worker_moves _ _ _ (WWoken id w) _ _ Ht eq_refl Hk)
          as (pc0 & H0 & Hw0 & Hne & Heq).
        destruct (decide (t1 = t)) as [->|Hd].
        -- destruct (Heq eq_refl) as [_ ->]. done.
        -- rewrite <- (Hne Hd) in *. by eapply Hdown.
      * intros id' w' H' Hu. destruct (Hmap _ _ H' Hu) as [Hf' (t' & pc' & Ht' & Ho')].
        split; [done|]. exists t', pc'. rewrite lookup_insert_ne; [done|].
        apply not_eq_sym. by eapply Hnot.
      * intros id0 w0 Hs. destruct (Hsig _ _ Hs) as (Hf & (t0 & pc0 & Ht0 & Ho0) & Hno).
        split_and!; [done| |done]. exists t0, pc0. rewrite lookup_insert_ne; [done|].
        apply not_eq_sym. by eapply Hnot.
    + destruct (waiters s !! w) as [x|] eqn:Hw; [|done]. injection Hstep as <-.
      moved_inv s Ht.
    + injection Hstep as <-.
      assert (Hother : forall t1 pc1, t1 <> t -> workers s !! t1 = Some pc1 -> waiter_of pc1 <> w).
      { intros t1 pc1 Hne Hk Heq. by destruct Hne, (Huniq _ _ _ _ Hk Ht Heq). }
      assert (Hkeep : forall id0 w0,
        (exists t0 pc0, workers s !! t0 = Some pc0 /\ waits_on pc0 = Some (id0, w0)) ->
        w0 <> w /\
        exists t0 pc0, delete t (workers s) !! t0 = Some pc0 /\ waits_on pc0 = Some (id0, w0)).
      { intros id0 w0 (t0 & pc0 & Hk0 & Ho0).
        assert (t0 <> t) as Hne.
        { intros ->. rewrite Ht in Hk0. by injection Hk0 as <-. }
        split.
        - intros ->. apply (Hother _ _ Hne Hk0). destruct pc0; simpl in *; congruence.
        - exists t0, pc0. by rewrite lookup_delete_ne. }
      unfold waiter_inv.
      cbn [workers waiters trx_wait_map scheduler_thread sweeping emit set_workers destroy
           set_waiters].
      split_and!; try done.
      * intros t1 pc1 [Hne Hk]%lookup_delete_Some.
        rewrite lookup_delete_ne by (intros Heq; by eapply (Hother t1 pc1)).
        by eapply Hlive.
      * intros t1 t2 pc1 pc2 [_ H1]%lookup_delete_Some [_ H2]%lookup_delete_Some.
        by eapply Huniq.
      * intros t1 pc1 [Hne Hk]%lookup_delete_Some Hun.
        rewrite lookup_delete_ne by (intros Heq; by eapply (Hother t1 pc1)).
        by eapply Hdown.
      * intros id' w' H' Hu. destruct (Hmap _ _ H' Hu) as [Hf' Ho'].
        destruct (Hkeep _ _ Ho') as [Hne Ho'']. by rewrite lookup_delete_ne.
      * intros id0 w0 Hs. destruct (Hsig _ _ Hs) as (Hf & Ho & Hno).
        destruct (Hkeep _ _ Ho) as [Hne Ho'']. by rewrite lookup_delete_ne.
  - unfold spurious_wakeup in Hstep.
    destruct (workers s !! t) as [[id w p|id w|id w|id w|id w|id w]|] eqn:Ht; try done.
    injection Hstep as <-. moved_inv s Ht.
Qed.

Lemma reachable_waiter_inv s : reachable WorkerOwnsWaiter s -> waiter_inv s.
Proof.
  induction 1 as [|s a s' Hr IH Hs]; [apply waiter_inv_initial|]. by eapply step_waiter_inv.
Qed.


(** X23.  No thread waits on a destroyed waiter: in every state the system can
    reach, each thread inside [scheduler_request] works on a waiter that
    is live, and no two threads work on the same waiter. *)
Theorem worker_holds_a_live_waiter acts s t pc :
  run WorkerOwnsWaiter acts initial = Some s -> workers s !! t = Some pc ->
  is_Some (waiters s !! waiter_of pc) /\
  forall t' pc', workers s !! t' = Some pc' -> waiter_of pc' = waiter_of pc -> t' = t.
Proof.
  intros Hrun Hk.
  pose proof (run_reachable _ acts initial s (reachable_initial _) Hrun) as Hr.
  destruct (reachable_waiter_inv _ Hr) as (Hlive & Huniq & _).
  split; [by eapply Hlive|]. intros t' pc' Hk' Heq. by eapply Huniq.
Qed.

Lemma worker_holds_a_live_waiter_witness :
  exists s, run WorkerOwnsWaiter (take 12 Scenario.two_epochs) initial = Some s /\
            workers s !! 3 = Some (WWait 3 102) /\ is_Some (waiters s !! 102%N).
Proof.
  eexists. split; [vm_compute; reflexivity|]. split; [vm_compute; reflexivity|].
  refine (proj1 (worker_holds_a_live_waiter (take 12 Scenario.two_epochs) _ 3 (WWait 3 102)
                   _ _)); vm_compute; reflexivity.
Defined.

(** X24.  Every write of a flag reaches a live waiter whose flag is down and
    whose thread is inside [cv.wait].  In every state the system can
    reach: a waiter that is registered in the map and that a sweep under
    way has not yet visited, the waiter the scheduler thread is about to
    write to, and the waiter the sweep is about to write to are live,
    their flag is down and their thread is inside [cv.wait]; the waiter in
    the scheduler thread's hand is in the map no longer, the one in the
    sweep's hand still is; and the write goes through, the scheduler
    thread's as soon as the waiter's mutex is free.  This is about the
    write of [is_ready] only: the notify that follows it is a move of its
    own, made without the waiter's mutex. *)
Theorem signals_reach_live_waiters acts s :
  run WorkerOwnsWaiter acts initial = Some s ->
  (forall id w, trx_wait_map s !! id = Some w -> unswept s id w ->
     waiters s !! w = Some {| is_ready := false |} /\
     exists t pc, workers s !! t = Some pc /\ waits_on pc = Some (id, w)) /\
  (forall id w, scheduler_thread s = SSignal id w ->
     waiters s !! w = Some {| is_ready := false |} /\
     (exists t pc, workers s !! t = Some pc /\ waits_on pc = Some (id, w)) /\
     (forall id', trx_wait_map s !! id' <> Some w) /\
     (mtx_free w s = true ->
      exists s', scheduler_step WorkerOwnsWaiter s = Some s' /\
                 trace s' = trace s ++ [EvRelease SchedulerThread id w] /\
                 waiters s' = <[w := {| is_ready := true |}]> (waiters s))) /\
  (forall t id w todo, sweeping s = Some (t, HWrite ((id, w) :: todo)) ->
     waiters s !! w = Some {| is_ready := false |} /\
     (exists t' pc, workers s !! t' = Some pc /\ waits_on pc = Some (id, w)) /\
     trx_wait_map s !! id = Some w /\
     exists s', sweep_step WorkerOwnsWaiter s = Some s' /\
                trace s' = trace s ++ [EvRelease (HostThread t) id w] /\
                waiters s' = <[w := {| is_ready := true |}]> (waiters s)).
Proof.
  intros Hrun.
  pose proof (run_reachable _ acts initial s (reachable_initial _) Hrun) as Hr.
  destruct (reachable_waiter_inv _ Hr) as (_ & _ & _ & Hmap & Hsig & _ & Hsweep).
  assert (Hup : forall w x, waiters s !! w = Some x ->
            alter (fun _ => {| is_ready := true |}) w (waiters s)
            = <[w := {| is_ready := true |}]> (waiters s)).
  { intros w x Hx. apply map_eq. intros k. destruct (decide (k = w)) as [->|Hne].
    - by rewrite lookup_alter_eq, lookup_insert_eq, Hx.
    - by rewrite lookup_alter_ne, lookup_insert_ne. }
  split_and!; [done| |].
  - intros id w Hs. destruct (Hsig _ _ Hs) as (Hf & Ho & Hno). split_and!; [done..|].
    intros Hfree. unfold scheduler_step. rewrite Hs, Hf, Hfree. eexists. split; [done|].
    simpl. by rewrite (Hup _ _ Hf).
  - intros t id w todo Hs. destruct (Hsweep _ _ Hs) as [Hnd Hin]. simpl in Hin.
    assert (Hl : trx_wait_map s !! id = Some w) by (apply Hin; by left).
    destruct (Hmap _ _ Hl) as [Hf Ho].
    { unfold unswept. rewrite Hs. simpl. by left. }
    split_and!; [done..|]. unfold sweep_step. rewrite Hs, Hf. eexists. split; [done|].
    simpl. by rewrite (Hup _ _ Hf).
Qed.

Lemma signals_reach_live_waiters_witness :
  exists s, run WorkerOwnsWaiter (take 24 Scenario.two_epochs) initial = Some s /\
            scheduler_thread s = SSignal 2 101 /\
            waiters s !! 101%N = Some {| is_ready := false |}.
Proof.
  eexists. split; [vm_compute; reflexivity|]. split; [vm_compute; reflexivity|].
  refine (proj1 (proj1 (proj2 (signals_reach_live_waiters (take 24 Scenario.two_epochs) _ _))
                   2%N 101%N _)); vm_compute; reflexivity.
Defined.

(** X26.  A waiter is destroyed by its owner, on the way out: every destruction
    of a waiter in a run is done by a host thread that has observed the
    waiter's flag before, and is at once followed by that thread's return
    from [scheduler_request]; the scheduler thread and the shutdown sweep
    destroy nothing. *)
Theorem waiter_is_destroyed_by_its_owner acts s t1 by_ w t2 :
  run WorkerOwnsWaiter acts initial = Some s ->
  trace s = t1 ++ EvDestroy by_ w :: t2 ->
  exists t id t2', by_ = HostThread t /\ EvObserve t w ∈ t1 /\ t2 = EvReturn t id :: t2'.
Proof.
  intros Hrun.
  pose proof (run_reachable _ acts initial s (reachable_initial _) Hrun) as Hr.
  clear Hrun. revert t1 t2. induction Hr as [|s a s' Hr IH Hs]; intros t1 t2 Ht.
  - by destruct t1.
  - destruct (step_destroy_shape _ _ _ Hs (reachable_woken_inv _ Hr))
      as (_ & evs & Hev & Hshape).
    rewrite Hev in Ht. pose proof Ht as Ht0.
    apply split_in_app in Ht as [[t2' Ht]|(l & -> & Hl)].
    + destruct (IH _ _ Ht) as (t & id & t3 & -> & Hobs & ->).
      rewrite Ht in Ht0. rewrite <- app_assoc in Ht0. apply app_inv_head in Ht0.
      injection Ht0 as <-. exists t, id, (t3 ++ evs). by split_and!.
    + destruct Hshape as [Hd|(t & id & w0 & Hobs & ->)].
      * rewrite Hl, destroys_app in Hd. apply app_eq_nil in Hd as [_ Hd]. discriminate Hd.
      * destruct l as [|x [|y l]]; simplify_eq/=.
        -- exists t, id, []. split_and!; [done| |done]. by rewrite app_nil_r.
        -- by destruct l.
Qed.

Lemma waiter_is_destroyed_by_its_owner_witness :
  exists s t1 t2,
    run WorkerOwnsWaiter (take 28 Scenario.two_epochs) initial = Some s /\
    trace s = t1 ++ EvDestroy (HostThread 2) 101 :: t2 /\
    exists t id t2', HostThread 2 = HostThread t /\ EvObserve t 101 ∈ t1 /\
                     t2 = EvReturn t id :: t2'.
Proof.
  eexists _, (Scenario.spec_epoch_head ++ EvCollect Scenario.spec_batch ::
              take 4 Scenario.spec_epoch_tail), [EvReturn 2 2].
  split; [vm_compute; reflexivity|]. split; [vm_compute; reflexivity|].
  refine (waiter_is_destroyed_by_its_owner (take 28 Scenario.two_epochs) _ _ _ _ _ _ _);
    vm_compute; reflexivity.
Defined.


(** ** The handshake *)

Lemma blocked_on_spec w W t :
  t ∈ blocked_on w W <-> exists id, W !! t = Some (WBlocked id w).
Proof.
  unfold blocked_on. rewrite list_elem_of_omap. split.
  - intros ([t' pc'] & Hin & Hf). apply elem_of_map_to_list in Hin. simpl in Hf.
    destruct pc'; try done. case_bool_decide; [|done]. injection Hf as <-. subst. eauto.
  - intros [id H]. exists (t, WBlocked id w). split; [by apply elem_of_map_to_list|].
    simpl. by rewrite bool_decide_true.
Qed.

(** [notify_one] on a waiter that one thread works on: that thread runs
    again if it was blocked, and nothing else changes. *)
Lemma wake_one_owner w W t pc id :
  W !! t = Some pc -> pc = WWait id w \/ pc = WBlocked id w ->
  (forall t' pc', W !! t' = Some pc' -> waiter_of pc' = w -> t' = t) ->
  wake_one w W !! t = Some (WWait id w) /\ delete t (wake_one w W) = delete t W.
Proof.
  intros Ht Hor Huniq. pose proof (wake_one_wakes w W) as Hw. split.
  - destruct Hor as [->| ->].
    + destruct (Hw t) as [->|(id' & H1 & _)]; [done|congruence].
    + unfold wake_one. destruct (blocked_on w W) as [|t0 l] eqn:Hb.
      * assert (Hin : t ∈ blocked_on w W) by (apply blocked_on_spec; eauto).
        rewrite Hb in Hin. by apply elem_of_nil in Hin.
      * assert (Hin : t0 ∈ blocked_on w W) by (rewrite Hb; by left).
        apply blocked_on_spec in Hin as [id' Hin].
        assert (t0 = t) as -> by (by eapply Huniq).
        rewrite lookup_alter_eq, Ht. simpl. by rewrite bool_decide_true.
  - apply map_eq. intros t'. destruct (decide (t' = t)) as [->|Hne].
    + by rewrite !lookup_delete_eq.
    + rewrite !lookup_delete_ne by done.
      destruct (Hw t') as [->|(id' & H1 & _)]; [done|]. destruct Hne. by eapply Huniq.
Qed.

Lemma mtx_free_owner w s t pc :
  workers s !! t = Some pc -> holds_mtx pc <> Some w ->
  (forall t' pc', workers s !! t' = Some pc' -> waiter_of pc' = w -> t' = t) ->
  mtx_free w s = true.
Proof.
  intros Ht Hpc Huniq. apply mtx_free_spec. intros t' pc' Hk Hh.
  assert (t' = t) as ->.
  { eapply Huniq; [done|]. destruct pc'; simpl in *; congruence. }
  congruence.
Qed.

(** From the scheduler thread's write of the flag to the return of the
    thread the waiter belongs to. *)
Lemma handshake_tail s id w t pc x :
  scheduler_thread s = SSignal id w -> waiters s !! w = Some x ->
  workers s !! t = Some pc -> pc = WWait id w \/ pc = WBlocked id w ->
  (forall t' pc', workers s !! t' = Some pc' -> waiter_of pc' = w -> t' = t) ->
  exists s',
    run WorkerOwnsWaiter [ASched; ASched; AWorker t; AWorker t] s = Some s' /\
    trace s' = trace s ++ [ EvRelease SchedulerThread id w; EvNotify SchedulerThread w;
                            EvObserve t w; EvDestroy (HostThread t) w; EvReturn t id ] /\
    workers s' = delete t (workers s) /\ waiters s' = delete w (waiters s) /\
    trx_wait_map s' = trx_wait_map s /\ scheduler_queue s' = scheduler_queue s /\
    scheduler_thread s' = SLoop.
Proof.
  intros Hpc Hx Ht Hor Huniq.
  assert (Hfree : mtx_free w s = true).
  { apply (mtx_free_owner w s t pc Ht); [by destruct Hor as [->| ->]|done]. }
  destruct (wake_one_owner w (workers s) t pc id Ht Hor Huniq) as [Hwoken Hrest].
  set (s1 := set_thread (SNotify id w) (emit [EvRelease SchedulerThread id w] (signal w s))).
  assert (H1 : step WorkerOwnsWaiter ASched s = Some s1).
  { unfold step, aborted. rewrite Hpc. cbn [move]. unfold scheduler_step.
    by rewrite Hpc, Hx, Hfree. }
  set (s2 := set_thread SLoop (emit [EvNotify SchedulerThread w]
                                 (set_workers (wake_one w (workers s)) s1))).
  assert (H2 : step WorkerOwnsWaiter ASched s1 = Some s2).
  { unfold step, aborted, s1. fields. cbn [move]. unfold scheduler_step. fields.
    by rewrite lookup_alter_eq, Hx. }
  assert (Hfree2 : mtx_free w s2 = true).
  { apply (mtx_free_wakes w w s); [apply wake_one_wakes|done]. }
  set (s3 := emit [EvObserve t w]
               (set_workers (<[t := WWoken id w]> (wake_one w (workers s))) s2)).
  assert (H3 : step WorkerOwnsWaiter (AWorker t) s2 = Some s3).
  { unfold step. cbn [move]. unfold worker_step. change (aborted s2) with false. cbv iota.
    change (workers s2) with (wake_one w (workers s)).
    change (waiters s2) with (alter (fun _ => {| is_ready := true |}) w (waiters s)).
    rewrite Hwoken, lookup_alter_eq, Hx. cbn [fmap option_fmap option_map].
    by rewrite Hfree2. }
  set (s4 := emit [EvReturn t id]
               (set_workers (delete t (<[t := WWoken id w]> (wake_one w (workers s))))
                  (destroy (HostThread t) w s3))).
  assert (H4 : step WorkerOwnsWaiter (AWorker t) s3 = Some s4).
  { unfold step. cbn [move]. unfold worker_step. change (aborted s3) with false. cbv iota.
    change (workers s3) with (<[t := WWoken id w]> (wake_one w (workers s))).
    by rewrite lookup_insert_eq. }
  exists s4. split.
  - rewrite run_cons, H1. cbn [mbind option_bind]. rewrite run_cons, H2. cbn [mbind option_bind].
    rewrite run_cons, H3. cbn [mbind option_bind]. rewrite run_cons, H4. done.
  - unfold s4, s3, s2, s1. fields. rewrite <- !app_assoc. split_and!; try done.
    + by rewrite delete_insert_eq.
    + apply map_eq. intros k. destruct (decide (k = w)) as [->|Hne].
      * by rewrite !lookup_delete_eq.
      * by rewrite !lookup_delete_ne, lookup_alter_ne.
Qed.

(** X20.  The handshake between the scheduler thread and a registered worker,
    in the revision with worker-owned waiters: in a state the system can
    reach with the scheduler thread before a pop and the global mutex
    free, when the entry on top of the queue belongs to a thread that is
    inside [cv.wait] on its registered waiter, the scheduler's pop, write
    and notify followed by the worker's test and return make the worker
    return (a worker that has found its flag down and not yet blocked
    blocks first); the map entry is erased by the scheduler, the waiter is
    destroyed by the worker, and nothing else changes hands. *)
Theorem release_handshake acts s e w t pc :
  run WorkerOwnsWaiter acts initial = Some s ->
  scheduler_thread s = SDrain -> sweeping s = None ->
  PQ.top (scheduler_queue s) = Some e ->
  trx_wait_map s !! e.2 = Some w ->
  workers s !! t = Some pc -> waits_on pc = Some (e.2, w) ->
  exists s',
    run WorkerOwnsWaiter (handshake t pc) s = Some s' /\
    trace s' = trace s ++ [ EvPop e; EvRelease SchedulerThread e.2 w;
                            EvNotify SchedulerThread w; EvObserve t w;
                            EvDestroy (HostThread t) w; EvReturn t e.2 ] /\
    workers s' = delete t (workers s) /\ waiters s' = delete w (waiters s) /\
    trx_wait_map s' = delete e.2 (trx_wait_map s) /\
    scheduler_queue s' = PQ.pop (scheduler_queue s) /\ scheduler_thread s' = SLoop.
Proof.
  intros Hrun Hpc Hsw Htop Hmap Ht Ho.
  pose proof (run_reachable _ acts initial s (reachable_initial _) Hrun) as Hr.
  pose proof (reachable_waiter_inv _ Hr) as Hinv.
  pose proof Hinv as (Hlive & _).
  assert (Hw : waiter_of pc = w) by (destruct pc; simpl in *; congruence).
  destruct (Hlive _ _ Ht) as [x Hx]. rewrite Hw in Hx.
  assert (Huniq : forall t' pc', workers s !! t' = Some pc' -> waiter_of pc' = w -> t' = t).
  { intros t' pc' Hk' Hw'. by destruct (owner_is_unique s t pc t' pc' _ w Hinv Ht Ho Hk' Hw'). }
  set (s1 := set_thread (SSignal e.2 w)
               (set_wait_map (delete e.2 (trx_wait_map s))
                  (emit [EvPop e] (set_queue (PQ.pop (scheduler_queue s)) s)))).
  assert (H1 : step WorkerOwnsWaiter ASched s = Some s1).
  { unfold step, aborted. rewrite Hpc. cbn [move]. unfold scheduler_step, global_mutex_free.
    by rewrite Hpc, Hsw, Htop, Hmap. }
  destruct pc as [| |id0 w0|id0 w0|id0 w0|]; try done; simpl in Ho; injection Ho as -> ->.
  - destruct (handshake_tail s1 e.2 w t (WWait e.2 w) x)
      as (s' & Hs' & Htr & Hwk & Hwt & Hm & Hq & Hl); [done..|by left|done|].
    exists s'. split; [cbn [handshake]; by rewrite run_cons, H1|].
    rewrite Htr, Hwk, Hwt, Hm, Hq. unfold s1. fields. by rewrite <- app_assoc.
  - set (s2 := set_workers (<[t := WBlocked e.2 w]> (workers s1)) s1).
    assert (H2 : step WorkerOwnsWaiter (AWorker t) s1 = Some s2).
    { unfold step, aborted, s1. fields. cbn [move]. unfold worker_step. fields.
      by rewrite Ht, Hx. }
    destruct (handshake_tail s2 e.2 w t (WBlocked e.2 w) x)
      as (s' & Hs' & Htr & Hwk & Hwt & Hm & Hq & Hl); [done|done| |by right| |].
    { unfold s2, s1. fields. by rewrite lookup_insert_eq. }
    { unfold s2, s1. fields. intros t' pc' [[<- <-]|[_ Hk]]%lookup_insert_Some; eauto. }
    exists s'. split.
    + cbn [handshake]. rewrite run_cons, H1. cbn [mbind option_bind].
      by rewrite run_cons, H2.
    + rewrite Htr, Hwk, Hwt, Hm, Hq. unfold s2, s1. fields. rewrite <- app_assoc.
      split_and!; try done. by rewrite delete_insert_eq.
  - destruct (handshake_tail s1 e.2 w t (WBlocked e.2 w) x)
      as (s' & Hs' & Htr & Hwk & Hwt & Hm & Hq & Hl); [done..|by right|done|].
    exists s'. split; [cbn [handshake]; by rewrite run_cons, H1|].
    rewrite Htr, Hwk, Hwt, Hm, Hq. unfold s1. fields. by rewrite <- app_assoc.
Qed.

Lemma release_handshake_witness :
  exists s s',
    run WorkerOwnsWaiter (take 23 Scenario.two_epochs) initial = Some s /\
    run WorkerOwnsWaiter [ASched; ASched; ASched; AWorker 2; AWorker 2] s = Some s' /\
    workers s' = delete 2 (workers s) /\ scheduler_thread s' = SLoop.
Proof.
  eexists.
  destruct (release_handshake (take 23 Scenario.two_epochs) _ (10%Z, 2%N) 101%N 2 (WWait 2 101)
              ltac:(vm_compute; reflexivity))
    as (s' & Hrun & _ & Hw & _ & _ & _ & Hl); [vm_compute; reflexivity..|].
  exists s'. split; [vm_compute; reflexivity|]. split; [exact Hrun|]. split; [exact Hw|exact Hl].
Defined.


(** ** The sweep, from its first move to its last *)

Lemma sweep_run_S rev fuel s x :
  sweeping s = Some x ->
  sweep_run rev (S fuel) s = sweep_step rev s ≫= sweep_run rev fuel.
Proof. intros H. simpl. by rewrite H. Qed.

Lemma wake_twice w l pc :
  (if bool_decide (waiter_of (wake w pc) ∈ l)
   then wake (waiter_of (wake w pc)) (wake w pc) else wake w pc)
  = if bool_decide (waiter_of pc ∈ w :: l) then wake (waiter_of pc) pc else pc.
Proof.
  destruct pc as [id0 w0 p|id0 w0|id0 w0|id0 w0|id0 w0|id0 w0]; simpl;
    try (by repeat case_bool_decide).
  destruct (decide (w0 = w)) as [->|Hne].
  - rewrite (bool_decide_true (w = w)) by done. simpl.
    rewrite (bool_decide_true (w ∈ w :: l)) by (by left). by case_bool_decide.
  - rewrite (bool_decide_false (w0 = w)) by done. simpl.
    rewrite (bool_decide_true (w0 = w0)) by done.
    destruct (decide (w0 ∈ l)) as [Hin|Hnin].
    + rewrite !bool_decide_true; [done|by right|done].
    + rewrite !bool_decide_false; [done| |done].
      intros [?|?]%elem_of_cons; done.
Qed.

(** What the sweep leaves behind, in the revision with worker-owned
    waiters, when no other thread moves meanwhile: the flag of every
    waiter it visits is up, and a thread that was blocked on one of them
    runs again. *)
Lemma sweep_run_spec todo s t :
  sweeping s = Some (t, HWrite todo) ->
  (forall id w, (id, w) ∈ todo -> is_Some (waiters s !! w)) ->
  exists s', sweep_run WorkerOwnsWaiter (2 * length todo + 1) s = Some s' /\
    (forall w, waiters s' !! w =
       if bool_decide (w ∈ todo.*2)
       then (fun _ => {| is_ready := true |}) <$> waiters s !! w
       else waiters s !! w) /\
    (forall t', workers s' !! t' =
       (fun pc => if bool_decide (waiter_of pc ∈ todo.*2) then wake (waiter_of pc) pc else pc)
       <$> workers s !! t').
Proof.
  revert s. induction todo as [|[id w] todo IH]; intros s Hsw Hlive.
  - eexists. split.
    { cbn [length Nat.mul Nat.add]. rewrite (sweep_run_S _ _ _ _ Hsw). unfold sweep_step.
      rewrite Hsw. cbn. reflexivity. }
    split; [done|]. intros t'. cbn. by destruct (workers s !! t').
  - destruct (Hlive id w) as [x Hx]; [by left|].
    set (s1 := set_sweeping (Some (t, HNotify w todo))
                 (emit [EvRelease (HostThread t) id w] (signal w s))).
    set (s2 := set_sweeping (Some (t, HWrite todo))
                 (emit [EvNotify (HostThread t) w]
                    (set_workers (wake_all w (workers s)) s1))).
    assert (H1 : sweep_step WorkerOwnsWaiter s = Some s1).
    { unfold sweep_step. by rewrite Hsw, Hx. }
    assert (H2 : sweep_step WorkerOwnsWaiter s1 = Some s2).
    { unfold sweep_step, s1. fields. by rewrite lookup_alter_eq, Hx. }
    destruct (IH s2) as (s' & Hs' & Hw' & Hk'); [done| |].
    { intros id' w' Hin. unfold s2, s1. fields. rewrite alter_is_Some. apply (Hlive id').
      by right. }
    exists s'. split.
    { replace (2 * length ((id, w) :: todo) + 1) with (S (S (2 * length todo + 1)))
        by (simpl; lia).
      rewrite (sweep_run_S _ _ _ _ Hsw), H1. cbn [mbind option_bind].
      rewrite (sweep_run_S _ _ s1 (t, HNotify w todo)) by done. rewrite H2. done. }
    split.
    + intros w0. rewrite Hw'. unfold s2, s1. fields. rewrite fmap_cons. simpl.
      destruct (decide (w0 = w)) as [->|Hne].
      * rewrite lookup_alter_eq, (bool_decide_true (w ∈ w :: todo.*2)) by (by left).
        case_bool_decide; [|done]. by destruct (waiters s !! w).
      * rewrite lookup_alter_ne by done.
        destruct (decide (w0 ∈ todo.*2)) as [Hin|Hnin].
        -- rewrite !bool_decide_true; [done|by right|done].
        -- rewrite !bool_decide_false; [done| |done].
           intros [?|?]%elem_of_cons; done.
    + intros t'. rewrite Hk'. unfold s2, s1. fields. rewrite wake_all_lookup.
      destruct (workers s !! t') as [pc|]; [|done]. cbn [fmap option_fmap option_map].
      f_equal. rewrite fmap_cons. apply wake_twice.
Qed.


(** X25.  What the sweep of [scheduler_shutdown] does for the workers that are
    registered when [join] returns, when no other thread moves during the
    sweep: in every state the system can reach in which [join] can return,
    the rest of [scheduler_shutdown] runs to its end; the map is empty
    afterwards and the flag of every waiter the map held is up.  The
    thread of such a waiter was inside [cv.wait].  If it was about to test
    its flag, or blocked, it is about to test its flag now and its next
    step leaves the wait.  If it had found its flag down and had not yet
    blocked, the notify has passed it by: its next step blocks it, with
    its flag up, on a waiter that is in the map no longer and that neither
    the scheduler thread nor a sweep is about to notify. *)
Theorem sweep_flags_every_registered_waiter acts s t0 :
  run WorkerOwnsWaiter acts initial = Some s ->
  joining s = Some t0 -> scheduler_thread s = SExited -> sweeping s = None ->
  exists s', shutdown_finish WorkerOwnsWaiter s = Some s' /\
    trx_wait_map s' = ∅ /\ sweeping s' = None /\ scheduler_thread s' = SNoThread /\
    forall id w, trx_wait_map s !! id = Some w ->
      waiters s' !! w = Some {| is_ready := true |} /\
      exists t pc, workers s !! t = Some pc /\ waits_on pc = Some (id, w) /\
        match pc with
        | WChecked _ _ =>
            workers s' !! t = Some (WChecked id w) /\
            exists s'', worker_step WorkerOwnsWaiter t s' = Some s'' /\
                        workers s'' !! t = Some (WBlocked id w) /\
                        waiters s'' !! w = Some {| is_ready := true |} /\
                        trace s'' = trace s' /\ stranded t id w s''
        | _ =>
            workers s' !! t = Some (WWait id w) /\
            exists s'', worker_step WorkerOwnsWaiter t s' = Some s'' /\
                        workers s'' !! t = Some (WWoken id w)
        end.
Proof.
  intros Hrun Hj Hpc Hsw.
  pose proof (run_reachable _ acts initial s (reachable_initial _) Hrun) as Hr.
  pose proof (reachable_waiter_inv _ Hr) as Hinv.
  pose proof Hinv as (_ & _ & _ & Hmap & _).
  assert (Hall : forall id w, unswept s id w).
  { intros. unfold unswept. by rewrite Hsw. }
  set (s1 := set_sweeping (Some (t0, HWrite (map_to_list (trx_wait_map s))))
               (set_joining None (set_thread SNoThread s))).
  assert (H1 : shutdown_join s = Some s1).
  { unfold shutdown_join. by rewrite Hj, Hpc, Hsw. }
  destruct (sweep_run_spec (map_to_list (trx_wait_map s)) s1 t0) as (s' & Hs' & Hw' & Hk').
  { done. }
  { intros id w Hin%elem_of_map_to_list. destruct (Hmap _ _ Hin (Hall _ _)) as [Hf _].
    unfold s1. fields. by rewrite Hf. }
  rewrite length_map_to_list in Hs'.
  assert (Hfin : shutdown_finish WorkerOwnsWaiter s = Some s').
  { unfold shutdown_finish. by rewrite H1. }
  destruct (shutdown_finish_frame _ _ _ Hfin)
    as (_ & _ & _ & _ & Hth' & _ & _ & _ & Hsw' & Hm' & _).
  exists s'. split_and!; [done..|].
  intros id w Hl. destruct (Hmap _ _ Hl (Hall _ _)) as [Hf (t & pc & Ht & Ho)].
  assert (Hin : w ∈ (map_to_list (trx_wait_map s)).*2).
  { apply list_elem_of_fmap. exists (id, w). split; [done|]. by apply elem_of_map_to_list. }
  assert (Hup : waiters s' !! w = Some {| is_ready := true |}).
  { rewrite Hw', bool_decide_true by done. unfold s1. fields. by rewrite Hf. }
  split; [done|]. exists t, pc. split_and!; [done..|].
  assert (Hwpc : waiter_of pc = w) by (destruct pc; simpl in *; congruence).
  assert (Hk : workers s' !! t = Some (wake w pc)).
  { rewrite Hk'. unfold s1. fields. rewrite Ht. cbn [fmap option_fmap option_map].
    by rewrite Hwpc, bool_decide_true. }
  assert (Hfree : holds_mtx pc = None -> mtx_free w s' = true).
  { intros Hno. apply mtx_free_spec. intros t' pc'. rewrite Hk'. unfold s1. fields.
    destruct (workers s !! t') as [pc0|] eqn:Hk0; [|done].
    cbn [fmap option_fmap option_map]. intros [= <-] Hh.
    assert (holds_mtx pc0 = Some w) as Hh0.
    { case_bool_decide; [by rewrite holds_mtx_wake in Hh|done]. }
    assert (waiter_of pc0 = w) as Hw0 by (destruct pc0; simpl in *; congruence).
    destruct (owner_is_unique s t pc t' pc0 id w Hinv Ht Ho Hk0 Hw0) as [_ ->]. congruence. }
  destruct pc as [| |id0 w0|id0 w0|id0 w0|]; try done; simpl in Ho; injection Ho as -> ->.
  - simpl in Hk. split; [done|]. unfold worker_step. rewrite Hk, Hup, Hfree by done.
    eexists. split; [done|]. fields. by rewrite lookup_insert_eq.
  - simpl in Hk. split; [done|]. unfold worker_step. rewrite Hk, Hup.
    eexists. split; [done|]. fields. rewrite lookup_insert_eq. split_and!; [done..|].
    unfold stranded. fields. rewrite lookup_insert_eq, Hm', Hth', Hsw'.
    split_and!; [done| |done..]. intros id'. by rewrite lookup_empty.
  - simpl in Hk. rewrite bool_decide_true in Hk by done. split; [done|].
    unfold worker_step. rewrite Hk, Hup, Hfree by done.
    eexists. split; [done|]. fields. by rewrite lookup_insert_eq.
Qed.

Lemma sweep_flags_every_registered_waiter_witness :
  exists s s', run WorkerOwnsWaiter (take 7 Scenario.missed_notify) initial = Some s /\
               shutdown_finish WorkerOwnsWaiter s = Some s' /\
               trx_wait_map s' = ∅ /\ sweeping s' = None.
Proof.
  eexists.
  destruct (sweep_flags_every_registered_waiter (take 7 Scenario.missed_notify) _ 0
              ltac:(vm_compute; reflexivity))
    as (s' & Hfin & Hm & Hsw & _); [vm_compute; reflexivity..|].
  exists s'. split; [vm_compute; reflexivity|]. split; [exact Hfin|]. split; [exact Hm|exact Hsw].
Defined.

(** Both outcomes occur.  In [Scenario.shutdown_mid_epoch] the two
    registered threads are about to test their flags when the sweep runs,
    and find them up.  In [Scenario.missed_notify] the thread has found
    its flag down and not yet blocked when the sweep runs: it blocks
    afterwards, with its flag up and [scheduler_shutdown] returned. *)
Example sweep_outcomes :
  (exists s, run WorkerOwnsWaiter Scenario.shutdown_mid_epoch initial = Some s /\
             sweeping s = None /\ trx_wait_map s = ∅ /\
             workers s = {[ 1 := WWait 1 100; 2 := WWait 2 101 ]} /\
             waiters s = {[ 100%N := {| is_ready := true |};
                            101%N := {| is_ready := true |} ]}) /\
  (exists s, run WorkerOwnsWaiter Scenario.missed_notify initial = Some s /\
             scheduler_running s = false /\ scheduler_thread s = SNoThread /\
             joining s = None /\ sweeping s = None /\ trx_wait_map s = ∅ /\
             workers s = {[ 1 := WBlocked 1 100 ]} /\
             waiters s = {[ 100%N := {| is_ready := true |} ]} /\
             step WorkerOwnsWaiter (AWorker 1) s = None).
Proof. split; eexists; (split; [by vm_compute|]); split_and!; by vm_compute. Qed.


Lemma insert_is_Some (W : gmap nat worker_pc) t0 pc t :
  is_Some (W !! t) -> is_Some (<[t0 := pc]> W !! t).
Proof.
  intros H. destruct (decide (t0 = t)) as [->|Hne];
    [rewrite lookup_insert_eq; by eexists|by rewrite lookup_insert_ne].
Qed.

Lemma stopped_step a s s' t :
  abandoned s -> ~ is_init a -> step WorkerOwnsWaiter a s = Some s' ->
  is_Some (workers s !! t) -> is_Some (workers s' !! t).
Proof.
  intros (Hrun & Hpc & Hj & Hsw & Hdown & Hnw) Hni Hstep Hin.
  apply step_move in Hstep as [Hstep _].
  destruct a as [env|t0| | | |t0 id p w|t0|t0]; simpl in Hstep.
  - by destruct Hni.
  - unfold shutdown_enter in Hstep. rewrite Hrun in Hstep. by injection Hstep as <-.
  - unfold shutdown_join in Hstep. by rewrite Hj in Hstep.
  - unfold sweep_step in Hstep. by rewrite Hsw in Hstep.
  - unfold scheduler_step in Hstep. by rewrite Hpc in Hstep.
  - unfold request_enter in Hstep. case_bool_decide as Hc; [|done]. injection Hstep as <-.
    by apply insert_is_Some.
  - unfold worker_step in Hstep.
    destruct (workers s !! t0) as [[id w p|id w|id w|id w|id w|id w]|] eqn:Ht0; try done.
    + injection Hstep as <-. by apply insert_is_Some.
    + destruct (global_mutex_free s); [|done]. injection Hstep as <-. by apply insert_is_Some.
    + destruct (waiters s !! w) as [x|] eqn:Hw; [|done].
      destruct (mtx_free w s); [|done]. rewrite (Hdown _ _ Hw) in Hstep.
      injection Hstep as <-. by apply insert_is_Some.
    + destruct (waiters s !! w) as [x|] eqn:Hw; [|done].
      injection Hstep as <-. by apply insert_is_Some.
    + by destruct (Hnw t0 id w).
  - unfold spurious_wakeup in Hstep.
    destruct (workers s !! t0) as [[id w p|id w|id w|id w|id w|id w]|] eqn:Ht0; try done.
    injection Hstep as <-. by apply insert_is_Some.
Qed.

(** X27.  [scheduler_request] does not ask whether the scheduler runs: a request
    made while the scheduler is stopped (before [init], or after a
    shutdown that has completed) pushes its entry, registers its waiter
    and blocks; whatever else happens, spurious wake-ups included, the
    calling thread is still inside [scheduler_request] for as long as the
    scheduler is not started again. *)
Theorem request_while_stopped_never_returns acts s s' t id p w :
  abandoned s -> Forall (fun a => ~ is_init a) acts ->
  run WorkerOwnsWaiter (ARequest t id p w :: acts) s = Some s' ->
  is_Some (workers s' !! t) /\ abandoned s'.
Proof.
  intros Hab Hni Hrun. rewrite run_cons in Hrun.
  destruct (step WorkerOwnsWaiter (ARequest t id p w) s) as [s1|] eqn:Hs1; [|done].
  cbn [mbind option_bind] in Hrun.
  destruct (abandoned_step (ARequest t id p w) _ _ Hab ltac:(intros H; exact H) Hs1)
    as [Hab1 _].
  assert (Hin : is_Some (workers s1 !! t)).
  { apply step_move in Hs1 as [Hs1 _]. simpl in Hs1. unfold request_enter in Hs1.
    case_bool_decide; [|done].
    injection Hs1 as <-. cbn [workers emit set_workers]. rewrite lookup_insert_eq. by eexists. }
  clear Hs1 Hab. revert s1 Hab1 Hin Hrun.
  induction acts as [|a acts IH]; intros s1 Hab1 Hin Hrun.
  - by injection Hrun as <-.
  - apply Forall_cons in Hni as [Ha Hni]. rewrite run_cons in Hrun.
    destruct (step WorkerOwnsWaiter a s1) as [s2|] eqn:Hs2; [|done].
    cbn [mbind option_bind] in Hrun.
    destruct (abandoned_step _ _ _ Hab1 Ha Hs2) as [Hab2 _].
    eapply (IH Hni s2); [done| |done]. exact (stopped_step a s1 s2 t Hab1 Ha Hs2 Hin).
Qed.

Lemma request_while_stopped_never_returns_witness :
  exists s', run WorkerOwnsWaiter
               [ARequest 1 1 50 100; AWorker 1; AWorker 1; AWorker 1; AWorker 1; ASpurious 1;
                AWorker 1; AWorker 1] initial = Some s' /\
             is_Some (workers s' !! 1).
Proof.
  eexists. split; [vm_compute; reflexivity|].
  refine (proj1 (request_while_stopped_never_returns
                   [AWorker 1; AWorker 1; AWorker 1; AWorker 1; ASpurious 1;
                    AWorker 1; AWorker 1] initial _ 1 1%N 50%Z 100%N _ _ _)).
  - by split_and!.
  - repeat constructor; intros H; exact H.
  - vm_compute. reflexivity.
Defined.

(** ** A thread the notify has passed by *)

Lemma stranded_frame s s' t id w :
  workers s' !! t = workers s !! t -> trx_wait_map s' = trx_wait_map s ->
  (in_hand (scheduler_thread s') = in_hand (scheduler_thread s) \/
   in_hand (scheduler_thread s') = None) ->
  (sweeping s' = sweeping s \/ sweeping s' = None \/
   exists t0 todo, sweeping s' = Some (t0, HWrite todo)) ->
  stranded t id w s -> stranded t id w s'.
Proof.
  intros Hk Hm Hh Hsw (Ht & Hno & Hhand & Hs). unfold stranded.
  rewrite Hk, Hm. split_and!; [done..| |].
  - by destruct Hh as [->| ->].
  - by destruct Hsw as [->|[->|(t0 & todo & ->)]].
Qed.

(** Nothing but a spurious wake-up gets a stranded thread out of its
    wait: no other move of any thread puts its waiter where a notify would
    reach it. *)
Lemma stranded_step a s s' t id w :
  waiter_inv s -> stranded t id w s -> step WorkerOwnsWaiter a s = Some s' ->
  a <> ASpurious t -> stranded t id w s'.
Proof.
  intros Hinv Hst Hstep Hns.
  pose proof Hinv as (_ & Huniq & _ & _ & _ & _ & Hsweep).
  pose proof Hst as (Ht & Hno & Hhand & Hs).
  apply step_move in Hstep as [Hstep _].
  destruct a as [env|t0| | | |t0 id0 p w0|t0|t0]; simpl in Hstep.
  - unfold scheduler_init in Hstep.
    destruct (scheduler_running s); [by injection Hstep as <-|].
    destruct (scheduler_thread s) eqn:Hpc; try done. injection Hstep as <-.
    unfold init_rng, read_epoch_ms; repeat case_match;
      (apply (stranded_frame s); [done|done|by right|by left|done]).
  - unfold shutdown_enter in Hstep.
    destruct (scheduler_running s); injection Hstep as <-; [|done].
    apply (stranded_frame s); [done|done|by left|by left|done].
  - unfold shutdown_join in Hstep. destruct (joining s) as [t1|]; [|done].
    destruct (scheduler_thread s) eqn:Hpc; try done.
    destruct (sweeping s) eqn:Hsw; [done|]. injection Hstep as <-.
    apply (stranded_frame s); [done|done|by right|right; right; by eexists _, _|done].
  - unfold sweep_step in Hstep.
    destruct (sweeping s) as [[t1 [[|[id1 w1] todo]|w1 todo]]|] eqn:Hsw; [| | |done].
    + injection Hstep as <-. unfold stranded. fields. split_and!; [done| |done..].
      intros id'. by rewrite lookup_empty.
    + destruct (waiters s !! w1) as [x|] eqn:Hx; [|done]. injection Hstep as <-.
      unfold stranded. fields. split_and!; [done..|]. intros ->.
      destruct (Hsweep _ _ eq_refl) as [_ Hin]. apply (Hno id1), Hin. simpl. by left.
    + destruct (waiters s !! w1) as [x|] eqn:Hx; [|done]. injection Hstep as <-.
      unfold stranded. fields. split_and!; [|done..].
      rewrite wake_all_lookup, Ht. simpl. by rewrite bool_decide_false.
  - unfold scheduler_step in Hstep. destruct (scheduler_thread s) eqn:Hpc; try done.
    + destruct (scheduler_running s); simpl in Hstep;
        [destruct (g_epoch_state s)|]; injection Hstep as <-;
        (apply (stranded_frame s); [done|done|by right|by left|done]).
    + destruct (pending_requests s); injection Hstep as <-;
        (apply (stranded_frame s); [done|done|by right|by left|done]).
    + destruct (global_mutex_free s); [|done].
      destruct (PQ.top (scheduler_queue s)) as [e|] eqn:Htop.
      * destruct (trx_wait_map s !! e.2) as [w1|] eqn:Hw; injection Hstep as <-.
        -- unfold stranded. fields. split_and!; [done| | |done].
           ++ intros id' [_ Hl]%lookup_delete_Some. by apply (Hno id').
           ++ intros [= ->]. by apply (Hno e.2).
        -- apply (stranded_frame s); [done|done|by right|by left|done].
      * injection Hstep as <-. apply (stranded_frame s); [done|done|by right|by left|done].
    + destruct (global_mutex_free s); [|done]. injection Hstep as <-.
      apply (stranded_frame s); [done|done|by right|by left|done].
    + destruct (waiters s !! w0) as [x|] eqn:Hx; [|done].
      destruct (mtx_free w0 s); [|done]. injection Hstep as <-.
      apply (stranded_frame s); [done|done| |by left|done]. left. by rewrite Hpc.
    + destruct (waiters s !! w0) as [x|] eqn:Hx; [|done]. injection Hstep as <-.
      apply (stranded_frame s); [|done|by right|by left|done]. fields.
      destruct (wake_one_wakes w0 (workers s) t) as [->|(id' & H1 & _)]; [done|].
      rewrite Ht in H1. injection H1 as _ ->. by destruct Hhand.
    + injection Hstep as <-. apply (stranded_frame s); [done|done|by right|by left|done].
  - unfold request_enter in Hstep. case_bool_decide as Hc; [|done].
    destruct Hc as (Hnone & _). injection Hstep as <-.
    apply (stranded_frame s); [|done|by left|by left|done]. fields.
    rewrite lookup_insert_ne; [done|]. intros ->. congruence.
  - assert (t0 <> t) as Hne.
    { intros ->. unfold worker_step in Hstep. by rewrite Ht in Hstep. }
    unfold worker_step in Hstep.
    destruct (workers s !! t0) as [[id1 w1 p|id1 w1|id1 w1|id1 w1|id1 w1|id1 w1]|] eqn:Ht0;
      try done.
    + injection Hstep as <-. apply (stranded_frame s); [|done|by left|by left|done].
      fields. by rewrite lookup_insert_ne.
    + destruct (global_mutex_free s); [|done]. injection Hstep as <-.
      unfold stranded. fields. rewrite lookup_insert_ne by done. split_and!; [done| |done..].
      intros id' [[_ ->]|[_ Hl]]%lookup_insert_Some; [|by apply (Hno id')].
      by destruct Hne, (Huniq _ _ _ _ Ht0 Ht eq_refl).
    + destruct (waiters s !! w1) as [x|] eqn:Hx; [|done].
      destruct (mtx_free w1 s); [|done].
      destruct (is_ready x); injection Hstep as <-;
        (apply (stranded_frame s); [|done|by left|by left|done]);
        fields; by rewrite lookup_insert_ne.
    + destruct (waiters s !! w1) as [x|] eqn:Hx; [|done]. injection Hstep as <-.
      apply (stranded_frame s); [|done|by left|by left|done].
      fields. by rewrite lookup_insert_ne.
    + injection Hstep as <-. apply (stranded_frame s); [|done|by left|by left|done].
      fields. by rewrite lookup_delete_ne.
  - assert (t0 <> t) as Hne by congruence.
    unfold spurious_wakeup in Hstep.
    destruct (workers s !! t0) as [[id1 w1 p|id1 w1|id1 w1|id1 w1|id1 w1|id1 w1]|] eqn:Ht0;
      try done.
    injection Hstep as <-. apply (stranded_frame s); [|done|by left|by left|done].
    fields. by rewrite lookup_insert_ne.
Qed.

Lemma stranded_for_good acts s s' t id w :
  waiter_inv s -> stranded t id w s -> Forall (fun a => a <> ASpurious t) acts ->
  run WorkerOwnsWaiter acts s = Some s' -> stranded t id w s' /\ waiter_inv s'.
Proof.
  revert s. induction acts as [|a acts IH]; intros s Hinv Hst Hns Hrun.
  - by injection Hrun as <-.
  - apply Forall_cons in Hns as [Ha Hns]. rewrite run_cons in Hrun.
    destruct (step WorkerOwnsWaiter a s) as [s1|] eqn:Hs1; [|done].
    cbn [mbind option_bind] in Hrun.
    apply (IH s1); [by eapply step_waiter_inv|by eapply stranded_step|done..].
Qed.

(** The thread that the sweep of [Scenario.missed_notify] has passed by
    stays blocked, with its flag up, whatever the threads do afterwards,
    a new [scheduler_init] included, unless its wait ends spuriously. *)
Lemma missed_notify_is_for_good acts s s' :
  run WorkerOwnsWaiter Scenario.missed_notify initial = Some s ->
  Forall (fun a => a <> ASpurious 1) acts ->
  run WorkerOwnsWaiter acts s = Some s' ->
  workers s' !! 1 = Some (WBlocked 1 100).
Proof.
  intros Hs Hns Hrun.
  pose proof (run_reachable _ _ initial s (reachable_initial _) Hs) as Hr.
  pose proof (reachable_waiter_inv _ Hr) as Hinv.
  assert (Hview : (workers s !! 1, trx_wait_map s, scheduler_thread s, sweeping s)
                  = (Some (WBlocked 1 100), ∅, SNoThread, None)).
  { apply (inj Some).
    change (Some (workers s !! 1, trx_wait_map s, scheduler_thread s, sweeping s))
      with ((fun s => (workers s !! 1, trx_wait_map s, scheduler_thread s, sweeping s))
              <$> Some s).
    rewrite <- Hs. vm_compute. reflexivity. }
  injection Hview as Hk Hm Hpc Hsw.
  assert (Hst : stranded 1 1 100 s).
  { unfold stranded. rewrite Hk, Hm, Hpc, Hsw. split_and!; [done| |done..].
    intros id'. by rewrite lookup_empty. }
  by destruct (stranded_for_good acts s s' 1 _ _ Hinv Hst Hns Hrun) as [(Hk' & _) _].
Qed.

(** ** The notify that follows the write *)

(** X30.  The notify of the scheduler thread can reach a destroyed waiter, in
    the revision with worker-owned waiters.  The scheduler thread writes
    the flag under the waiter's mutex, gives the mutex up and only then
    calls [notify_one] on the waiter.  When the scheduler thread stands
    between the two and the waiter's thread is about to test its flag, the
    thread's two moves find the flag up, delete the waiter and return; the
    scheduler thread's next move is then [cv.notify_one()] on a destroyed
    object, for which the model has no next state.  In the revision where
    the map owns the waiters the scheduler thread holds the owning pointer
    and the notify goes through. *)
Theorem notify_can_reach_a_destroyed_waiter s t id w x :
  scheduler_thread s = SNotify id w -> workers s !! t = Some (WWait id w) ->
  waiters s !! w = Some x -> is_ready x = true -> mtx_free w s = true ->
  (exists s', run WorkerOwnsWaiter [AWorker t; AWorker t] s = Some s' /\
     trace s' = trace s ++ [EvObserve t w; EvDestroy (HostThread t) w; EvReturn t id] /\
     workers s' !! t = None /\ waiters s' !! w = None /\
     scheduler_thread s' = SNotify id w /\
     step WorkerOwnsWaiter ASched s' = None) /\
  (exists s', run MapOwnsWaiter [AWorker t; AWorker t] s = Some s' /\
     waiters s' !! w = Some x /\
     is_Some (step MapOwnsWaiter ASched s')).
Proof.
  intros Hpc Ht Hx Hup Hfree. split.
  - eexists. split.
    + rewrite run_cons. unfold step, aborted. rewrite Hpc. cbn [move]. unfold worker_step.
      rewrite Ht, Hx, Hfree, Hup. cbn [mbind option_bind].
      rewrite run_cons. unfold step, aborted. fields. rewrite Hpc. cbn [move].
      unfold worker_step. fields. rewrite lookup_insert_eq. reflexivity.
    + fields. rewrite <- !app_assoc. split_and!; try done.
      * by rewrite lookup_delete_eq.
      * by rewrite lookup_delete_eq.
      * unfold step, aborted. fields. rewrite Hpc. cbn [move]. unfold scheduler_step. fields.
        by rewrite Hpc, lookup_delete_eq.
  - eexists. split.
    + rewrite run_cons. unfold step, aborted. rewrite Hpc. cbn [move]. unfold worker_step.
      rewrite Ht, Hx, Hfree, Hup. cbn [mbind option_bind].
      rewrite run_cons. unfold step, aborted. fields. rewrite Hpc. cbn [move].
      unfold worker_step. fields. rewrite lookup_insert_eq. reflexivity.
    + fields. split; [done|].
      unfold step, aborted. fields. rewrite Hpc. cbn [move]. unfold scheduler_step. fields.
      by rewrite Hpc, Hx.
Qed.

Lemma notify_can_reach_a_destroyed_waiter_witness :
  exists s s', run WorkerOwnsWaiter (take 10 Scenario.early_observer) initial = Some s /\
               run WorkerOwnsWaiter [AWorker 1; AWorker 1] s = Some s' /\
               scheduler_thread s' = SNotify 1 100 /\ waiters s' !! 100%N = None /\
               step WorkerOwnsWaiter ASched s' = None.
Proof.
  let r := eval vm_compute in (run WorkerOwnsWaiter (take 10 Scenario.early_observer) initial) in
  match r with Some ?s => exists s end.
  destruct (notify_can_reach_a_destroyed_waiter
              (default initial (run WorkerOwnsWaiter (take 10 Scenario.early_observer) initial))
              1 1%N 100%N {| is_ready := true |}
              ltac:(vm_compute; reflexivity) ltac:(vm_compute; reflexivity)
              ltac:(vm_compute; reflexivity) eq_refl ltac:(vm_compute; reflexivity))
    as [(s' & Hrun & _ & _ & Hw & Hpc & Hno) _].
  exists s'. split; [vm_compute; reflexivity|]. split; [exact Hrun|].
  split; [exact Hpc|]. split; [exact Hw|exact Hno].
Defined.

(** The same happens to the sweep of [scheduler_shutdown], which writes
    the flag and calls [notify_all] without the waiter's mutex: in
    [Scenario.early_observer_at_shutdown] the thread deletes its waiter
    between the two. *)
Example sweep_can_notify_a_destroyed_waiter :
  exists s, run WorkerOwnsWaiter Scenario.early_observer_at_shutdown initial = Some s /\
            sweeping s = Some (0, HNotify 100 []) /\ waiters s !! 100%N = None /\
            workers s = ∅ /\ step WorkerOwnsWaiter ASweep s = None.
Proof. eexists. split; [by vm_compute|]. split_and!; by vm_compute. Qed.

End waiter_facts.

(* ===================================================================== *)
(** * Commit and shutdown *)
(* ===================================================================== *)

Section lifecycle_facts.
Import Lib.

(** X28.  [isofuzz_trx_commit] on a live handle writes exactly one line,
    with COMMIT as the operation, the DBMS id as the effective id once
    the transaction is promoted and the [lib_id] before, no object and 0
    as last writer; it ends nothing: registry and scheduler are as before
    and the handle stays live until [isofuzz_trx_end]. *)
Theorem commit_logs_and_keeps_the_transaction t h s trx :
  h <> 0%N -> records (ctx s) !! h = Some trx ->
  isofuzz_trx_commit t h s =
    Done (set_logger
            (Logger.logger_log_line
               (String.concat tab
                  [ show_thread_id (thread_id trx);
                    dec (if bool_decide (dbms_id trx = 0%N) then lib_id trx else dbms_id trx);
                    "COMMIT"; "N/A"; "N/A"; "N/A"; "0" ]%string)
               (logger s)) s) /\
  forall s', isofuzz_trx_commit t h s = Done s' ->
    ctx s' = ctx s /\ sched s' = sched s /\ records (ctx s') !! h = Some trx.
Proof.
  intros Hnz Hr. unfold isofuzz_trx_commit. rewrite bool_decide_eq_false_2 by done.
  rewrite (log_generic_op_live _ _ _ _ _ _ _ Hnz Hr). split; [done|].
  by intros s' [= <-].
Qed.

Lemma commit_logs_and_keeps_the_transaction_witness :
  exists s', isofuzz_trx_commit 8 2 Sample.two_live = Done s' /\
             Logger.written (logger s') =
               [String.concat tab ["8"; "2"; "COMMIT"; "N/A"; "N/A"; "N/A"; "0"]%string] /\
             records (ctx s') !! 2%N = Some {| lib_id := 2; dbms_id := 0; thread_id := 8 |}.
Proof.
  destruct (commit_logs_and_keeps_the_transaction 8 2 Sample.two_live
              {| lib_id := 2; dbms_id := 0; thread_id := 8 |}) as [Hc Hk];
    [done|reflexivity|].
  eexists. split; [exact Hc|]. split; reflexivity.
Defined.

(** Where a step of the scheduler thread that is on its way to the loop
    test leads: not to a pop, and to the failed assertion only from a pop
    that finds no waiter. *)
Lemma sched_step_lands rev x x1 :
  Sched.scheduler_step rev x = Some x1 ->
  0 < Reading.steps_to_loop (Sched.scheduler_thread x) ->
  Sched.scheduler_thread x1 <> Sched.SDrain /\
  Sched.scheduler_thread x1 <> Sched.SNoThread /\
  (Sched.scheduler_thread x1 = Sched.SAborted ->
   rev = Sched.WorkerOwnsWaiter /\ Reading.pops_unregistered x).
Proof.
  unfold Sched.scheduler_step, Reading.pops_unregistered. intros H Hk.
  destruct (Sched.scheduler_thread x) eqn:Hpc; cbn in Hk; try lia.
  - by destruct (Sched.pending_requests x); injection H as <-.
  - destruct (Sched.global_mutex_free x); [|done].
    destruct (PQ.top (Sched.scheduler_queue x)) as [e|] eqn:Htop; [|by injection H as <-].
    destruct (Sched.trx_wait_map x !! e.2) as [w|] eqn:Hw; injection H as <-; [done|].
    cbn. destruct rev; split_and!; try done. intros _. split_and!; [done..|]. by exists e.
  - destruct (Sched.global_mutex_free x); [|done]. by injection H as <-.
  - destruct (Sched.waiters x !! w); [|done]. destruct (Sched.mtx_free w x); [|done].
    by injection H as <-.
  - destruct (Sched.waiters x !! w); [|done]. injection H as <-. by destruct rev.
  - by injection H as <-.
Qed.

Lemma step_towards_loop rev x :
  Sched.scheduler_running x = false -> 0 < Reading.steps_to_loop (Sched.scheduler_thread x) ->
  Reading.unhindered x ->
  (rev = Sched.WorkerOwnsWaiter -> ~ Reading.pops_unregistered x) ->
  exists x1, Sched.scheduler_step rev x = Some x1 /\
             Sched.scheduler_running x1 = false /\ Sched.joining x1 = Sched.joining x /\
             Sched.scheduler_thread x1 <> Sched.SNoThread /\
             Sched.scheduler_thread x1 <> Sched.SAborted /\
             Reading.unhindered x1 /\
             (rev = Sched.WorkerOwnsWaiter -> ~ Reading.pops_unregistered x1) /\
             Reading.steps_to_loop (Sched.scheduler_thread x1)
               < Reading.steps_to_loop (Sched.scheduler_thread x).
Proof.
  intros Hr Hk Hun Hreg.
  destruct (sched_enabled rev x Hun Hk) as [x1 Hs]. exists x1.
  destruct (sched_step_keeps _ _ _ Hs) as (Hr1 & Hj1 & _).
  destruct (sched_step_lands _ _ _ Hs Hk) as (Hnd & Hnn & Hab).
  split_and!; [done|congruence|done|done| | | |].
  - intros Ha. destruct (Hab Ha) as [-> Hp]. by apply Hreg.
  - by eapply unhindered_sched.
  - intros _ [Hd _]. done.
  - by eapply sched_step_rank.
Qed.

Lemma run_to_exit_S rev n x :
  Sched.scheduler_thread x <> Sched.SExited ->
  run_to_exit rev (S n) x = Sched.scheduler_step rev x ≫= run_to_exit rev n.
Proof. intros H. cbn [run_to_exit]. by destruct (Sched.scheduler_thread x). Qed.

Lemma run_to_exit_reaches rev n x :
  Reading.steps_to_loop (Sched.scheduler_thread x) <= n ->
  Sched.scheduler_running x = false ->
  Sched.scheduler_thread x <> Sched.SNoThread -> Sched.scheduler_thread x <> Sched.SAborted ->
  Reading.unhindered x ->
  (rev = Sched.WorkerOwnsWaiter -> ~ Reading.pops_unregistered x) ->
  exists x', run_to_exit rev (S n) x = Some x' /\
             Sched.scheduler_thread x' = Sched.SExited /\
             Sched.joining x' = Sched.joining x /\ Sched.scheduler_running x' = false /\
             Reading.unhindered x'.
Proof.
  revert x. induction n as [|n IH]; intros x Hk Hr Hpc Hna Hun Hreg.
  - destruct (Sched.scheduler_thread x) eqn:Hth; cbn in Hk; try lia; try done.
    + assert (Hs : Sched.scheduler_step rev x = Some (Sched.set_thread Sched.SExited x)).
      { unfold Sched.scheduler_step. by rewrite Hth, Hr. }
      exists (Sched.set_thread Sched.SExited x). split_and!; [|done..|by eapply unhindered_sched].
      rewrite run_to_exit_S by (by rewrite Hth). by rewrite Hs.
    + exists x. split; [|done]. cbn [run_to_exit]. by rewrite Hth.
  - destruct (decide (0 < Reading.steps_to_loop (Sched.scheduler_thread x))) as [Hpos|Hz].
    + destruct (step_towards_loop rev x Hr Hpos Hun Hreg)
        as (x1 & Hs & Hr1 & Hj1 & Hn1 & Ha1 & Hun1 & Hreg1 & Hlt).
      destruct (IH x1 ltac:(lia) Hr1 Hn1 Ha1 Hun1 Hreg1) as (x' & Hx' & Hex & Hj & Hoff & Hun').
      exists x'. split_and!; [|done|congruence|done|done].
      rewrite run_to_exit_S, Hs; [done|].
      intros E. rewrite E in Hpos. cbn in Hpos. lia.
    + destruct (Sched.scheduler_thread x) eqn:Hth; cbn in Hz; try lia; try done.
      * assert (Hs : Sched.scheduler_step rev x = Some (Sched.set_thread Sched.SExited x)).
        { unfold Sched.scheduler_step. by rewrite Hth, Hr. }
        exists (Sched.set_thread Sched.SExited x).
        split_and!; [|done..|by eapply unhindered_sched].
        rewrite run_to_exit_S by (by rewrite Hth). by rewrite Hs.
      * exists x. split; [|done]. cbn [run_to_exit]. by rewrite Hth.
Qed.

(** The sweep runs to its end when the waiters it visits are live. *)
Lemma sweep_run_ok rev todo x t :
  Sched.sweeping x = Some (t, Sched.HWrite todo) ->
  (forall id w, (id, w) ∈ todo -> is_Some (Sched.waiters x !! w)) ->
  is_Some (Sched.sweep_run rev (2 * length todo + 1) x).
Proof.
  revert x. induction todo as [|[id w] todo IH]; intros x Hsw Hlive.
  - cbn [length Nat.mul Nat.add]. rewrite (sweep_run_S _ _ _ _ Hsw). unfold Sched.sweep_step.
    rewrite Hsw. cbn. by eexists.
  - destruct (Hlive id w) as [y Hy]; [by left|].
    replace (2 * length ((id, w) :: todo) + 1) with (S (S (2 * length todo + 1)))
      by (simpl; lia).
    rewrite (sweep_run_S _ _ _ _ Hsw). unfold Sched.sweep_step at 1. rewrite Hsw, Hy.
    cbn [mbind option_bind]. erewrite sweep_run_S by reflexivity.
    unfold Sched.sweep_step at 1. fields. rewrite lookup_alter_eq, Hy.
    cbn [fmap option_fmap option_map mbind option_bind]. apply IH; [done|].
    intros id' w' Hin. fields. rewrite alter_is_Some. apply (Hlive id'). by right.
Qed.

(** X29.  [isofuzz_shutdown] completes: called while the scheduler runs, with
    nobody in the way of the scheduler thread (no sweep holds the global
    mutex, the registered waiters are live and no thread holds their
    mutex) and no other thread moving, it returns, wherever the scheduler
    thread stands in its loop, except that in the revision that asserts
    the scheduler thread must not stand before the pop of an entry whose
    id has no waiter; afterwards the scheduler is stopped, its thread is
    joined, the waiter map is empty, the registry is untouched, the log
    file is closed and the destination is standard output again. *)
Theorem isofuzz_shutdown_completes rev t s :
  Sched.scheduler_running (sched s) = true ->
  Sched.scheduler_thread (sched s) <> Sched.SNoThread ->
  Sched.scheduler_thread (sched s) <> Sched.SAborted ->
  Reading.unhindered (sched s) ->
  (rev = Sched.WorkerOwnsWaiter -> ~ Reading.pops_unregistered (sched s)) ->
  exists s',
    isofuzz_shutdown rev t s = Done s' /\
    Sched.scheduler_running (sched s') = false /\
    Sched.scheduler_thread (sched s') = Sched.SNoThread /\
    Sched.joining (sched s') = None /\ Sched.sweeping (sched s') = None /\
    Sched.trx_wait_map (sched s') = ∅ /\
    ctx s' = ctx s /\ Logger.destination (logger s') = (None, Logger.Cout).
Proof.
  intros Hrun Hpc Hna Hun Hreg.
  unfold isofuzz_shutdown, isofuzz_shutdown_enter, Sched.shutdown_enter.
  rewrite Hrun. cbn [of_option bind sched set_sched].
  destruct (run_to_exit_reaches rev 5
              (Sched.set_joining (Some t) (Sched.set_running false (sched s))))
    as (x' & Hx & Hex & Hj & Hr & Hun'); [|reflexivity|exact Hpc|exact Hna|exact Hun|exact Hreg|].
  { cbn [Sched.scheduler_thread Sched.set_joining Sched.set_running].
    destruct (Sched.scheduler_thread (sched s)); cbn; lia. }
  rewrite Hx. cbn [of_option bind]. unfold isofuzz_shutdown_finish. cbn [sched set_sched].
  destruct Hun' as (Hsw & Hlive & _).
  assert (Hfin : is_Some (Sched.shutdown_finish rev x')).
  { unfold Sched.shutdown_finish, Sched.shutdown_join. rewrite Hj, Hex, Hsw.
    cbn [Sched.joining Sched.set_joining mbind option_bind].
    rewrite <- length_map_to_list. apply (sweep_run_ok rev _ _ t); [done|].
    intros id w Hin%elem_of_map_to_list. fields. by apply (Hlive id). }
  destruct Hfin as [x'' Hfin]. rewrite Hfin.
  destruct (shutdown_finish_frame _ _ _ Hfin)
    as (_ & _ & _ & Hr'' & Hth'' & Hj'' & _ & _ & Hsw'' & Hm'' & _).
  eexists. split; [reflexivity|]. cbn [sched ctx logger set_sched set_logger].
  split_and!; [congruence|done..].
Qed.

Lemma unhindered_draining : Reading.unhindered Sample.draining.
Proof.
  split_and!; [done| | |done].
  - intros id w. cbn. intros [[<- <-]|[_ [<- <-]%lookup_singleton_Some]]%lookup_insert_Some;
      (split; [by eexists|by vm_compute]).
  - intros id id' w. cbn.
    intros [[<- <-]|[_ [<- <-]%lookup_singleton_Some]]%lookup_insert_Some
           [[<- ?]|[_ [<- ?]%lookup_singleton_Some]]%lookup_insert_Some; done.
Qed.

Lemma isofuzz_shutdown_completes_witness :
  exists s', isofuzz_shutdown Sched.WorkerOwnsWaiter 0 (set_sched Sample.draining initial)
               = Done s' /\
             Sched.trx_wait_map (sched s') = ∅ /\ Sched.scheduler_running (sched s') = false.
Proof.
  destruct (isofuzz_shutdown_completes Sched.WorkerOwnsWaiter 0
              (set_sched Sample.draining initial)) as (s' & Hs & Hr & _ & _ & _ & Hm & _);
    [reflexivity|discriminate|discriminate|exact unhindered_draining| |].
  - intros _ (_ & e & Htop & Hno). vm_compute in Htop. injection Htop as <-.
    vm_compute in Hno. discriminate Hno.
  - exists s'. by split_and!.
Defined.

(** In the revision that asserts, a shutdown that finds the scheduler
    thread before the pop of an entry without a waiter does not return:
    the scheduler thread fails the assertion on its way to the loop
    test.  The other revision returns. *)
Example shutdown_meets_the_assertion :
  isofuzz_shutdown Sched.WorkerOwnsWaiter 0
    (set_sched (Sched.set_thread Sched.SDrain Sample.draining_late) initial) = Stuck /\
  exists s', isofuzz_shutdown Sched.MapOwnsWaiter 0
               (set_sched (Sched.set_thread Sched.SDrain Sample.draining_late) initial)
             = Done s' /\
             Sched.scheduler_thread (sched s') = Sched.SNoThread.
Proof. split; [by vm_compute|]. eexists. split; by vm_compute. Qed.

End lifecycle_facts.
